(** * freddy: a thin C++11 wrapper for reading and writing JSON

    A shallow embedding of [json.hpp]: the escaping functions, the value
    model, the serializer and the recursive-descent parser, the latter
    written once over an iterator interface (the C++ template parameter)
    and instantiated at string iterators and at the stream iterator. *)

From Stdlib Require Import ZArith Ascii String List Bool Lia Sorted.
From Stdlib Require Import Floats.SpecFloat.
From stdpp Require Import base gmap.
Import ListNotations.

Local Open Scope char_scope.
Local Open Scope list_scope.

(** ** Characters and strings

    A [std::string] is the list of its characters.  Its buffer carries a
    terminating NUL after the last character: [data()] is NUL-terminated
    and [s[s.size()]] is ['\0']. *)

Definition str := list ascii.

Definition text (s : string) : str := list_ascii_of_string s.

(** The double quote, written by its code to keep literals readable. *)
Definition dquote : ascii := "034".
Definition backslash : ascii := "\".
Definition NUL : ascii := "000".

(** Source texts of the examples are written with an apostrophe wherever
    the JSON text has a double quote. *)
Definition quoted (s : string) : str :=
  map (fun c => if (c =? "'")%char then dquote else c) (text s).

(** ** Escaping *)

(** [escape]: every double quote and backslash gets a backslash in front. *)
Fixpoint escape (value : str) : str :=
  match value with
  | [] => []
  | c :: value' =>
      (if (c =? dquote) || (c =? backslash) then [backslash] else [])
        ++ c :: escape value'
  end.

(** [unescape] walks the NUL-terminated buffer [value.data()]: the list is
    what is left of the characters, [[]] is the terminator.  A backslash
    steps to the next position and copies whatever is there; when that is
    the terminator, the loop's own increment leaves the buffer, which is
    undefined behaviour and modelled by [None]. *)
Fixpoint unescape (value : str) : option str :=
  match value with
  | [] => Some []
  | c :: value' =>
      if c =? NUL then Some []
      else if c =? backslash then
        match value' with
        | [] => None
        | c' :: value'' => option_map (cons c') (unescape value'')
        end
      else option_map (cons c) (unescape value')
  end.

(** Printable ASCII: the codes 32 to 126, the double quote and the
    backslash among them. *)
Definition printable (c : ascii) : Prop := 32 <= nat_of_ascii c <= 126.

(** ** Results

    A call either returns, throws a [json::exception] carrying its
    [what()] message, or, in the fuel-indexed parser below, runs out of
    fuel.  The top-level entry points are shown never to run out. *)

Inductive outcome (A : Type) : Type :=
| Ret (a : A)
| Throw (what : str)
| OutOfFuel.

Arguments Ret {A} a.
Arguments Throw {A} what.
Arguments OutOfFuel {A}.

Definition bind {A B : Type} (m : outcome A) (k : A -> outcome B) : outcome B :=
  match m with
  | Ret a => k a
  | Throw w => Throw w
  | OutOfFuel => OutOfFuel
  end.

Notation "'let*' p := m 'in' k" := (bind m (fun x => let 'p := x in k))
  (at level 10, p pattern, m at level 100, k at level 200,
   format "'let*'  p  :=  m  'in'  '/' k").

(** ** Numbers

    [json::number] is [double].  Its conversions live in the C++ standard
    library, not in this repository, so the development is parametric in
    them: [number_of_int] is the conversion [number(int)], [extract_number]
    is [double d = 0; io >> d] on a stream holding the given characters,
    and [insert_number] is [ss << d] on a fresh stream.  An IEEE binary64
    instance follows at the end. *)

Class NumberOps := {
  number : Type;
  number_of_int : Z -> number;
  extract_number : str -> number;
  insert_number : number -> str
}.

(** ** Objects: [std::map<string, value>]

    A [std::map] is kept as the list of its entries in iteration order,
    which is the order of [std::less<std::string>]: lexicographic on the
    character codes. *)

Fixpoint key_compare (a b : str) : comparison :=
  match a, b with
  | [], [] => Eq
  | [], _ :: _ => Lt
  | _ :: _, [] => Gt
  | x :: a', y :: b' =>
      match Nat.compare (nat_of_ascii x) (nat_of_ascii y) with
      | Eq => key_compare a' b'
      | c => c
      end
  end.

Definition key_lt (a b : str) : Prop := key_compare a b = Lt.

(** [m[key] = v]: the entry of [key] is created if there is none and then
    assigned. *)
Fixpoint map_assign {V : Type} (key : str) (v : V) (m : list (str * V))
  : list (str * V) :=
  match m with
  | [] => [(key, v)]
  | (k, x) :: m' =>
      match key_compare key k with
      | Lt => (key, v) :: m
      | Eq => (k, v) :: m'
      | Gt => (k, x) :: map_assign key v m'
      end
  end.

Fixpoint map_find {V : Type} (key : str) (m : list (str * V)) : option V :=
  match m with
  | [] => None
  | (k, x) :: m' =>
      match key_compare key k with
      | Eq => Some x
      | _ => map_find key m'
      end
  end.

(** The keys of a map, in iteration order. *)
Definition keys {V : Type} (m : list (str * V)) : list str := map fst m.

(** The invariant of [std::map]: strictly increasing keys. *)
Definition sorted_map {V : Type} (m : list (str * V)) : Prop :=
  StronglySorted key_lt (keys m).

(** The map reached from the empty one by a sequence of assignments. *)
Definition map_of {V : Type} (kvs : list (str * V)) : list (str * V) :=
  fold_left (fun m kv => map_assign (fst kv) (snd kv) m) kvs [].

(** ** The value model *)

Inductive ValueType : Set :=
| JSON_ARRAY | JSON_BOOL | JSON_NULL | JSON_NUMBER | JSON_OBJECT | JSON_STRING.

Definition bool_branch (b : bool) : str :=
  if b then text "true" else text "false".
Definition comma_branch (b : bool) : str :=
  if b then text ", " else [].

(** The bodies of the two [operator<<] loops, over any element printer. *)
Section Put.
Context {V : Type} (json : V -> str).

Fixpoint put_elements (size : nat) (v : list V) (count : nat) : str :=
  match v with
  | [] => []
  | i :: v' =>
      json i ++ comma_branch (S count <? size)%nat
        ++ put_elements size v' (S count)
  end.

Fixpoint put_members (size : nat) (v : list (str * V)) (count : nat) : str :=
  match v with
  | [] => []
  | i :: v' =>
      ([dquote] ++ escape (fst i) ++ dquote :: text ": ")
        ++ json (snd i) ++ comma_branch (S count <? size)%nat
        ++ put_members size v' (S count)
  end.

Definition put_array (v : list V) : str :=
  text "[" ++ put_elements (length v) v 0 ++ text "]".

Definition put_object (v : list (str * V)) : str :=
  text "{" ++ put_members (length v) v 0 ++ text "}".
End Put.

Section Model.
Context {num : NumberOps}.

(** A [value] is shown by the wrapper its [_value] pointer refers to.
    The parser and the serializer build and read values without sharing;
    the handles and their shared storage are modelled in [Shared]. *)
Unset Elimination Schemes.
Inductive value : Type :=
| null_wrapper
| bool_wrapper (_value : bool)
| number_wrapper (_value : number)
| string_wrapper (_value : str)
| array_wrapper (_value : list value)
| object_wrapper (_value : list (str * value)).
Set Elimination Schemes.

(** Induction through the nested containers. *)
Definition value_ind (P : value -> Prop)
    (Hnull : P null_wrapper)
    (Hbool : forall b, P (bool_wrapper b))
    (Hnumber : forall d, P (number_wrapper d))
    (Hstring : forall s, P (string_wrapper s))
    (Harray : forall a, Forall P a -> P (array_wrapper a))
    (Hobject : forall o, Forall (fun kv => P (snd kv)) o -> P (object_wrapper o))
  : forall v, P v :=
  fix go (v : value) : P v :=
    match v with
    | null_wrapper => Hnull
    | bool_wrapper b => Hbool b
    | number_wrapper d => Hnumber d
    | string_wrapper s => Hstring s
    | array_wrapper a =>
        Harray a ((fix all (l : list value) : Forall P l :=
                     match l with
                     | [] => @List.Forall_nil _ P
                     | x :: l' => @List.Forall_cons _ P x l' (go x) (all l')
                     end) a)
    | object_wrapper o =>
        Hobject o ((fix all (l : list (str * value))
                      : Forall (fun kv => P (snd kv)) l :=
                      match l with
                      | [] => @List.Forall_nil _ _
                      | x :: l' => @List.Forall_cons _ (fun kv => P (snd kv)) x l' (go (snd x)) (all l')
                      end) o)
    end.

Definition array := list value.
Definition object := list (str * value).

Definition type (v : value) : ValueType :=
  match v with
  | null_wrapper => JSON_NULL
  | bool_wrapper _ => JSON_BOOL
  | number_wrapper _ => JSON_NUMBER
  | string_wrapper _ => JSON_STRING
  | array_wrapper _ => JSON_ARRAY
  | object_wrapper _ => JSON_OBJECT
  end.

(** The constructors of [value] from literals. *)
Definition value_of_double (x : number) : value := number_wrapper x.
Definition value_of_int (x : Z) : value := number_wrapper (number_of_int x).
Definition value_of_bool (x : bool) : value := bool_wrapper x.
Definition value_of_string (x : str) : value := string_wrapper x.
Definition value_of_array (x : array) : value := array_wrapper x.
Definition value_of_object (x : object) : value := object_wrapper x.

(** The accessors: [value_t] answers [false] and throws "invalid cast",
    each wrapper overrides the pair of its own type. *)
Definition invalid_cast {A : Type} : outcome A := Throw (text "invalid cast").

Definition is_array (v : value) : bool :=
  match v with array_wrapper _ => true | _ => false end.
Definition get_array (v : value) : outcome array :=
  match v with array_wrapper a => Ret a | _ => invalid_cast end.

Definition is_bool (v : value) : bool :=
  match v with bool_wrapper _ => true | _ => false end.
Definition get_bool (v : value) : outcome bool :=
  match v with bool_wrapper b => Ret b | _ => invalid_cast end.

Definition is_number (v : value) : bool :=
  match v with number_wrapper _ => true | _ => false end.
Definition get_number (v : value) : outcome number :=
  match v with number_wrapper d => Ret d | _ => invalid_cast end.

Definition is_string (v : value) : bool :=
  match v with string_wrapper _ => true | _ => false end.
Definition get_string (v : value) : outcome str :=
  match v with string_wrapper s => Ret s | _ => invalid_cast end.

Definition is_object (v : value) : bool :=
  match v with object_wrapper _ => true | _ => false end.
Definition get_object (v : value) : outcome object :=
  match v with object_wrapper o => Ret o | _ => invalid_cast end.

Definition is_null (v : value) : bool :=
  match v with null_wrapper => true | _ => false end.

(** *** The serializer *)

Fixpoint json (v : value) : str :=
  match v with
  | null_wrapper => text "null"
  | bool_wrapper b => bool_branch b
  | number_wrapper d => insert_number d
  | string_wrapper s => [dquote] ++ escape s ++ [dquote]
  | array_wrapper a => put_array json a
  | object_wrapper o => put_object json o
  end.

End Model.

(** ** Iterators

    The parser is a template over its iterator type and uses four
    operations: [*cur], [++cur], [*(cur + 1)] and [cur != end].  The
    increment and the look-ahead may act on an underlying stream, so
    [incr] and [peek] return the iterator as it is afterwards. *)

Class Iterator (I : Type) := {
  deref : I -> ascii;
  incr : I -> I;
  peek : I -> ascii * I;
  neq_end : I -> bool
}.

(** [std::string::const_iterator]: the characters from the cursor on; the
    end iterator is [[]], and reading there finds the terminator the
    string's buffer holds.  The parser increments a cursor only while it
    stands on a character (the cursors a production returns do, see
    [parser_within]), so [incr] is never reached on [[]]. *)
#[export] Instance string_iterator : Iterator str := {
  deref cur := hd NUL cur;
  incr cur := tl cur;
  peek cur := (hd NUL (tl cur), cur);
  neq_end cur := match cur with [] => false | _ :: _ => true end
}.

(** [std::basic_istream<char>]: the unread characters and the two state
    bits the code can observe through [good()]. *)
Record istream : Type := {
  unread : str;
  eofbit : bool;
  failbit : bool
}.

Definition good (ins : istream) : bool := negb (eofbit ins) && negb (failbit ins).

(** [traits::eof()] converted to [char]. *)
Definition EOF_char : ascii := "255".

(** [is.get()] and [is.get(c)]: the character read, if any, and the
    stream afterwards.  On a stream that is not good the sentry fails and
    sets [failbit]; at the end of the data both bits are set. *)
Definition istream_get (ins : istream) : option ascii * istream :=
  if good ins then
    match unread ins with
    | c :: rest => (Some c, {| unread := rest; eofbit := false; failbit := false |})
    | [] => (None, {| unread := []; eofbit := true; failbit := true |})
    end
  else (None, {| unread := unread ins; eofbit := eofbit ins; failbit := true |}).

(** [is.peek()]: at the end of the data only [eofbit] is set. *)
Definition istream_peek (ins : istream) : option ascii * istream :=
  if good ins then
    match unread ins with
    | c :: _ => (Some c, ins)
    | [] => (None, {| unread := []; eofbit := true; failbit := false |})
    end
  else (None, {| unread := unread ins; eofbit := eofbit ins; failbit := true |}).

(** [detail::iterator<char>]: the stream and the current character. *)
Record iterator : Type := {
  stream : istream;
  cur_val : ascii
}.

(** [iterator(is)]: [cur_val(is.get())]. *)
Definition iterator_of (ins : istream) : iterator :=
  let '(c, ins') := istream_get ins in
  {| stream := ins'; cur_val := match c with Some c => c | None => EOF_char end |}.

#[export] Instance stream_iterator : Iterator iterator := {
  deref it := cur_val it;
  incr it :=
    let '(c, ins') := istream_get (stream it) in
    {| stream := ins'; cur_val := match c with Some c => c | None => cur_val it end |};
  peek it :=
    let '(c, ins') := istream_peek (stream it) in
    (match c with Some c => c | None => EOF_char end,
     {| stream := ins'; cur_val := cur_val it |});
  neq_end it := good (stream it)
}.

(** ** The parser *)

Definition is_whitespace (c : ascii) : bool :=
  (c =? " ") || (c =? "013") || (c =? "010") || (c =? "009").

Definition isdigit (c : ascii) : bool :=
  (48 <=? nat_of_ascii c)%nat && (nat_of_ascii c <=? 57)%nat.

(** The characters that keep [parse_number] going. *)
Definition number_char (c : ascii) : bool :=
  isdigit c || (c =? "-") || (c =? ".") || (c =? "e") || (c =? "E") || (c =? "+").

Section Parser.
Context {num : NumberOps} {I : Type} {iter : Iterator I}.

(** [parse_string]: entered one past the opening quote, returns on the
    closing quote. *)
Fixpoint parse_string (fuel : nat) (rv : str) (esc : bool) (cur : I)
  : outcome (str * I) :=
  match fuel with
  | O => OutOfFuel
  | S fuel' =>
      if neq_end cur then
        if (deref cur =? dquote) && negb esc then Ret (rv, cur)
        else
          let esc' := (deref cur =? backslash) && negb esc in
          parse_string fuel' (if esc' then rv else rv ++ [deref cur]) esc'
            (incr cur)
      else Throw (text "bad string: " ++ rv)
  end.

(** The [do ... while (++cur != end)] loop of [parse_number]; [io] is
    what has been written to the string stream. *)
Fixpoint parse_number_loop (fuel : nat) (io : str) (cur : I)
  : outcome (str * I) :=
  match fuel with
  | O => OutOfFuel
  | S fuel' =>
      let io := io ++ [deref cur] in
      let '(next, cur) := peek cur in
      if negb (number_char next) then Ret (io, cur)
      else
        let cur := incr cur in
        if neq_end cur then parse_number_loop fuel' io cur
        else Ret (io, cur)
  end.

Definition parse_number (fuel : nat) (cur : I) : outcome (value * I) :=
  let* (io, cur) := parse_number_loop fuel [] cur in
  Ret (value_of_double (extract_number io), cur).

(** [*++cur == c1 && *++cur == c2 && ...]: whether all matched, and the
    cursor where the comparison stopped. *)
Fixpoint match_rest (lit : str) (cur : I) : bool * I :=
  match lit with
  | [] => (true, cur)
  | c :: lit' =>
      let cur := incr cur in
      if deref cur =? c then match_rest lit' cur else (false, cur)
  end.

Fixpoint detail_parse (fuel : nat) (cur : I) : outcome (value * I) :=
  match fuel with
  | O => OutOfFuel
  | S fuel' =>
      let c := deref cur in
      if c =? dquote then
        let* (s, cur) := parse_string fuel' [] false (incr cur) in
        Ret (value_of_string s, cur)
      else if c =? "[" then
        let* (a, cur) := parse_array fuel' [] true false (incr cur) in
        Ret (value_of_array a, cur)
      else if c =? "{" then
        let* (o, cur) := parse_object fuel' [] [] false false (incr cur) in
        Ret (value_of_object o, cur)
      else if isdigit c || (c =? "-") then parse_number fuel' cur
      else if c =? "n" then
        let '(ok, cur) := match_rest (text "ull") cur in
        if ok then Ret (null_wrapper, cur)
        else Throw (text "bad json: null")
      else if c =? "t" then
        let '(ok, cur) := match_rest (text "rue") cur in
        if ok then Ret (value_of_bool true, cur)
        else Throw (text "bad json: " ++ [deref cur])
      else if c =? "f" then
        let '(ok, cur) := match_rest (text "alse") cur in
        if ok then Ret (value_of_bool false, cur)
        else Throw (text "bad json: false")
      else if is_whitespace c then
        let cur := incr cur in
        if neq_end cur then detail_parse fuel' cur
        else Throw (text "bad json")
      else Throw (text "bad json")
  end

with parse_array (fuel : nat) (rv : array) (accept has_elements : bool)
    (cur : I) : outcome (array * I) :=
  match fuel with
  | O => OutOfFuel
  | S fuel' =>
      if is_whitespace (deref cur) then
        let cur := incr cur in
        if neq_end cur then parse_array fuel' rv accept has_elements cur
        else Throw (text "bad array")
      else if (deref cur =? "]") && xorb has_elements accept then
        Ret (rv, cur)
      else if accept then
        let* (v, cur) := detail_parse fuel' cur in
        let cur := incr cur in
        if neq_end cur then parse_array fuel' (rv ++ [v]) false true cur
        else Throw (text "bad array")
      else if deref cur =? "," then
        let cur := incr cur in
        if neq_end cur then parse_array fuel' rv true has_elements cur
        else Throw (text "bad array")
      else Throw (text "bad array")
  end

with parse_object (fuel : nat) (rv : object) (key : str)
    (got_key got_elements : bool) (cur : I) : outcome (object * I) :=
  match fuel with
  | O => OutOfFuel
  | S fuel' =>
      if (deref cur =? "}") && negb got_key then Ret (rv, cur)
      else if is_whitespace (deref cur) then
        let cur := incr cur in
        if neq_end cur then parse_object fuel' rv key got_key got_elements cur
        else Throw (text "bad object")
      else if deref cur =? dquote then
        let* (key, cur) := parse_string fuel' [] false (incr cur) in
        let cur := incr cur in
        if neq_end cur then parse_object fuel' rv key true got_elements cur
        else Throw (text "bad object")
      else if got_key && (deref cur =? ":") then
        let* (v, cur) := detail_parse fuel' (incr cur) in
        let cur := incr cur in
        if neq_end cur then parse_object fuel' (map_assign key v rv) key false true cur
        else Throw (text "bad object")
      else if got_elements && negb got_key && (deref cur =? ",") then
        let cur := incr cur in
        if neq_end cur then parse_object fuel' rv key got_key got_elements cur
        else Throw (text "bad object")
      else Throw (text "bad object")
  end.

(** The loop after the value in the entry points:
    [while (++i != e) if (!is_whitespace( *i)) throw ...]. *)
Fixpoint skip_trailing (fuel : nat) (i : I) : outcome unit :=
  match fuel with
  | O => OutOfFuel
  | S fuel' =>
      let i := incr i in
      if neq_end i then
        if is_whitespace (deref i) then skip_trailing fuel' i
        else Throw (text "garbage at end of input: " ++ [deref i])
      else Ret tt
  end.

Definition parse_from (fuel : nat) (i : I) : outcome value :=
  let* (v, i) := detail_parse fuel i in
  let* _ := skip_trailing fuel i in
  Ret v.

End Parser.

Section EntryPoints.
Context {num : NumberOps}.

(** Enough fuel for a text of the given length (see [parse_total]). *)
Definition fuel_for (s : str) : nat := 2 * length s + 2.

(** [parse(string const&)]. *)
Definition parse (s : str) : outcome value :=
  parse_from (fuel_for s) (s : str).

(** [parse(std::basic_istream<char>&)] on a fresh stream holding [s]. *)
Definition istream_of (s : str) : istream :=
  {| unread := s; eofbit := false; failbit := false |}.

Definition parse_stream (s : str) : outcome value :=
  parse_from (fuel_for s) (iterator_of (istream_of s)).

End EntryPoints.

(** ** Reference renderings, used to state what the serializer prints *)

(** The strings of [l] with [sep] between neighbours. *)
Fixpoint joined (sep : str) (l : list str) : str :=
  match l with
  | [] => []
  | [x] => x
  | x :: l' => x ++ sep ++ joined sep l'
  end.

(** One entry of an object as it is printed. *)
Definition member_text {num : NumberOps} (kv : str * value) : str :=
  [dquote] ++ escape (fst kv) ++ dquote :: text ": " ++ json (snd kv).

(** An object text listing the given members in the given order. *)
Definition object_text {num : NumberOps} (members : list (str * value)) : str :=
  text "{" ++ joined (text ", ") (map member_text members) ++ text "}".

(** The value of the last member with the given key. *)
Definition last_assigned {V : Type} (key : str) (members : list (str * V))
  : option V :=
  option_map snd
    (find (fun kv => match key_compare (fst kv) key with Eq => true | _ => false end)
       (rev members)).

(** ** Predicates on cursors, results and values used in the statements *)

(** [within cur' cur]: the string cursor [cur'] is on a character, not
    further from the end than [cur]. *)
Definition within (cur' cur : str) : Prop :=
  cur' <> [] /\ length cur' <= length cur.

(** The string cursor on the last character of [t] in the text [t ++ rest]. *)
Definition cursor_at_last (t rest : str) : str :=
  skipn (length t - 1) (t ++ rest).

(** A fuel-indexed call that returns [a] whenever its fuel suffices. *)
Definition may_return {A : Type} (m : outcome A) (a : A) : Prop :=
  m = Ret a \/ m = OutOfFuel.

(** A text the number production takes whole: a digit or '-' followed by
    characters that keep it going. *)
Definition number_text (t : str) : bool :=
  match t with
  | [] => false
  | c :: t' => (isdigit c || (c =? "-")) && forallb number_char t'
  end.

Section ValuePredicates.
Context {num : NumberOps}.

(** A number survives printing and reading back. *)
Definition number_stable (d : number) : Prop :=
  number_text (insert_number d) = true
  /\ extract_number (insert_number d) = d.

Unset Elimination Schemes.
Inductive numbers_stable : value -> Prop :=
| stable_null : numbers_stable null_wrapper
| stable_bool b : numbers_stable (bool_wrapper b)
| stable_number d : number_stable d -> numbers_stable (number_wrapper d)
| stable_string s : numbers_stable (string_wrapper s)
| stable_array a : Forall numbers_stable a -> numbers_stable (array_wrapper a)
| stable_object o :
    Forall (fun kv => numbers_stable (snd kv)) o ->
    numbers_stable (object_wrapper o).

(** Every object inside the value is a [std::map]: keys strictly
    increasing. *)
Inductive sorted_value : value -> Prop :=
| sorted_null : sorted_value null_wrapper
| sorted_bool b : sorted_value (bool_wrapper b)
| sorted_number d : sorted_value (number_wrapper d)
| sorted_string s : sorted_value (string_wrapper s)
| sorted_array a : Forall sorted_value a -> sorted_value (array_wrapper a)
| sorted_object o :
    sorted_map o -> Forall (fun kv => sorted_value (snd kv)) o ->
    sorted_value (object_wrapper o).
Set Elimination Schemes.

(** Parsing the rendering of [v], whatever follows it, gives [v] back
    and leaves the cursor on the rendering's last character. *)
Definition reparses (v : value) : Prop :=
  forall (fuel : nat) (rest : str),
    number_char (hd NUL rest) = false ->
    may_return (detail_parse fuel (json v ++ rest))
      (v, cursor_at_last (json v) rest).
End ValuePredicates.

(** ** Well-formed JSON texts

    The grammar of RFC 8259, each text together with the value the
    parser is to return for it: a string's content is its body with the
    backslash of each escape dropped, a number is the conversion of its
    text, an object is the map its members build when assigned in
    order. *)

Definition whitespace (w : str) : Prop :=
  Forall (fun c => is_whitespace c = true) w.

Fixpoint skip_digits (s : str) : str :=
  match s with
  | c :: s' => if isdigit c then skip_digits s' else s
  | [] => []
  end.

(** One digit or more; what follows them. *)
Definition digits1 (s : str) : option str :=
  match s with
  | c :: s' => if isdigit c then Some (skip_digits s') else None
  | [] => None
  end.

(** [int = zero / ( digit1-9 *DIGIT )]. *)
Definition json_int (s : str) : option str :=
  match s with
  | c :: s' =>
      if c =? "0" then Some s'
      else if isdigit c then Some (skip_digits s')
      else None
  | [] => None
  end.

(** [[ frac ]], [frac = decimal-point 1*DIGIT]. *)
Definition json_frac (s : str) : option str :=
  match s with
  | c :: s' => if c =? "." then digits1 s' else Some s
  | [] => Some []
  end.

(** [[ exp ]], [exp = e [ minus / plus ] 1*DIGIT]. *)
Definition json_exp (s : str) : option str :=
  match s with
  | c :: s' =>
      if (c =? "e") || (c =? "E") then
        match s' with
        | d :: s'' => if (d =? "+") || (d =? "-") then digits1 s'' else digits1 s'
        | [] => None
        end
      else Some s
  | [] => Some []
  end.

(** [number = [ minus ] int [ frac ] [ exp ]]. *)
Definition is_json_number (s : str) : bool :=
  let s1 := match s with
            | c :: s' => if c =? "-" then s' else s
            | [] => []
            end in
  match json_int s1 with
  | Some s2 =>
      match json_frac s2 with
      | Some s3 => match json_exp s3 with Some [] => true | _ => false end
      | None => false
      end
  | None => false
  end.

(** A scanner that takes number characters only. *)
Definition takes_number_chars (f : str -> option str) : Prop :=
  forall s s', f s = Some s' ->
    exists p, s = p ++ s' /\ forallb number_char p = true.

Definition is_hex (c : ascii) : bool :=
  isdigit c
  || ((97 <=? nat_of_ascii c)%nat && (nat_of_ascii c <=? 102)%nat)
  || ((65 <=? nat_of_ascii c)%nat && (nat_of_ascii c <=? 70)%nat).

(** The characters that may follow a backslash, [u] apart. *)
Definition is_escape_char (c : ascii) : bool :=
  (c =? dquote) || (c =? backslash) || (c =? "/") || (c =? "b") || (c =? "f")
  || (c =? "n") || (c =? "r") || (c =? "t").

(** The body of a string between its quotes, and the content read. *)
Inductive string_body : str -> str -> Prop :=
| body_end : string_body [] []
| body_char c t s :
    (c =? dquote) = false -> (c =? backslash) = false ->
    32 <= nat_of_ascii c ->
    string_body t s -> string_body (c :: t) (c :: s)
| body_escape c t s :
    is_escape_char c = true ->
    string_body t s -> string_body (backslash :: c :: t) (c :: s)
| body_unicode h1 h2 h3 h4 t s :
    is_hex h1 = true -> is_hex h2 = true -> is_hex h3 = true -> is_hex h4 = true ->
    string_body t s ->
    string_body (backslash :: "u" :: h1 :: h2 :: h3 :: h4 :: t)
      ("u" :: h1 :: h2 :: h3 :: h4 :: s).

Section Grammar.
Context {num : NumberOps}.

Unset Elimination Schemes.
Inductive json_value : str -> value -> Prop :=
| jv_null : json_value (text "null") null_wrapper
| jv_true : json_value (text "true") (bool_wrapper true)
| jv_false : json_value (text "false") (bool_wrapper false)
| jv_number t :
    is_json_number t = true ->
    json_value t (number_wrapper (extract_number t))
| jv_string t s :
    string_body t s -> json_value (dquote :: t ++ [dquote]) (string_wrapper s)
| jv_array_empty w :
    whitespace w -> json_value ("[" :: w ++ ["]"]) (array_wrapper [])
| jv_array body a :
    json_elements body a -> json_value ("[" :: body ++ ["]"]) (array_wrapper a)
| jv_object_empty w :
    whitespace w -> json_value ("{" :: w ++ ["}"]) (object_wrapper [])
| jv_object body members :
    json_members body members ->
    json_value ("{" :: body ++ ["}"]) (object_wrapper (map_of members))

(** One value or more, separated by commas, whitespace around each. *)
with json_elements : str -> list value -> Prop :=
| je_last w1 t v w2 :
    whitespace w1 -> json_value t v -> whitespace w2 ->
    json_elements (w1 ++ t ++ w2) [v]
| je_more w1 t v w2 body a :
    whitespace w1 -> json_value t v -> whitespace w2 ->
    json_elements body a ->
    json_elements (w1 ++ t ++ w2 ++ "," :: body) (v :: a)

(** One member or more: a string, a colon, a value. *)
with json_members : str -> list (str * value) -> Prop :=
| jm_last w1 k key w2 w3 t v w4 :
    whitespace w1 -> string_body k key -> whitespace w2 ->
    whitespace w3 -> json_value t v -> whitespace w4 ->
    json_members (w1 ++ dquote :: k ++ dquote :: w2 ++ ":" :: w3 ++ t ++ w4)
      [(key, v)]
| jm_more w1 k key w2 w3 t v w4 body members :
    whitespace w1 -> string_body k key -> whitespace w2 ->
    whitespace w3 -> json_value t v -> whitespace w4 ->
    json_members body members ->
    json_members
      (w1 ++ dquote :: k ++ dquote :: w2 ++ ":" :: w3 ++ t ++ w4 ++ "," :: body)
      ((key, v) :: members).
Set Elimination Schemes.

Scheme json_value_mut := Minimality for json_value Sort Prop
  with json_elements_mut := Minimality for json_elements Sort Prop
  with json_members_mut := Minimality for json_members Sort Prop.

Combined Scheme json_grammar_ind
  from json_value_mut, json_elements_mut, json_members_mut.

(** [JSON-text = ws value ws]. *)
Definition json_text (t : str) (v : value) : Prop :=
  exists w1 body w2,
    t = w1 ++ body ++ w2
    /\ whitespace w1 /\ json_value body v /\ whitespace w2.

End Grammar.

(** ** Relating a string cursor and a stream iterator over the same text

    [live]: both stand on the same character, the stream is good and has
    the same characters left.  [peeked]: both stand on the last character
    and a [peek()] has already met the end of the stream.  [ended]: the
    string cursor is the end iterator and the last read of the stream
    failed. *)

Definition live (cur : str) (it : iterator) : Prop :=
  exists c rest,
    cur = c :: rest
    /\ it = {| stream := {| unread := rest; eofbit := false; failbit := false |};
               cur_val := c |}.

Definition peeked (cur : str) (it : iterator) : Prop :=
  exists c,
    cur = [c]
    /\ it = {| stream := {| unread := []; eofbit := true; failbit := false |};
               cur_val := c |}.

Definition ended (cur : str) (it : iterator) : Prop :=
  exists c,
    cur = []
    /\ it = {| stream := {| unread := []; eofbit := true; failbit := true |};
               cur_val := c |}.

Definition settled (cur : str) (it : iterator) : Prop := live cur it \/ ended cur it.

Definition sim (cur : str) (it : iterator) : Prop :=
  live cur it \/ peeked cur it \/ ended cur it.

(** ** IEEE binary64 numbers

    An instance of [NumberOps] for the usual platform: [double] is IEEE
    754 binary64, [io >> d] is the GNU [num_get] followed by a correctly
    rounded [strtod], and [ss << d] is the default stream format, that is
    [printf]'s [%g] at precision 6.  This models the C++ standard library,
    which is not part of the repository; the general results above do not
    depend on it. *)

Module Binary64.

Local Open Scope Z_scope.

Definition prec : Z := 53.
Definition emax : Z := 1024.

(** [DBL_MAX] with the given sign. *)
Definition max_float (neg : bool) : spec_float :=
  S754_finite neg 9007199254740991 971.

Definition digit_value (c : ascii) : Z := Z.of_nat (nat_of_ascii c) - 48.

(** The digits at the front of [s], accumulated onto [acc]; how many
    there were; what follows them. *)
Fixpoint take_digits (acc : Z) (n : Z) (s : str) : Z * Z * str :=
  match s with
  | c :: s' =>
      if isdigit c then take_digits (10 * acc + digit_value c) (n + 1) s'
      else (acc, n, s)
  | [] => (acc, n, [])
  end.

Definition take_sign (s : str) : bool * bool * str :=
  match s with
  | c :: s' =>
      if (c =? "-")%char then (true, true, s')
      else if (c =? "+")%char then (true, false, s')
      else (false, false, s)
  | [] => (false, false, [])
  end.

(** The decimal number [num_get] accumulates from the front of [s] when
    [strtod] accepts all of it: sign, digits, fraction digits counted by
    [scale], exponent.  [None] when the accumulated characters are not a
    complete number (no digit in the mantissa, or an exponent mark
    without exponent digits). *)
Definition scan_decimal (s : str) : option (bool * Z * Z) :=
  let '(_, neg, s) := take_sign s in
  let '(m, n1, s) := take_digits 0 0 s in
  let '(m, n2, s) :=
    match s with
    | c :: s' => if (c =? ".")%char then take_digits m 0 s' else (m, 0, s)
    | [] => (m, 0, s)
    end in
  if n1 + n2 =? 0 then None
  else
    match s with
    | c :: s' =>
        if (c =? "e")%char || (c =? "E")%char then
          let '(_, eneg, s') := take_sign s' in
          let '(e, n3, _) := take_digits 0 0 s' in
          if n3 =? 0 then None
          else Some (neg, m, (if eneg then - e else e) - n2)
        else Some (neg, m, - n2)
    | [] => Some (neg, m, - n2)
    end.

(** [m * 10^e10], rounded to the nearest binary64, ties to even; a
    result out of range becomes [DBL_MAX], as [num_get] stores it. *)
Definition round_decimal (neg : bool) (m e10 : Z) : spec_float :=
  if m =? 0 then S754_zero neg
  else
    let r :=
      if 0 <=? e10 then
        binary_normalize prec emax (cond_Zopp neg (m * 10 ^ e10)) 0 false
      else
        let '(q, e, l) := SFdiv_core_binary prec emax m 0 (10 ^ (- e10)) 0 in
        binary_round_aux prec emax neg q e l in
    match r with
    | S754_infinity s => max_float s
    | _ => r
    end.

(** [double d = 0; io >> d]. *)
Definition extract (s : str) : spec_float :=
  match scan_decimal s with
  | Some (neg, m, e10) => round_decimal neg m e10
  | None => S754_zero false
  end.

(** The number of decimal digits of a positive integer. *)
Fixpoint decimal_digits_fuel (fuel : nat) (n : Z) : Z :=
  match fuel with
  | O => 1
  | S fuel' => if n <? 10 then 1 else 1 + decimal_digits_fuel fuel' (n / 10)
  end.

Definition decimal_digits (n : Z) : Z :=
  decimal_digits_fuel (Z.to_nat (Z.log2 n)) n.

(** The exponent [x] with [10^x <= a / b < 10^(x+1)], for positive [a]
    and [b]. *)
Definition decimal_exponent (a b : Z) : Z :=
  let x := decimal_digits a - decimal_digits b in
  let above := if 0 <=? x then b * 10 ^ x <=? a else b <=? a * 10 ^ (- x) in
  if above then x else x - 1.

(** [a / b] rounded to the nearest integer, ties to even. *)
Definition round_quotient (a b : Z) : Z :=
  let q := a / b in
  let r := a mod b in
  match 2 * r ?= b with
  | Lt => q
  | Eq => if Z.even q then q else q + 1
  | Gt => q + 1
  end.

(** The six significant digits of [a / b] and its decimal exponent after
    rounding. *)
Definition six_digits (a b : Z) : Z * Z :=
  let x := decimal_exponent a b in
  let d :=
    if 5 <=? x then round_quotient a (b * 10 ^ (x - 5))
    else round_quotient (a * 10 ^ (5 - x)) b in
  if d =? 1000000 then (100000, x + 1) else (d, x).

Definition digit_char (d : Z) : ascii := ascii_of_nat (Z.to_nat (48 + d)).

(** The last [width] decimal digits of [n], most significant first. *)
Fixpoint digits_of (width : nat) (n : Z) : str :=
  match width with
  | O => []
  | S width' => digits_of width' (n / 10) ++ [digit_char (n mod 10)]
  end.

Fixpoint strip_zeros_rev (s : str) : str :=
  match s with
  | c :: s' => if (c =? "0")%char then strip_zeros_rev s' else s
  | [] => []
  end.

Definition strip_trailing_zeros (s : str) : str := rev (strip_zeros_rev (rev s)).

(** Digits before the point, then the point and the digits after it
    unless those are all zeros. *)
Definition with_fraction (int_part frac : str) : str :=
  match strip_trailing_zeros frac with
  | [] => int_part
  | frac' => int_part ++ "."%char :: frac'
  end.

(** [%g] at precision 6 of the positive number [a / b]. *)
Definition format_g (a b : Z) : str :=
  let '(d, x) := six_digits a b in
  let ds := digits_of 6 d in
  if (x <? -4) || (6 <=? x) then
    let ax := Z.abs x in
    with_fraction (firstn 1 ds) (skipn 1 ds)
      ++ "e"%char :: (if x <? 0 then "-"%char else "+"%char)
      :: (if ax <? 100 then digits_of 2 ax
          else digits_of (Z.to_nat (decimal_digits ax)) ax)
  else if x <? 0 then
    with_fraction (text "0") (repeat "0"%char (Z.to_nat (- x - 1)) ++ ds)
  else
    with_fraction (firstn (Z.to_nat (x + 1)) ds) (skipn (Z.to_nat (x + 1)) ds).

(** [ss << d]. *)
Definition insert (d : spec_float) : str :=
  match d with
  | S754_zero neg => if neg then text "-0" else text "0"
  | S754_infinity neg => if neg then text "-inf" else text "inf"
  | S754_nan => text "nan"
  | S754_finite neg m e =>
      (if neg then text "-" else [])
        ++ (if 0 <=? e then format_g (Zpos m * 2 ^ e) 1
            else format_g (Zpos m) (2 ^ (- e)))
  end.

(** [number(int)]. *)
Definition of_int (x : Z) : spec_float := binary_normalize prec emax x 0 false.

Definition ops : NumberOps := {|
  number := spec_float;
  number_of_int := of_int;
  extract_number := extract;
  insert_number := insert
|}.

End Binary64.

(** ** Handles and shared storage

    A [value] object holds a [std::shared_ptr] to a wrapper and the type
    tag; copying a [value] copies the pointer.  The store maps the
    locations pointed to onto the wrappers.  A [shared_ptr] keeps its
    target alive, so a handle in use always has its location in the
    store; outside the store the accessors give the answer of the base
    class. *)

Module Shared.
Section Store.
Context {num : NumberOps}.

Definition loc := positive.

Record value : Type := {
  _value : loc;
  _type : ValueType
}.

Inductive value_t : Type :=
| null_wrapper
| bool_wrapper (b : bool)
| number_wrapper (d : number)
| string_wrapper (s : str)
| array_wrapper (a : list value)
| object_wrapper (o : list (str * value)).

Abbreviation store := (gmap loc value_t).

(** [new wrapper(...)] held by a fresh [shared_ptr]. *)
Definition new_value (w : value_t) (t : ValueType) (st : store)
  : value * store :=
  let l := fresh (dom st) in
  ({| _value := l; _type := t |}, <[l := w]> st).

(** [value(array const& x)] and [value(object const& x)]: the wrapper
    holds a copy of the container. *)
Definition value_of_array (x : list value) (st : store) : value * store :=
  new_value (array_wrapper x) JSON_ARRAY st.
Definition value_of_object (x : list (str * value)) (st : store)
  : value * store :=
  new_value (object_wrapper x) JSON_OBJECT st.


Definition is_array (v : value) (st : store) : bool :=
  match st !! _value v with Some (array_wrapper _) => true | _ => false end.
Definition is_object (v : value) (st : store) : bool :=
  match st !! _value v with Some (object_wrapper _) => true | _ => false end.

(** Reading through the reference [get_array()] returns. *)
Definition get_array (v : value) (st : store) : outcome (list value) :=
  match st !! _value v with
  | Some (array_wrapper a) => Ret a
  | _ => Throw (text "invalid cast")
  end.
Definition get_object (v : value) (st : store) : outcome (list (str * value)) :=
  match st !! _value v with
  | Some (object_wrapper o) => Ret o
  | _ => Throw (text "invalid cast")
  end.

(** Writing through the reference [get_array()] returns: the container
    in the wrapper becomes [f] of what it was. *)
Definition modify_array (v : value) (f : list value -> list value)
    (st : store) : outcome store :=
  match st !! _value v with
  | Some (array_wrapper a) => Ret (<[_value v := array_wrapper (f a)]> st)
  | _ => Throw (text "invalid cast")
  end.
Definition modify_object (v : value)
    (f : list (str * value) -> list (str * value)) (st : store)
  : outcome store :=
  match st !! _value v with
  | Some (object_wrapper o) => Ret (<[_value v := object_wrapper (f o)]> st)
  | _ => Throw (text "invalid cast")
  end.

End Store.
End Shared.

(** The doubles 1.0, 2.5, 1234567.0 and 1234570.0. *)
Definition double_1 : spec_float := S754_finite false 4503599627370496 (-52).
Definition double_2_5 : spec_float := S754_finite false 5629499534213120 (-51).
Definition double_1234567 : spec_float := S754_finite false 5302424889720832 (-32).
Definition double_1234570 : spec_float := S754_finite false 5302437774622720 (-32).

(** ** Further predicates on cursors and results *)

(** [inside cur' cur]: the string cursor [cur'] stands on a character of
    the text [cur] starts. *)
Definition inside (cur' cur : str) : Prop :=
  cur' <> [] /\ exists pre, cur = pre ++ cur'.

(** A fuel-indexed call that ends in [o] whenever its fuel suffices. *)
Definition may_end {A : Type} (m : outcome A) (o : outcome A) : Prop :=
  m = o \/ m = OutOfFuel.

(** The stream iterator standing on [c] with [rest] unread. *)
Definition iterator_on (c : ascii) (rest : str) : iterator :=
  {| stream := {| unread := rest; eofbit := false; failbit := false |};
     cur_val := c |}.

(** Runs of whitespace and commas, and runs of whitespace and opening
    brackets. *)
Definition separators (s : str) : Prop :=
  Forall (fun c => is_whitespace c = true \/ c = ","%char) s.

Definition openings (s : str) : Prop :=
  Forall (fun c => is_whitespace c = true \/ c = "["%char) s.

(** ** Values the serializer prints as JSON texts of RFC 8259 *)

(** A string without control characters. *)
Definition plain (s : str) : Prop := Forall (fun c => 32 <= nat_of_ascii c) s.

Section Renderable.
Context {num : NumberOps}.

(** The numbers of the value print as JSON numbers that read back as
    themselves, its strings and keys hold no control character, its
    maps are ordered by key. *)
Unset Elimination Schemes.
Inductive renderable : value -> Prop :=
| renderable_null : renderable null_wrapper
| renderable_bool b : renderable (bool_wrapper b)
| renderable_number d :
    is_json_number (insert_number d) = true ->
    extract_number (insert_number d) = d ->
    renderable (number_wrapper d)
| renderable_string s : plain s -> renderable (string_wrapper s)
| renderable_array a : Forall renderable a -> renderable (array_wrapper a)
| renderable_object o :
    sorted_map o ->
    Forall (fun kv => plain (fst kv) /\ renderable (snd kv)) o ->
    renderable (object_wrapper o).
Set Elimination Schemes.

End Renderable.

(** * Properties *)

(** Case analysis on the call a [let*] starts with. *)
Ltac bind_inv H s c E :=
  match type of H with
  | bind ?m _ = _ =>
      destruct m as [[s c]| |] eqn:E; cbn [bind] in H; [|discriminate H..]
  end.

(** ** Escaping *)

Lemma unescape_escape_no_NUL (s : str) :
  Forall (fun c => c <> NUL) s -> unescape (escape s) = Some s.
Proof.
  induction 1 as [|c s Hc Hs IH]; [reflexivity|].
  cbn [escape].
  destruct ((c =? dquote) || (c =? backslash)) eqn:E.
  - cbn [app unescape].
    replace (backslash =? NUL) with false by reflexivity.
    replace (backslash =? backslash) with true by reflexivity.
    now rewrite IH.
  - cbn [app unescape].
    apply orb_false_elim in E as [_ E]. rewrite E.
    destruct (Ascii.eqb_spec c NUL) as [->|_]; [contradiction|].
    now rewrite IH.
Qed.

Lemma printable_not_NUL (c : ascii) : printable c -> c <> NUL.
Proof. unfold printable. intros [H _] ->. change (nat_of_ascii NUL) with 0 in H. lia. Qed.

(** C4: for every string [s] of printable ASCII characters (double quote
    and backslash included), [unescape (escape s)] is [s]. *)
Theorem unescape_escape (s : str) :
  Forall printable s -> unescape (escape s) = Some s.
Proof.
  intros H. apply unescape_escape_no_NUL.
  eapply Forall_impl; [exact H|]. intros c. apply printable_not_NUL.
Qed.

Lemma unescape_escape_witness :
  Forall printable (quoted "say 'hi' \ bye")
  /\ unescape (escape (quoted "say 'hi' \ bye")) = Some (quoted "say 'hi' \ bye").
Proof.
  assert (H : Forall printable (quoted "say 'hi' \ bye")).
  { repeat constructor; cbn; lia. }
  split; [exact H | exact (unescape_escape _ H)].
Defined.

(** ** The key order and the map operations *)

Lemma nat_of_ascii_inj (x y : ascii) : nat_of_ascii x = nat_of_ascii y -> x = y.
Proof.
  intros E. rewrite <- (ascii_nat_embedding x), <- (ascii_nat_embedding y).
  now rewrite E.
Qed.

Lemma key_compare_refl (a : str) : key_compare a a = Eq.
Proof. induction a as [|x a IH]; cbn; [|rewrite Nat.compare_refl]; auto. Qed.

Lemma key_compare_eq (a b : str) : key_compare a b = Eq -> a = b.
Proof.
  revert b. induction a as [|x a IH]; intros [|y b]; cbn; try easy.
  destruct (Nat.compare_spec (nat_of_ascii x) (nat_of_ascii y)) as [E| |];
    try easy.
  intros H. apply nat_of_ascii_inj in E. apply IH in H. congruence.
Qed.

Lemma key_compare_antisym (a b : str) :
  key_compare b a = CompOpp (key_compare a b).
Proof.
  revert b. induction a as [|x a IH]; intros [|y b]; cbn; try easy.
  rewrite (Nat.compare_antisym (nat_of_ascii x) (nat_of_ascii y)).
  destruct (nat_of_ascii x ?= nat_of_ascii y)%nat; cbn; auto.
Qed.

Lemma key_lt_trans (a b c : str) : key_lt a b -> key_lt b c -> key_lt a c.
Proof.
  unfold key_lt. revert b c.
  induction a as [|x a IH]; intros [|y b] [|z c]; cbn; try easy.
  destruct (Nat.compare_spec (nat_of_ascii x) (nat_of_ascii y)) as [E|L|G];
    try easy;
    destruct (Nat.compare_spec (nat_of_ascii y) (nat_of_ascii z)) as [E'|L'|G'];
    try easy; intros H1 H2.
  - rewrite E, E', Nat.compare_refl. eauto.
  - rewrite E. now apply Nat.compare_lt_iff in L' as ->.
  - rewrite <- E'. now apply Nat.compare_lt_iff in L as ->.
  - assert (L'' : (nat_of_ascii x < nat_of_ascii z)%nat) by lia.
    now apply Nat.compare_lt_iff in L'' as ->.
Qed.

Lemma key_lt_irrefl (a : str) : ~ key_lt a a.
Proof. unfold key_lt. now rewrite key_compare_refl. Qed.

Lemma key_compare_gt (a b : str) : key_compare a b = Gt -> key_lt b a.
Proof.
  unfold key_lt. intros H. now rewrite key_compare_antisym, H.
Qed.

Lemma map_assign_keys_bound {V : Type} (k0 key : str) (v : V) (m : list (str * V)) :
  key_lt k0 key -> Forall (key_lt k0) (keys m) ->
  Forall (key_lt k0) (keys (map_assign key v m)).
Proof.
  intros Hk. induction m as [|[k x] m IH]; cbn; intros H.
  - repeat constructor. exact Hk.
  - apply Forall_cons_1 in H as [H1 H2].
    destruct (key_compare key k); cbn; repeat constructor; auto.
Qed.

Lemma map_assign_sorted {V : Type} (key : str) (v : V) (m : list (str * V)) :
  sorted_map m -> sorted_map (map_assign key v m).
Proof.
  unfold sorted_map. induction m as [|[k x] m IH]; cbn; intros H.
  - repeat constructor.
  - apply StronglySorted_inv in H as [H1 H2].
    destruct (key_compare key k) eqn:E; cbn.
    + constructor; auto.
    + constructor; [constructor; auto|].
      constructor; [exact E|].
      eapply Forall_impl; [exact H2|]. intros k'. now apply key_lt_trans.
    + constructor; [auto|].
      apply map_assign_keys_bound; [now apply key_compare_gt | exact H2].
Qed.

Lemma map_of_snoc {V : Type} (kvs : list (str * V)) (k : str) (v : V) :
  map_of (kvs ++ [(k, v)]) = map_assign k v (map_of kvs).
Proof. unfold map_of. now rewrite fold_left_app. Qed.

Lemma fold_assign_sorted {V : Type} (kvs m : list (str * V)) :
  sorted_map m ->
  sorted_map (fold_left (fun m kv => map_assign (fst kv) (snd kv) m) kvs m).
Proof.
  revert m. induction kvs as [|[k v] kvs IH]; cbn; intros m H; [exact H|].
  apply IH. now apply map_assign_sorted.
Qed.

Lemma map_of_sorted {V : Type} (kvs : list (str * V)) : sorted_map (map_of kvs).
Proof. apply fold_assign_sorted. constructor. Qed.

(** Assigning a key above all the keys present appends the entry. *)
Lemma map_assign_last {V : Type} (key : str) (v : V) (m : list (str * V)) :
  Forall (fun k => key_lt k key) (keys m) -> map_assign key v m = m ++ [(key, v)].
Proof.
  induction m as [|[k x] m IH]; cbn; intros H; [reflexivity|].
  apply Forall_cons_1 in H as [H1 H2].
  rewrite key_compare_antisym. unfold key_lt in H1. rewrite H1. cbn.
  now rewrite IH.
Qed.

Lemma sorted_map_snoc {V : Type} (m : list (str * V)) (k : str) (v : V) :
  sorted_map (m ++ [(k, v)]) ->
  sorted_map m /\ Forall (fun k' => key_lt k' k) (keys m).
Proof.
  unfold sorted_map, keys. induction m as [|[k0 x] m IH]; cbn; intros H.
  - split; constructor.
  - apply StronglySorted_inv in H as [H1 H2].
    destruct (IH H1) as [IH1 IH2].
    rewrite map_app in H2. apply Forall_app in H2 as [H2 H3].
    split; [constructor; auto|].
    constructor; [|exact IH2]. now apply Forall_cons_1 in H3 as [H3 _].
Qed.

Lemma map_find_assign_same {V : Type} (key : str) (v : V) (m : list (str * V)) :
  map_find key (map_assign key v m) = Some v.
Proof.
  induction m as [|[k x] m IH]; cbn.
  - now rewrite key_compare_refl.
  - destruct (key_compare key k) eqn:E; cbn.
    + now rewrite E.
    + now rewrite key_compare_refl.
    + now rewrite E.
Qed.

Lemma map_find_assign_other {V : Type} (key k' : str) (v : V) (m : list (str * V)) :
  k' <> key -> map_find k' (map_assign key v m) = map_find k' m.
Proof.
  intros Hne. induction m as [|[k x] m IH]; cbn.
  - destruct (key_compare k' key) eqn:E; auto.
    now apply key_compare_eq in E.
  - destruct (key_compare key k) eqn:E; cbn.
    + apply key_compare_eq in E as <-.
      destruct (key_compare k' key) eqn:E'; auto.
      now apply key_compare_eq in E'.
    + destruct (key_compare k' key) eqn:E'; auto.
      now apply key_compare_eq in E'.
    + now rewrite IH.
Qed.

Lemma sorted_map_NoDup {V : Type} (m : list (str * V)) :
  sorted_map m -> NoDup (keys m).
Proof.
  unfold sorted_map. generalize (keys m) as l.
  induction 1 as [|k l Hs IH Hk]; constructor; auto.
  intros Hin. rewrite Forall_forall in Hk. apply Hk in Hin.
  now apply key_lt_irrefl in Hin.
Qed.

(** ** The serializer *)

Section Serializer.
Context {num : NumberOps}.

Lemma put_elements_joined {V : Type} (f : V -> str) (v : list V) (count : nat) :
  put_elements f (count + length v) v count = joined (text ", ") (map f v).
Proof.
  revert count. induction v as [|i v IH]; intros count; [reflexivity|].
  cbn [put_elements map length].
  replace (count + S (length v)) with (S count + length v) by lia.
  rewrite IH. destruct v as [|j v]; cbn [length map joined].
  - replace (S count <? S count + 0)%nat with false
      by (symmetry; apply Nat.ltb_ge; lia).
    cbn. now rewrite app_nil_r.
  - replace (S count <? S count + S (length v))%nat with true
      by (symmetry; apply Nat.ltb_lt; lia).
    reflexivity.
Qed.

Lemma put_members_joined (v : list (str * value)) (count : nat) :
  put_members json (count + length v) v count
  = joined (text ", ") (map member_text v).
Proof.
  revert count. induction v as [|i v IH]; intros count; [reflexivity|].
  cbn [put_members map length].
  replace (count + S (length v)) with (S count + length v) by lia.
  rewrite IH. unfold member_text at 1.
  destruct v as [|j v]; cbn [length map joined].
  - replace (S count <? S count + 0)%nat with false
      by (symmetry; apply Nat.ltb_ge; lia).
    cbn. rewrite app_nil_r. now rewrite <- !app_assoc.
  - replace (S count <? S count + S (length v))%nat with true
      by (symmetry; apply Nat.ltb_lt; lia).
    cbn. now rewrite <- !app_assoc.
Qed.

Lemma json_array (a : array) :
  json (array_wrapper a) = text "[" ++ joined (text ", ") (map json a) ++ text "]".
Proof.
  cbn [json]. unfold put_array.
  change (length a) with (0 + length a).
  now rewrite put_elements_joined.
Qed.

Lemma json_object (o : object) :
  json (object_wrapper o)
  = text "{" ++ joined (text ", ") (map member_text o) ++ text "}".
Proof.
  cbn [json]. unfold put_object.
  change (length o) with (0 + length o).
  now rewrite put_members_joined.
Qed.

(** C5: an object is printed as an opening brace, its entries
    [dquote escape(key) dquote ": " json(value)] joined by ", " in the
    order of the container, and a closing brace; the container holds
    its keys in strictly increasing order whatever the order of the
    assignments that built it; the empty object prints "{}" and the
    empty array "[]". *)
Theorem object_rendering :
  (forall o : object,
      json (object_wrapper o)
      = text "{" ++ joined (text ", ") (map member_text o) ++ text "}")
  /\ (forall kv : str * value,
      member_text kv
      = [dquote] ++ escape (fst kv) ++ [dquote] ++ text ": " ++ json (snd kv))
  /\ (forall kvs : list (str * value),
      StronglySorted key_lt (keys (map_of kvs)))
  /\ json (object_wrapper []) = text "{}"
  /\ json (array_wrapper []) = text "[]".
Proof.
  split; [exact json_object|].
  split; [reflexivity|].
  split; [exact map_of_sorted|].
  split; reflexivity.
Qed.

(** ** The accessors *)

(** C3: a value made from a number is not a string, [get_string] on it
    throws "invalid cast" and [get_number] returns the number stored;
    for each of the five variants the getter returns the payload exactly
    when the test answers [true] and throws "invalid cast" otherwise. *)
Theorem accessors_consistent :
  (forall x : number,
      is_string (value_of_double x) = false
      /\ get_string (value_of_double x) = Throw (text "invalid cast")
      /\ is_number (value_of_double x) = true
      /\ get_number (value_of_double x) = Ret x)
  /\ (forall n : Z,
      is_string (value_of_int n) = false
      /\ get_string (value_of_int n) = Throw (text "invalid cast")
      /\ get_number (value_of_int n) = Ret (number_of_int n))
  /\ (forall v : value,
      (if is_array v then exists a, get_array v = Ret a /\ v = array_wrapper a
       else get_array v = Throw (text "invalid cast"))
      /\ (if is_bool v then exists b, get_bool v = Ret b /\ v = bool_wrapper b
          else get_bool v = Throw (text "invalid cast"))
      /\ (if is_number v then exists d, get_number v = Ret d /\ v = number_wrapper d
          else get_number v = Throw (text "invalid cast"))
      /\ (if is_string v then exists s, get_string v = Ret s /\ v = string_wrapper s
          else get_string v = Throw (text "invalid cast"))
      /\ (if is_object v then exists o, get_object v = Ret o /\ v = object_wrapper o
          else get_object v = Throw (text "invalid cast"))
      /\ (is_null v = true <-> type v = JSON_NULL)).
Proof.
  split; [intros x; repeat split|].
  split; [intros n; repeat split|].
  intros v. destruct v; cbn; repeat split; eauto; discriminate.
Qed.

End Serializer.

(** ** The parser on strings: where the cursor stops, and termination *)

Section StringParser.
Context {num : NumberOps}.

(** One unfolding of each production. *)
Lemma detail_parse_S {I : Type} {iter : Iterator I} (fuel : nat) (cur : I) :
  detail_parse (S fuel) cur =
    let c := deref cur in
    if c =? dquote then
      let* (s, cur) := parse_string fuel [] false (incr cur) in
      Ret (value_of_string s, cur)
    else if c =? "[" then
      let* (a, cur) := parse_array fuel [] true false (incr cur) in
      Ret (value_of_array a, cur)
    else if c =? "{" then
      let* (o, cur) := parse_object fuel [] [] false false (incr cur) in
      Ret (value_of_object o, cur)
    else if isdigit c || (c =? "-") then parse_number fuel cur
    else if c =? "n" then
      let '(ok, cur) := match_rest (text "ull") cur in
      if ok then Ret (null_wrapper, cur)
      else Throw (text "bad json: null")
    else if c =? "t" then
      let '(ok, cur) := match_rest (text "rue") cur in
      if ok then Ret (value_of_bool true, cur)
      else Throw (text "bad json: " ++ [deref cur])
    else if c =? "f" then
      let '(ok, cur) := match_rest (text "alse") cur in
      if ok then Ret (value_of_bool false, cur)
      else Throw (text "bad json: false")
    else if is_whitespace c then
      let cur := incr cur in
      if neq_end cur then detail_parse fuel cur
      else Throw (text "bad json")
    else Throw (text "bad json").
Proof. reflexivity. Qed.

Lemma parse_array_S {I : Type} {iter : Iterator I} (fuel : nat) (rv : array)
    (accept has_elements : bool) (cur : I) :
  parse_array (S fuel) rv accept has_elements cur =
    if is_whitespace (deref cur) then
      let cur := incr cur in
      if neq_end cur then parse_array fuel rv accept has_elements cur
      else Throw (text "bad array")
    else if (deref cur =? "]") && xorb has_elements accept then
      Ret (rv, cur)
    else if accept then
      let* (v, cur) := detail_parse fuel cur in
      let cur := incr cur in
      if neq_end cur then parse_array fuel (rv ++ [v]) false true cur
      else Throw (text "bad array")
    else if deref cur =? "," then
      let cur := incr cur in
      if neq_end cur then parse_array fuel rv true has_elements cur
      else Throw (text "bad array")
    else Throw (text "bad array").
Proof. reflexivity. Qed.

Lemma parse_object_S {I : Type} {iter : Iterator I} (fuel : nat) (rv : object)
    (key : str) (got_key got_elements : bool) (cur : I) :
  parse_object (S fuel) rv key got_key got_elements cur =
    if (deref cur =? "}") && negb got_key then Ret (rv, cur)
    else if is_whitespace (deref cur) then
      let cur := incr cur in
      if neq_end cur then parse_object fuel rv key got_key got_elements cur
      else Throw (text "bad object")
    else if deref cur =? dquote then
      let* (key, cur) := parse_string fuel [] false (incr cur) in
      let cur := incr cur in
      if neq_end cur then parse_object fuel rv key true got_elements cur
      else Throw (text "bad object")
    else if got_key && (deref cur =? ":") then
      let* (v, cur) := detail_parse fuel (incr cur) in
      let cur := incr cur in
      if neq_end cur then parse_object fuel (map_assign key v rv) key false true cur
      else Throw (text "bad object")
    else if got_elements && negb got_key && (deref cur =? ",") then
      let cur := incr cur in
      if neq_end cur then parse_object fuel rv key got_key got_elements cur
      else Throw (text "bad object")
    else Throw (text "bad object").
Proof. reflexivity. Qed.

Lemma within_tl (cur' cur : str) : within cur' (tl cur) -> within cur' cur.
Proof.
  unfold within. intros [H1 H2]. split; [exact H1|].
  destruct cur; cbn in *; lia.
Qed.

Lemma within_trans (a b c : str) : within a b -> within b c -> within a c.
Proof. unfold within. intros [] []. split; [auto | lia]. Qed.

Lemma within_refl (c : ascii) (cur : str) : within (c :: cur) (c :: cur).
Proof. split; [discriminate | lia]. Qed.

Lemma parse_string_within (fuel : nat) (rv : str) (esc : bool) (cur : str)
    (s cur' : str) :
  parse_string fuel rv esc cur = Ret (s, cur') -> within cur' cur.
Proof.
  revert rv esc cur. induction fuel as [|fuel IH]; intros rv esc cur H;
    [discriminate|].
  cbn in H. destruct cur as [|c cur]; [discriminate|]. cbn in H.
  destruct ((c =? dquote) && negb esc).
  - injection H as _ <-. apply within_refl.
  - apply IH in H. now apply (within_tl cur' (c :: cur)).
Qed.

Lemma parse_number_loop_within (fuel : nat) (io : str) (cur : str)
    (s cur' : str) :
  cur <> [] ->
  parse_number_loop fuel io cur = Ret (s, cur') -> within cur' cur.
Proof.
  revert io cur. induction fuel as [|fuel IH]; intros io cur Hne H;
    [discriminate|].
  destruct cur as [|c [|d cur]]; [contradiction| |]; cbn in H.
  - injection H as _ <-. apply within_refl.
  - destruct (negb (number_char d)).
    + injection H as _ <-. apply within_refl.
    + apply IH in H; [|discriminate]. now apply (within_tl cur' (c :: d :: cur)).
Qed.

Lemma match_rest_within (lit : str) (cur cur' : str) :
  lit <> [] -> Forall (fun c => c <> NUL) lit ->
  match_rest lit cur = (true, cur') -> within cur' cur.
Proof.
  revert cur. induction lit as [|c lit IH]; intros cur Hne Hlit H;
    [contradiction|].
  apply Forall_cons_1 in Hlit as [Hc Hlit]. cbn in H.
  destruct (Ascii.eqb_spec (hd NUL (tl cur)) c) as [E|]; [|discriminate].
  assert (Hcur : within (tl cur) cur).
  { apply within_tl. destruct (tl cur) as [|x l]; [cbn in E; congruence|].
    apply within_refl. }
  destruct lit as [|d lit].
  - injection H as <-. exact Hcur.
  - apply IH in H; [|discriminate|exact Hlit].
    eapply within_trans; eassumption.
Qed.

Ltac literal_within H :=
  match type of H with
  | context [match ?m with pair _ _ => _ end] =>
      let ok := fresh "ok" in
      let c := fresh "c" in
      let E := fresh "E" in
      destruct m as [ok c] eqn:E;
      destruct ok; cbn beta iota in H; [|discriminate H];
      injection H as <- <-;
      apply match_rest_within in E;
      [exact E | discriminate | repeat constructor; discriminate]
  end.

Lemma parser_within (fuel : nat) :
  (forall cur v cur',
      detail_parse fuel cur = Ret (v, cur') -> within cur' cur)
  /\ (forall rv accept has_elements cur a cur',
      parse_array fuel rv accept has_elements cur = Ret (a, cur') ->
      within cur' cur)
  /\ (forall rv key got_key got_elements cur o cur',
      parse_object fuel rv key got_key got_elements cur = Ret (o, cur') ->
      within cur' cur).
Proof.
  induction fuel as [|fuel (IHp & IHa & IHo)];
    [repeat split; intros; discriminate|].
  assert (Hp : forall cur v cur',
             detail_parse (S fuel) cur = Ret (v, cur') -> within cur' cur).
  { intros cur v cur' H. rewrite detail_parse_S in H.
    destruct cur as [|c cur]; [cbn in H; discriminate|].
    cbn [deref incr neq_end string_iterator hd tl] in H. cbn zeta in H.
    destruct (c =? dquote).
    { bind_inv H s c' E.
      injection H as <- <-. apply parse_string_within in E.
      now apply (within_tl c' (c :: cur)). }
    destruct (c =? "[").
    { bind_inv H s c' E.
      injection H as <- <-. apply IHa in E.
      now apply (within_tl c' (c :: cur)). }
    destruct (c =? "{").
    { bind_inv H s c' E.
      injection H as <- <-. apply IHo in E.
      now apply (within_tl c' (c :: cur)). }
    destruct (isdigit c || (c =? "-")).
    { unfold parse_number in H.
      bind_inv H s c' E.
      injection H as <- <-.
      now apply parse_number_loop_within in E. }
    destruct (c =? "n"); [literal_within H|].
    destruct (c =? "t"); [literal_within H|].
    destruct (c =? "f"); [literal_within H|].
    destruct (is_whitespace c); [|discriminate].
    destruct cur as [|d cur]; [discriminate|].
    apply IHp in H. now apply (within_tl cur' (c :: d :: cur)). }
  split; [exact Hp|]. split.
  - intros rv accept has_elements cur a cur' H. rewrite parse_array_S in H.
    destruct cur as [|c cur].
    { cbn in H. destruct accept; [|discriminate].
      bind_inv H v c' E.
      apply IHp in E. destruct E as [_ E]. cbn in E.
      destruct c'; [discriminate | cbn in E; lia]. }
    cbn [deref incr neq_end string_iterator hd tl] in H. cbn zeta in H.
    destruct (is_whitespace c).
    { destruct cur as [|d cur]; [discriminate|].
      apply IHa in H. now apply (within_tl cur' (c :: d :: cur)). }
    destruct ((c =? "]") && xorb has_elements accept).
    { injection H as <- <-. apply within_refl. }
    destruct accept.
    { bind_inv H v c' E.
      cbn in H. apply IHp in E.
      destruct c' as [|x [|y c']]; [discriminate..|].
      apply IHa in H. eapply within_trans; [|exact E].
      now apply (within_tl cur' (x :: y :: c')). }
    destruct (c =? ","); [|discriminate].
    destruct cur as [|d cur]; [discriminate|].
    apply IHa in H. now apply (within_tl cur' (c :: d :: cur)).
  - intros rv key got_key got_elements cur o cur' H.
    rewrite parse_object_S in H.
    destruct cur as [|c cur].
    { cbn in H. now destruct got_key, got_elements. }
    cbn [deref incr neq_end string_iterator hd tl] in H. cbn zeta in H.
    destruct ((c =? "}") && negb got_key).
    { injection H as <- <-. apply within_refl. }
    destruct (is_whitespace c).
    { destruct cur as [|d cur]; [discriminate|].
      apply IHo in H. now apply (within_tl cur' (c :: d :: cur)). }
    destruct (c =? dquote).
    { bind_inv H s c' E.
      cbn in H. apply parse_string_within in E.
      destruct c' as [|x [|y c']]; [discriminate..|].
      apply IHo in H. apply (within_tl cur' (c :: cur)).
      eapply within_trans; [|exact E].
      now apply (within_tl cur' (x :: y :: c')). }
    destruct (got_key && (c =? ":")).
    { bind_inv H v c' E.
      cbn in H. apply IHp in E.
      destruct c' as [|x [|y c']]; [discriminate..|].
      apply IHo in H. apply (within_tl cur' (c :: cur)).
      eapply within_trans; [|exact E].
      now apply (within_tl cur' (x :: y :: c')). }
    destruct (got_elements && negb got_key && (c =? ",")); [|discriminate].
    destruct cur as [|d cur]; [discriminate|].
    apply IHo in H. now apply (within_tl cur' (c :: d :: cur)).
Qed.

(** *** Termination: the fuel the entry points pass is enough *)

Lemma parse_string_fuel (fuel : nat) (rv : str) (esc : bool) (cur : str) :
  length cur < fuel -> parse_string fuel rv esc cur <> OutOfFuel.
Proof.
  revert rv esc cur. induction fuel as [|fuel IH]; intros rv esc cur Hf; [lia|].
  destruct cur as [|c cur]; cbn; [discriminate|].
  destruct ((c =? dquote) && negb esc); [discriminate|].
  apply IH. cbn in Hf. lia.
Qed.

Lemma parse_number_loop_fuel (fuel : nat) (io : str) (cur : str) :
  cur <> [] -> length cur <= fuel -> parse_number_loop fuel io cur <> OutOfFuel.
Proof.
  revert io cur. induction fuel as [|fuel IH]; intros io cur Hne Hf.
  - destruct cur; [contradiction | cbn in Hf; lia].
  - destruct cur as [|c [|d cur]]; [contradiction| |]; cbn; [discriminate|].
    destruct (negb (number_char d)); [discriminate|].
    apply IH; [discriminate | cbn in *; lia].
Qed.

Ltac bind_fuel H s c E :=
  match type of H with
  | bind ?m _ = _ =>
      destruct m as [[s c]| |] eqn:E; cbn [bind] in H; [|discriminate H|]
  end.

Lemma parser_fuel (fuel : nat) :
  (forall cur,
      2 * length cur + 2 <= fuel -> detail_parse fuel cur <> OutOfFuel)
  /\ (forall rv accept has_elements cur,
      2 * length cur + 3 <= fuel ->
      parse_array fuel rv accept has_elements cur <> OutOfFuel)
  /\ (forall rv key got_key got_elements cur,
      2 * length cur + 3 <= fuel ->
      parse_object fuel rv key got_key got_elements cur <> OutOfFuel).
Proof.
  induction fuel as [|fuel (IHp & IHa & IHo)];
    [repeat split; intros; lia|].
  assert (Hp : forall cur,
             2 * length cur + 2 <= S fuel -> detail_parse (S fuel) cur <> OutOfFuel).
  { intros cur Hf H. rewrite detail_parse_S in H.
    destruct cur as [|c cur]; [cbn in H; discriminate|].
    cbn [length] in Hf.
    cbn [deref incr neq_end string_iterator hd tl] in H. cbn zeta in H.
    destruct (c =? dquote).
    { bind_fuel H s c' E; [discriminate|].
      apply parse_string_fuel in E; [exact E | lia]. }
    destruct (c =? "[").
    { bind_fuel H s c' E; [discriminate|]. apply IHa in E; [exact E | lia]. }
    destruct (c =? "{").
    { bind_fuel H s c' E; [discriminate|]. apply IHo in E; [exact E | lia]. }
    destruct (isdigit c || (c =? "-")).
    { unfold parse_number in H. bind_fuel H s c' E; [discriminate|].
      apply parse_number_loop_fuel in E; [exact E | discriminate | cbn; lia]. }
    destruct (c =? "n").
    { destruct (match_rest (text "ull") (c :: cur)) as [[] ?]; discriminate. }
    destruct (c =? "t").
    { destruct (match_rest (text "rue") (c :: cur)) as [[] ?]; discriminate. }
    destruct (c =? "f").
    { destruct (match_rest (text "alse") (c :: cur)) as [[] ?]; discriminate. }
    destruct (is_whitespace c); [|discriminate].
    destruct cur as [|d cur]; [discriminate|].
    apply IHp in H; [exact H | cbn [length] in *; lia]. }
  split; [exact Hp|]. split.
  - intros rv accept has_elements cur Hf H. rewrite parse_array_S in H.
    destruct (is_whitespace (deref cur)).
    { destruct cur as [|c [|d cur]]; [discriminate..|].
      cbn [deref incr neq_end string_iterator hd tl] in H. cbn zeta in H.
      apply IHa in H; [exact H | cbn [length] in *; lia]. }
    destruct ((deref cur =? "]") && xorb has_elements accept); [discriminate|].
    destruct accept.
    { bind_fuel H v c' E.
      - apply (proj1 (parser_within fuel)) in E as [Hne Hlen].
        destruct c' as [|x [|y c']]; [contradiction|discriminate|].
        cbn [deref incr neq_end string_iterator hd tl] in H. cbn zeta in H.
        apply IHa in H; [exact H | cbn [length] in *; lia].
      - apply IHp in E; [exact E | lia]. }
    destruct (deref cur =? ","); [|discriminate].
    destruct cur as [|c [|d cur]]; [discriminate..|].
    cbn [deref incr neq_end string_iterator hd tl] in H. cbn zeta in H.
    apply IHa in H; [exact H | cbn [length] in *; lia].
  - intros rv key got_key got_elements cur Hf H. rewrite parse_object_S in H.
    destruct ((deref cur =? "}") && negb got_key); [discriminate|].
    destruct (is_whitespace (deref cur)).
    { destruct cur as [|c [|d cur]]; [discriminate..|].
      cbn [deref incr neq_end string_iterator hd tl] in H. cbn zeta in H.
      apply IHo in H; [exact H | cbn [length] in *; lia]. }
    destruct (deref cur =? dquote).
    { bind_fuel H k c' E.
      - apply parse_string_within in E as [Hne Hlen].
        destruct c' as [|x [|y c']]; [contradiction|discriminate|].
        cbn [deref incr neq_end string_iterator hd tl] in H. cbn zeta in H.
        apply IHo in H; [exact H|].
        destruct cur; cbn [length tl incr string_iterator] in *; lia.
      - apply parse_string_fuel in E; [exact E|].
        destruct cur; cbn [length tl incr string_iterator] in *; lia. }
    destruct (got_key && (deref cur =? ":")).
    { bind_fuel H v c' E.
      - apply (proj1 (parser_within fuel)) in E as [Hne Hlen].
        destruct c' as [|x [|y c']]; [contradiction|discriminate|].
        cbn [deref incr neq_end string_iterator hd tl] in H. cbn zeta in H.
        apply IHo in H; [exact H|].
        destruct cur; cbn [length tl incr string_iterator] in *; lia.
      - apply IHp in E; [exact E|].
        destruct cur; cbn [length tl incr string_iterator] in *; lia. }
    destruct (got_elements && negb got_key && (deref cur =? ",")); [|discriminate].
    destruct cur as [|c [|d cur]]; [discriminate..|].
    cbn [deref incr neq_end string_iterator hd tl] in H. cbn zeta in H.
    apply IHo in H; [exact H | cbn [length] in *; lia].
Qed.

Lemma skip_trailing_fuel (fuel : nat) (i : str) :
  i <> [] -> length i <= fuel -> skip_trailing fuel i <> OutOfFuel.
Proof.
  revert i. induction fuel as [|fuel IH]; intros i Hne Hf.
  - destruct i; [contradiction | cbn in Hf; lia].
  - destruct i as [|c [|d i]]; [contradiction| |]; cbn; [discriminate|].
    destruct (is_whitespace d); [|discriminate].
    apply IH; [discriminate | cbn in *; lia].
Qed.

(** The string entry point always returns or throws. *)
Lemma parse_total (s : str) : parse s <> OutOfFuel.
Proof.
  unfold parse, parse_from, fuel_for. intros H.
  bind_fuel H v c' E.
  - apply (proj1 (parser_within _)) in E as [Hne Hlen].
    destruct (skip_trailing (2 * length s + 2) c') eqn:E'; [discriminate..|].
    apply skip_trailing_fuel in E'; [exact E' | exact Hne | lia].
  - apply (proj1 (parser_fuel _)) in E; [exact E | lia].
Qed.

End StringParser.

(** ** Strictness and the number production *)

Section Productions.
Context {num : NumberOps}.

(** C2: evaluating the string entry point on the four texts: the two
    array texts and the text with trailing garbage are rejected, the
    object text with a trailing comma is accepted. *)
Theorem strictness_checks :
  parse (quoted "[1,]") = Throw (text "bad json")
  /\ parse (quoted "[1 2]") = Throw (text "bad array")
  /\ parse (quoted "truex") = Throw (text "garbage at end of input: x")
  /\ parse (quoted "{'a':1,}")
     = Ret (object_wrapper [(text "a", number_wrapper (extract_number (text "1")))]).
Proof. repeat split; vm_compute; reflexivity. Qed.

Lemma number_start_not_other (c : ascii) :
  isdigit c || (c =? "-") = true ->
  (c =? dquote) = false /\ (c =? "[") = false /\ (c =? "{") = false.
Proof.
  destruct c as [[] [] [] [] [] [] [] []]; cbn; intros H;
    try discriminate H; repeat split.
Qed.

Lemma detail_parse_number_start {I : Type} {iter : Iterator I}
    (fuel : nat) (cur : I) :
  isdigit (deref cur) || (deref cur =? "-") = true ->
  detail_parse (S fuel) cur = parse_number fuel cur.
Proof.
  intros H. rewrite detail_parse_S. cbn zeta.
  destruct (number_start_not_other _ H) as (-> & -> & ->). now rewrite H.
Qed.

Lemma parse_number_loop_step (fuel : nat) (io : str) (c : ascii) (cur : str) :
  cur <> [] -> number_char (hd NUL cur) = true ->
  parse_number_loop (S fuel) io (c :: cur) = parse_number_loop fuel (io ++ [c]) cur.
Proof.
  intros Hne H. destruct cur as [|d cur]; [contradiction|].
  cbn in *. now rewrite H.
Qed.

Lemma parse_number_loop_scan (pre : str) (z : ascii) (rest io : str) (fuel : nat) :
  Forall (fun c => number_char c = true) (pre ++ [z]) ->
  number_char (hd NUL rest) = false ->
  length pre < fuel ->
  parse_number_loop fuel io (pre ++ z :: rest) = Ret (io ++ pre ++ [z], z :: rest).
Proof.
  revert io fuel. induction pre as [|c pre IH]; intros io fuel Hall Hrest Hf;
    (destruct fuel as [|fuel]; [lia|]).
  - cbn. now rewrite Hrest.
  - cbn [app] in *. apply Forall_cons_1 in Hall as [_ Hall].
    assert (Hnext : number_char (hd NUL (pre ++ z :: rest)) = true).
    { destruct pre; now apply Forall_cons_1 in Hall as [? _]. }
    rewrite parse_number_loop_step; [|now destruct pre|exact Hnext].
    rewrite IH; [|exact Hall|exact Hrest|cbn in Hf; lia].
    now rewrite <- app_assoc.
Qed.

(** C6: at a value start, a digit or '-' enters the number production;
    it takes the characters up to the first one that is followed by
    something other than a digit, '-', '.', 'e', 'E' or '+', leaves the
    cursor on the last character taken, and returns the conversion of
    the text taken, whatever that text is.  A text made of such
    characters only is accepted by [parse]; so are "--1" and "1.2.3". *)
Theorem number_production :
  (forall (pre : str) (z : ascii) (rest : str) (fuel : nat),
      isdigit (hd NUL (pre ++ [z])) || (hd NUL (pre ++ [z]) =? "-") = true ->
      Forall (fun c => number_char c = true) (pre ++ [z]) ->
      number_char (hd NUL rest) = false ->
      length pre + 1 < fuel ->
      detail_parse fuel ((pre ++ [z]) ++ rest)
      = Ret (number_wrapper (extract_number (pre ++ [z])), z :: rest))
  /\ (forall (pre : str) (z : ascii),
      isdigit (hd NUL (pre ++ [z])) || (hd NUL (pre ++ [z]) =? "-") = true ->
      Forall (fun c => number_char c = true) (pre ++ [z]) ->
      parse (pre ++ [z]) = Ret (number_wrapper (extract_number (pre ++ [z]))))
  /\ parse (text "--1") = Ret (number_wrapper (extract_number (text "--1")))
  /\ parse (text "1.2.3") = Ret (number_wrapper (extract_number (text "1.2.3"))).
Proof.
  assert (Hscan : forall (pre : str) (z : ascii) (rest : str) (fuel : nat),
    isdigit (hd NUL (pre ++ [z])) || (hd NUL (pre ++ [z]) =? "-") = true ->
    Forall (fun c => number_char c = true) (pre ++ [z]) ->
    number_char (hd NUL rest) = false ->
    length pre + 1 < fuel ->
    detail_parse fuel ((pre ++ [z]) ++ rest)
    = Ret (number_wrapper (extract_number (pre ++ [z])), z :: rest)).
  { intros pre z rest fuel Hstart Hall Hrest Hf.
    destruct fuel as [|fuel]; [lia|].
    rewrite detail_parse_number_start.
    - unfold parse_number. rewrite <- app_assoc. cbn [app].
      rewrite parse_number_loop_scan; [reflexivity|exact Hall|exact Hrest|lia].
    - cbn [deref string_iterator].
      destruct pre; cbn [app hd] in *; exact Hstart. }
  split; [exact Hscan|]. split; [|split; vm_compute; reflexivity].
  intros pre z Hstart Hall.
  unfold parse, parse_from, fuel_for.
  rewrite <- (app_nil_r (pre ++ [z])) at 2.
  rewrite Hscan; [|exact Hstart|exact Hall|reflexivity|].
  - cbn [bind]. rewrite length_app. cbn [length].
    replace (2 * (length pre + 1) + 2) with (S (2 * length pre + 3)) by lia.
    reflexivity.
  - rewrite length_app. cbn [length]. lia.
Qed.

End Productions.

(** ** Parsing what the serializer printed *)

Section RoundTrip.
Context {num : NumberOps}.

Lemma cursor_at_last_snoc (pre : str) (z : ascii) (rest : str) :
  cursor_at_last (pre ++ [z]) rest = z :: rest.
Proof.
  unfold cursor_at_last. rewrite length_app. cbn [length].
  replace (length pre + 1 - 1) with (length pre) by lia.
  rewrite <- app_assoc. now rewrite drop_app_length.
Qed.

Lemma snoc_of_nonempty (t : str) : t <> [] -> exists pre z, t = pre ++ [z].
Proof.
  intros H. destruct (exists_last H) as (pre & z & ->). eauto.
Qed.

Lemma tl_cursor_at_last (t rest : str) :
  t <> [] -> tl (cursor_at_last t rest) = rest.
Proof.
  intros H. destruct (snoc_of_nonempty t H) as (pre & z & ->).
  now rewrite cursor_at_last_snoc.
Qed.

Lemma may_return_bind {A B : Type} (m : outcome A) (a : A)
    (k : A -> outcome B) (b : B) :
  may_return m a -> may_return (k a) b -> may_return (bind m k) b.
Proof. intros [-> | ->] H; [exact H | now right]. Qed.

Lemma parse_string_escape (s rv rest : str) (fuel : nat) :
  may_return (parse_string fuel rv false (escape s ++ dquote :: rest))
    (rv ++ s, dquote :: rest).
Proof.
  revert rv fuel. induction s as [|c s IH]; intros rv fuel;
    (destruct fuel as [|fuel]; [now right|]).
  - left. cbn. now rewrite app_nil_r.
  - replace (rv ++ c :: s) with ((rv ++ [c]) ++ s) by now rewrite <- app_assoc.
    cbn [escape]. destruct ((c =? dquote) || (c =? backslash)) eqn:E.
    + destruct fuel as [|fuel]; [now right|].
      specialize (IH (rv ++ [c]) fuel).
      cbn. now rewrite !andb_false_r.
    + apply orb_false_elim in E as [E1 E2].
      specialize (IH (rv ++ [c]) fuel).
      cbn. now rewrite E1, E2.
Qed.

Lemma parse_number_loop_text (pre : str) (z : ascii) (rest io : str) (fuel : nat) :
  Forall (fun c => number_char c = true) (pre ++ [z]) ->
  number_char (hd NUL rest) = false ->
  may_return (parse_number_loop fuel io (pre ++ z :: rest))
    (io ++ pre ++ [z], z :: rest).
Proof.
  revert io fuel. induction pre as [|c pre IH]; intros io fuel Hall Hrest;
    (destruct fuel as [|fuel]; [now right|]).
  - left. cbn. now rewrite Hrest.
  - cbn [app] in *. apply Forall_cons_1 in Hall as [_ Hall].
    assert (Hnext : number_char (hd NUL (pre ++ z :: rest)) = true).
    { destruct pre; now apply Forall_cons_1 in Hall as [? _]. }
    rewrite parse_number_loop_step; [|now destruct pre|exact Hnext].
    replace (io ++ c :: pre ++ [z]) with ((io ++ [c]) ++ pre ++ [z])
      by now rewrite <- app_assoc.
    now apply IH.
Qed.

Lemma number_text_snoc (t : str) :
  number_text t = true ->
  exists pre z, t = pre ++ [z]
    /\ isdigit (hd NUL t) || (hd NUL t =? "-") = true
    /\ Forall (fun c => number_char c = true) t.
Proof.
  destruct t as [|c t]; [discriminate|]. cbn [number_text hd].
  intros H. apply andb_prop in H as [H1 H2].
  destruct (snoc_of_nonempty (c :: t)) as (pre & z & E); [discriminate|].
  exists pre, z. split; [exact E|]. split; [exact H1|].
  constructor.
  - unfold number_char. apply orb_prop in H1 as [-> | ->]; [reflexivity|].
    now rewrite orb_true_r.
  - apply Forall_forall. intros x Hx. rewrite forallb_forall in H2.
    apply H2. now apply list_elem_of_In.
Qed.

Lemma detail_parse_number_text (t rest : str) (fuel : nat) :
  number_text t = true -> number_char (hd NUL rest) = false ->
  may_return (detail_parse fuel (t ++ rest))
    (number_wrapper (extract_number t), cursor_at_last t rest).
Proof.
  intros Ht Hrest. destruct (number_text_snoc t Ht) as (pre & z & -> & Hs & Hall).
  destruct fuel as [|fuel]; [now right|].
  rewrite detail_parse_number_start.
  - unfold parse_number. rewrite cursor_at_last_snoc, <- app_assoc. cbn [app].
    eapply may_return_bind; [now apply parse_number_loop_text|].
    now left.
  - cbn [deref string_iterator]. destruct pre; exact Hs.
Qed.

(** What a rendering starts with. *)
Lemma number_start_not_space (c : ascii) :
  isdigit c || (c =? "-") = true ->
  is_whitespace c = false /\ (c =? "]") = false.
Proof.
  destruct c as [[] [] [] [] [] [] [] []]; cbn; intros H;
    try discriminate H; repeat split.
Qed.

Lemma json_head (v : value) :
  numbers_stable v ->
  json v <> []
  /\ is_whitespace (hd NUL (json v)) = false
  /\ (hd NUL (json v) =? "]") = false.
Proof.
  intros H. destruct v as [|[]|d|s|a|o]; try (cbn; now repeat split).
  inversion H as [| |? [Ht _]| | |]; subst. cbn [json].
  destruct (insert_number d) as [|c t]; [discriminate|].
  apply andb_prop in Ht as [Ht _].
  split; [discriminate|]. now apply number_start_not_space.
Qed.

Lemma hd_app_nonempty (t rest : str) : t <> [] -> hd NUL (t ++ rest) = hd NUL t.
Proof. now destruct t. Qed.

Lemma joined_map_cons {A : Type} (f : A -> str) (sep : str) (x : A) (l : list A) :
  joined sep (map f (x :: l)) = f x ++ flat_map (fun y => sep ++ f y) l.
Proof.
  revert x. induction l as [|y l IH]; intros x.
  - cbn. now rewrite app_nil_r.
  - change (joined sep (map f (x :: y :: l)))
      with (f x ++ sep ++ joined sep (map f (y :: l))).
    rewrite IH. cbn [flat_map]. now rewrite <- app_assoc.
Qed.

(** Single steps of the two loops on the separators the serializer
    prints. *)
Lemma parse_array_close (fuel : nat) (rv : array) (rest : str) :
  parse_array (S fuel) rv false true ("]" :: rest) = Ret (rv, "]" :: rest).
Proof. reflexivity. Qed.

Lemma parse_array_separator (fuel : nat) (rv : array) (cur : str) :
  cur <> [] ->
  parse_array (S (S fuel)) rv false true ("," :: " " :: cur)
  = parse_array fuel rv true true cur.
Proof. destruct cur; [contradiction | reflexivity]. Qed.

Lemma parse_object_close (fuel : nat) (rv : object) (key : str)
    (got_elements : bool) (rest : str) :
  parse_object (S fuel) rv key false got_elements ("}" :: rest)
  = Ret (rv, "}" :: rest).
Proof. reflexivity. Qed.

Lemma parse_object_separator (fuel : nat) (rv : object) (key : str) (cur : str) :
  cur <> [] ->
  parse_object (S (S fuel)) rv key false true ("," :: " " :: cur)
  = parse_object fuel rv key false true cur.
Proof. destruct cur; [contradiction | reflexivity]. Qed.

Lemma parse_object_key (fuel : nat) (rv : object) (key : str)
    (got_elements : bool) (cur : str) :
  parse_object (S fuel) rv key false got_elements (dquote :: cur)
  = let* (key, cur) := parse_string fuel [] false cur in
    if neq_end (tl cur) then parse_object fuel rv key true got_elements (tl cur)
    else Throw (text "bad object").
Proof. reflexivity. Qed.

Lemma parse_object_colon (fuel : nat) (rv : object) (key : str)
    (got_elements : bool) (cur : str) :
  cur <> [] ->
  parse_object (S (S fuel)) rv key true got_elements (":" :: " " :: cur)
  = let* (v, cur) := detail_parse fuel cur in
    if neq_end (tl cur) then parse_object (S fuel) (map_assign key v rv) key false true (tl cur)
    else Throw (text "bad object").
Proof. destruct cur; [contradiction | reflexivity]. Qed.

Lemma parse_array_element (fuel : nat) (rv : array) (has_elements : bool)
    (cur : str) :
  is_whitespace (hd NUL cur) = false -> (hd NUL cur =? "]") = false ->
  parse_array (S fuel) rv true has_elements cur
  = let* (v, cur) := detail_parse fuel cur in
    if neq_end (tl cur) then parse_array fuel (rv ++ [v]) false true (tl cur)
    else Throw (text "bad array").
Proof.
  intros Hws Hbr. rewrite parse_array_S. cbn [deref string_iterator].
  now rewrite Hws, Hbr.
Qed.

Lemma array_loop (a : array) :
  Forall reparses a -> Forall numbers_stable a ->
  forall (e : value) (rv : array) (has_elements : bool) (fuel : nat) (rest : str),
    reparses e -> numbers_stable e ->
    may_return
      (parse_array fuel rv true has_elements
         (json e ++ flat_map (fun x => text ", " ++ json x) a ++ "]" :: rest))
      (rv ++ e :: a, "]" :: rest).
Proof.
  induction a as [|e2 a IH]; intros Hr Hs e rv h fuel rest He Hse;
    (destruct fuel as [|fuel]; [now right|]);
    destruct (json_head e Hse) as (Hne & Hws & Hbr);
    (rewrite parse_array_element;
     [|now rewrite hd_app_nonempty|now rewrite hd_app_nonempty]).
  - cbn [flat_map app].
    eapply may_return_bind; [now apply He|].
    cbn beta iota. rewrite tl_cursor_at_last by exact Hne.
    cbn [neq_end string_iterator].
    destruct fuel as [|fuel]; [now right|]. now left.
  - apply Forall_cons_1 in Hr as [Hr2 Hr]. apply Forall_cons_1 in Hs as [Hs2 Hs].
    cbn [flat_map]. rewrite <- !app_assoc.
    change (text ", " ++ json e2 ++ flat_map (fun x => text ", " ++ json x) a ++ "]" :: rest)
      with ("," :: " " :: json e2 ++ flat_map (fun x => text ", " ++ json x) a ++ "]" :: rest).
    eapply may_return_bind; [now apply He|].
    cbn beta iota. rewrite tl_cursor_at_last by exact Hne.
    cbn [neq_end string_iterator].
    destruct fuel as [|[|fuel]]; [now right..|].
    rewrite parse_array_separator.
    + replace (rv ++ e :: e2 :: a) with ((rv ++ [e]) ++ e2 :: a)
        by now rewrite <- app_assoc.
      now apply IH.
    + destruct (json_head e2 Hs2) as (Hne2 & _). now destruct (json e2).
Qed.

Lemma member_text_app (k : str) (v : value) (rest : str) :
  member_text (k, v) ++ rest
  = dquote :: escape k ++ dquote :: ":" :: " " :: json v ++ rest.
Proof.
  unfold member_text. cbn [fst snd]. now rewrite <- !app_assoc.
Qed.

Lemma object_loop (o : object) :
  Forall (fun kv => reparses (snd kv)) o ->
  Forall (fun kv => numbers_stable (snd kv)) o ->
  forall (kv : str * value) (rv : object) (key : str) (got_elements : bool)
    (fuel : nat) (rest : str),
    reparses (snd kv) -> numbers_stable (snd kv) ->
    may_return
      (parse_object fuel rv key false got_elements
         (member_text kv ++ flat_map (fun x => text ", " ++ member_text x) o
            ++ "}" :: rest))
      (fold_left (fun m kv => map_assign (fst kv) (snd kv) m) (kv :: o) rv,
       "}" :: rest).
Proof.
  induction o as [|kv2 o IH]; intros Hr Hs [k v] rv key ge fuel rest Hv Hsv;
    cbn [fst snd] in Hv, Hsv;
    (destruct fuel as [|fuel]; [now right|]);
    destruct (json_head v Hsv) as (Hne & _);
    rewrite member_text_app, parse_object_key;
    (eapply may_return_bind; [apply parse_string_escape|]);
    cbn beta iota; cbn [tl app neq_end string_iterator];
    (destruct fuel as [|[|fuel]]; [now right..|]);
    (rewrite parse_object_colon; [|now destruct (json v)]).
  - cbn [flat_map app].
    eapply may_return_bind; [now apply Hv|].
    cbn beta iota. rewrite tl_cursor_at_last by exact Hne.
    cbn [neq_end string_iterator]. now left.
  - apply Forall_cons_1 in Hr as [Hr2 Hr]. apply Forall_cons_1 in Hs as [Hs2 Hs].
    cbn [flat_map]. rewrite <- !app_assoc.
    change (text ", " ++ member_text kv2
              ++ flat_map (fun x => text ", " ++ member_text x) o ++ "}" :: rest)
      with ("," :: " " :: member_text kv2
              ++ flat_map (fun x => text ", " ++ member_text x) o ++ "}" :: rest).
    eapply may_return_bind; [now apply Hv|].
    cbn beta iota. rewrite tl_cursor_at_last by exact Hne.
    cbn [neq_end string_iterator].
    destruct fuel as [|fuel]; [now right|].
    rewrite parse_object_separator; [|now destruct kv2].
    cbn [fold_left fst snd]. now apply IH.
Qed.

Lemma map_of_sorted_id {V : Type} (m : list (str * V)) :
  sorted_map m -> map_of m = m.
Proof.
  induction m as [|[k v] m IH] using rev_ind; intros H; [reflexivity|].
  apply sorted_map_snoc in H as [H1 H2].
  rewrite map_of_snoc, IH by exact H1. now apply map_assign_last.
Qed.

Lemma reparses_json (v : value) :
  numbers_stable v -> sorted_value v -> reparses v.
Proof.
  induction v as [|b|d|s|a IH|o IH] using value_ind;
    intros Hs Hw fuel rest Hrest.
  - destruct fuel as [|fuel]; [now right | now left].
  - destruct fuel as [|fuel]; [now right | left; now destruct b].
  - inversion Hs as [| |? [Ht Hd]| | |]; subst. cbn [json].
    rewrite <- Hd at 2. now apply detail_parse_number_text.
  - destruct fuel as [|fuel]; [now right|].
    change (json (string_wrapper s)) with ((dquote :: escape s) ++ [dquote]).
    rewrite cursor_at_last_snoc, <- app_assoc.
    change (detail_parse (S fuel) ((dquote :: escape s) ++ [dquote] ++ rest))
      with (let* (s, cur) := parse_string fuel [] false (escape s ++ dquote :: rest) in
            Ret (value_of_string s, cur)).
    eapply may_return_bind; [apply parse_string_escape|]. now left.
  - inversion Hs as [| | | |? Hsa|]; subst.
    inversion Hw as [| | | |? Hwa|]; subst.
    assert (Hra : Forall reparses a).
    { rewrite Forall_forall in *. auto. }
    destruct fuel as [|fuel]; [now right|].
    rewrite json_array.
    change (text "[" ++ joined (text ", ") (map json a) ++ text "]")
      with (("[" :: joined (text ", ") (map json a)) ++ ["]"]).
    rewrite cursor_at_last_snoc, <- app_assoc.
    change (detail_parse (S fuel)
              (("[" :: joined (text ", ") (map json a)) ++ ["]"] ++ rest))
      with (let* (a, cur) := parse_array fuel [] true false
                               (joined (text ", ") (map json a) ++ "]" :: rest) in
            Ret (value_of_array a, cur)).
    destruct a as [|e a].
    + destruct fuel as [|fuel]; [now right | now left].
    + rewrite joined_map_cons, <- app_assoc.
      apply Forall_cons_1 in Hra as [Hre Hra].
      apply Forall_cons_1 in Hsa as [Hse Hsa].
      eapply may_return_bind; [now apply (array_loop a Hra Hsa e [])|].
      now left.
  - inversion Hs as [| | | | |? Hso]; subst.
    inversion Hw as [| | | | |? Hm Hwo]; subst.
    assert (Hro : Forall (fun kv => reparses (snd kv)) o).
    { rewrite Forall_forall in *. auto. }
    destruct fuel as [|fuel]; [now right|].
    rewrite json_object.
    change (text "{" ++ joined (text ", ") (map member_text o) ++ text "}")
      with (("{" :: joined (text ", ") (map member_text o)) ++ ["}"]).
    rewrite cursor_at_last_snoc, <- app_assoc.
    change (detail_parse (S fuel)
              (("{" :: joined (text ", ") (map member_text o)) ++ ["}"] ++ rest))
      with (let* (o, cur) := parse_object fuel [] [] false false
                               (joined (text ", ") (map member_text o) ++ "}" :: rest) in
            Ret (value_of_object o, cur)).
    destruct o as [|kv o].
    + destruct fuel as [|fuel]; [now right | now left].
    + rewrite joined_map_cons, <- app_assoc.
      apply Forall_cons_1 in Hro as [Hre Hro].
      apply Forall_cons_1 in Hso as [Hse Hso].
      eapply may_return_bind;
        [now apply (object_loop o Hro Hso kv [] [] false)|].
      left. cbn beta iota. unfold value_of_object.
      change (fold_left (fun m kv => map_assign (fst kv) (snd kv) m) (kv :: o) [])
        with (map_of (kv :: o)).
      now rewrite map_of_sorted_id.
Qed.

(** From the production to the entry point. *)
Lemma parse_of_detail (t : str) (v : value) :
  t <> [] ->
  may_return (detail_parse (fuel_for t) t) (v, cursor_at_last t []) ->
  parse t = Ret v.
Proof.
  intros Hne H. pose proof (parse_total t) as Htot.
  unfold parse, parse_from in *.
  destruct H as [H | H]; rewrite H in *; [|contradiction].
  destruct (snoc_of_nonempty t Hne) as (pre & z & ->).
  rewrite cursor_at_last_snoc. cbn [bind]. unfold fuel_for.
  replace (2 * length (pre ++ [z]) + 2) with (S (2 * length (pre ++ [z]) + 1))
    by lia.
  reflexivity.
Qed.

Lemma json_nonempty (v : value) : numbers_stable v -> json v <> [].
Proof. intros H. now apply json_head. Qed.

(** *** What the parser builds *)

Lemma map_assign_Forall {V : Type} (P : V -> Prop) (key : str) (v : V)
    (m : list (str * V)) :
  P v -> Forall (fun kv => P (snd kv)) m ->
  Forall (fun kv => P (snd kv)) (map_assign key v m).
Proof.
  intros Hv. induction m as [|[k x] m IH]; cbn; intros H.
  - now repeat constructor.
  - apply Forall_cons_1 in H as [H1 H2].
    destruct (key_compare key k); repeat constructor; auto.
Qed.

Ltac literal_sorted H :=
  match type of H with
  | context [match ?m with pair _ _ => _ end] =>
      let ok := fresh "ok" in
      destruct m as [ok ?]; destruct ok; cbn beta iota in H; [|discriminate H];
      injection H as <- _; constructor
  end.

(** Every object of a parsed value has strictly increasing keys,
    whatever iterator the text came through. *)
Lemma parser_sorted {I : Type} {iter : Iterator I} (fuel : nat) :
  (forall (cur : I) v cur',
      detail_parse fuel cur = Ret (v, cur') -> sorted_value v)
  /\ (forall rv accept has_elements (cur : I) a cur',
      Forall sorted_value rv ->
      parse_array fuel rv accept has_elements cur = Ret (a, cur') ->
      Forall sorted_value a)
  /\ (forall rv key got_key got_elements (cur : I) o cur',
      sorted_map rv -> Forall (fun kv => sorted_value (snd kv)) rv ->
      parse_object fuel rv key got_key got_elements cur = Ret (o, cur') ->
      sorted_map o /\ Forall (fun kv => sorted_value (snd kv)) o).
Proof.
  induction fuel as [|fuel (IHp & IHa & IHo)];
    [repeat split; intros; discriminate|].
  split; [|split].
  - intros cur v cur' H. rewrite detail_parse_S in H. cbn zeta in H.
    destruct (deref cur =? dquote).
    { bind_inv H s c' E. injection H as <- _. constructor. }
    destruct (deref cur =? "[").
    { bind_inv H s c' E. injection H as <- _. constructor.
      eapply IHa; [|exact E]. constructor. }
    destruct (deref cur =? "{").
    { bind_inv H s c' E. injection H as <- _.
      eapply IHo in E as [E1 E2]; [now constructor|constructor|constructor]. }
    destruct (isdigit (deref cur) || (deref cur =? "-")).
    { unfold parse_number in H. bind_inv H s c' E. injection H as <- _.
      constructor. }
    destruct (deref cur =? "n"); [literal_sorted H|].
    destruct (deref cur =? "t"); [literal_sorted H|].
    destruct (deref cur =? "f"); [literal_sorted H|].
    destruct (is_whitespace (deref cur)); [|discriminate].
    destruct (neq_end (incr cur)); [|discriminate]. eauto.
  - intros rv accept has_elements cur a cur' Hrv H.
    rewrite parse_array_S in H. cbn zeta in H.
    destruct (is_whitespace (deref cur)).
    { destruct (neq_end (incr cur)); [|discriminate]. eauto. }
    destruct ((deref cur =? "]") && xorb has_elements accept).
    { now injection H as <- _. }
    destruct accept.
    { bind_inv H v c' E.
      destruct (neq_end (incr c')); [|discriminate].
      eapply IHa; [|exact H]. apply Forall_app. split; [exact Hrv|].
      repeat constructor. eauto. }
    destruct (deref cur =? ","); [|discriminate].
    destruct (neq_end (incr cur)); [|discriminate]. eauto.
  - intros rv key got_key got_elements cur o cur' Hm Hrv H.
    rewrite parse_object_S in H. cbn zeta in H.
    destruct ((deref cur =? "}") && negb got_key).
    { now injection H as <- _. }
    destruct (is_whitespace (deref cur)).
    { destruct (neq_end (incr cur)); [|discriminate]. eauto. }
    destruct (deref cur =? dquote).
    { bind_inv H k c' E.
      destruct (neq_end (incr c')); [|discriminate]. eauto. }
    destruct (got_key && (deref cur =? ":")).
    { bind_inv H v c' E.
      destruct (neq_end (incr c')); [|discriminate].
      eapply IHo; [| |exact H].
      - now apply map_assign_sorted.
      - apply map_assign_Forall; eauto. }
    destruct (got_elements && negb got_key && (deref cur =? ","));
      [|discriminate].
    destruct (neq_end (incr cur)); [|discriminate]. eauto.
Qed.

Lemma parse_sorted (t : str) (v : value) : parse t = Ret v -> sorted_value v.
Proof.
  unfold parse, parse_from. intros H. bind_inv H v' c' E.
  destruct (skip_trailing (fuel_for t) c'); [|discriminate..].
  injection H as <-. eapply (proj1 (parser_sorted (I:=str) _)). exact E.
Qed.

Lemma parse_json (v : value) :
  numbers_stable v -> sorted_value v -> parse (json v) = Ret v.
Proof.
  intros Hs Hw. apply parse_of_detail; [now apply json_nonempty|].
  rewrite <- (app_nil_r (json v)) at 2. now apply reparses_json.
Qed.

Lemma parse_json_of_parsed (t : str) (v : value) :
  parse t = Ret v -> numbers_stable v -> parse (json v) = Ret v.
Proof.
  intros H Hs. apply parse_json; [exact Hs|]. exact (parse_sorted t v H).
Qed.

(** *** Objects with repeated keys *)

Lemma map_find_map_of {V : Type} (key : str) (members : list (str * V)) :
  map_find key (map_of members) = last_assigned key members.
Proof.
  unfold last_assigned.
  induction members as [|[k v] ms IH] using rev_ind; [reflexivity|].
  rewrite map_of_snoc, rev_unit. cbn [find fst].
  destruct (key_compare k key) eqn:E.
  - apply key_compare_eq in E as ->. apply map_find_assign_same.
  - rewrite map_find_assign_other; [exact IH|].
    intros ->. now rewrite key_compare_refl in E.
  - rewrite map_find_assign_other; [exact IH|].
    intros ->. now rewrite key_compare_refl in E.
Qed.

Lemma parse_object_text (members : list (str * value)) :
  Forall (fun kv => numbers_stable (snd kv) /\ sorted_value (snd kv)) members ->
  parse (object_text members) = Ret (object_wrapper (map_of members)).
Proof.
  intros H. destruct members as [|kv o]; [reflexivity|].
  apply parse_of_detail; [discriminate|].
  assert (Hr : Forall (fun kv => reparses (snd kv)) (kv :: o)).
  { eapply Forall_impl; [exact H|]. intros x [? ?]. now apply reparses_json. }
  assert (Hs : Forall (fun kv => numbers_stable (snd kv)) (kv :: o)).
  { eapply Forall_impl; [exact H|]. now intros x [? ?]. }
  apply Forall_cons_1 in Hr as [Hre Hro]. apply Forall_cons_1 in Hs as [Hse Hso].
  generalize (fuel_for (object_text (kv :: o))). intros fuel.
  unfold object_text.
  change (text "{" ++ joined (text ", ") (map member_text (kv :: o)) ++ text "}")
    with (("{" :: joined (text ", ") (map member_text (kv :: o))) ++ ["}"]).
  rewrite cursor_at_last_snoc. rewrite joined_map_cons.
  destruct fuel as [|fuel]; [now right|].
  change (detail_parse (S fuel)
            (("{" :: member_text kv
                ++ flat_map (fun y => text ", " ++ member_text y) o) ++ ["}"]))
    with (let* (o, cur) := parse_object fuel [] [] false false
                             ((member_text kv
                                ++ flat_map (fun y => text ", " ++ member_text y) o)
                                ++ ["}"]) in
          Ret (value_of_object o, cur)).
  rewrite <- app_assoc.
  eapply may_return_bind;
    [now apply (object_loop o Hro Hso kv [] [] false)|].
  now left.
Qed.

End RoundTrip.

(** ** The stream entry point against the string entry point *)

Section Streams.
Context {num : NumberOps}.

Lemma settled_sim (cur : str) (it : iterator) : settled cur it -> sim cur it.
Proof. unfold settled, sim. tauto. Qed.

Lemma live_sim (cur : str) (it : iterator) : live cur it -> sim cur it.
Proof. unfold sim. tauto. Qed.

Lemma sim_incr (cur : str) (it : iterator) :
  sim cur it -> settled (incr cur) (incr it).
Proof.
  intros [(c & rest & -> & ->) | [(c & -> & ->) | (c & -> & ->)]].
  - destruct rest as [|d rest].
    + right. now exists c.
    + left. now exists d, rest.
  - right. now exists c.
  - right. now exists c.
Qed.

Lemma settled_neq_end (cur : str) (it : iterator) :
  settled cur it -> neq_end it = neq_end cur.
Proof. now intros [(c & rest & -> & ->) | (c & -> & ->)]. Qed.

Lemma settled_live (cur : str) (it : iterator) :
  settled cur it -> neq_end cur = true -> live cur it.
Proof. intros [H | (c & -> & ->)]; [trivial | discriminate]. Qed.

Lemma settled_nonempty (cur : str) (it : iterator) :
  settled cur it -> cur <> [] -> live cur it.
Proof. intros [H | (c & -> & ->)]; [trivial | contradiction]. Qed.

Lemma live_deref (cur : str) (it : iterator) :
  live cur it -> deref it = deref cur.
Proof. now intros (c & rest & -> & ->). Qed.

Lemma live_peek (cur : str) (it : iterator) :
  live cur it ->
  number_char (fst (peek it)) = number_char (fst (peek cur))
  /\ sim (snd (peek cur)) (snd (peek it))
  /\ (number_char (fst (peek cur)) = true ->
      live (snd (peek cur)) (snd (peek it))).
Proof.
  intros (c & [|d rest] & -> & ->); cbn.
  - split; [reflexivity|]. split; [|discriminate].
    right. left. now exists c.
  - split; [reflexivity|]. split; [left|intros _]; now exists c, (d :: rest).
Qed.

Lemma parse_string_sim (fuel : nat) (rv : str) (esc : bool) (cur : str)
    (it : iterator) (s cur' : str) :
  settled cur it ->
  parse_string fuel rv esc cur = Ret (s, cur') ->
  exists it', parse_string fuel rv esc it = Ret (s, it') /\ sim cur' it'.
Proof.
  revert rv esc cur it. induction fuel as [|fuel IH]; intros rv esc cur it Hs H;
    [discriminate|].
  cbn [parse_string] in *. rewrite (settled_neq_end _ _ Hs).
  destruct (neq_end cur) eqn:En; [|discriminate].
  pose proof (settled_live _ _ Hs En) as Hl.
  rewrite (live_deref _ _ Hl).
  destruct ((deref cur =? dquote) && negb esc).
  - injection H as <- <-. exists it. split; [reflexivity | now apply live_sim].
  - eapply IH; [|exact H]. now apply sim_incr, live_sim.
Qed.

Lemma parse_number_loop_sim (fuel : nat) (io : str) (cur : str)
    (it : iterator) (s cur' : str) :
  live cur it ->
  parse_number_loop fuel io cur = Ret (s, cur') ->
  exists it', parse_number_loop fuel io it = Ret (s, it') /\ sim cur' it'.
Proof.
  revert io cur it. induction fuel as [|fuel IH]; intros io cur it Hl H;
    [discriminate|].
  cbn [parse_number_loop] in *. rewrite (live_deref _ _ Hl).
  destruct (live_peek _ _ Hl) as (Hn & Hs & Hl').
  destruct (peek cur) as [next cur1]. destruct (peek it) as [next' it1].
  cbn [fst snd] in *. rewrite Hn.
  destruct (number_char next); cbn [negb] in *.
  - specialize (Hl' eq_refl).
    pose proof (sim_incr _ _ Hs) as Hs'.
    rewrite (settled_neq_end _ _ Hs').
    destruct (neq_end (incr cur1)) eqn:En.
    + eapply IH; [|exact H]. now apply settled_live.
    + injection H as <- <-. eexists. split; [reflexivity|].
      now apply settled_sim.
  - injection H as <- <-. eexists. split; [reflexivity | exact Hs].
Qed.

Lemma match_rest_sim (lit : str) (cur : str) (it : iterator) (cur' : str) :
  Forall (fun c => c <> NUL) lit -> sim cur it ->
  match_rest lit cur = (true, cur') ->
  exists it', match_rest lit it = (true, it') /\ sim cur' it'.
Proof.
  revert cur it. induction lit as [|c lit IH]; intros cur it Hlit Hs H.
  - injection H as <-. now exists it.
  - apply Forall_cons_1 in Hlit as [Hc Hlit]. cbn [match_rest] in *.
    pose proof (sim_incr _ _ Hs) as Hs'.
    destruct (Ascii.eqb_spec (deref (incr cur)) c) as [E|]; [|discriminate].
    assert (Hl : live (incr cur) (incr it)).
    { apply settled_nonempty; [exact Hs'|].
      intros E'. rewrite E' in E. cbn in E. congruence. }
    rewrite (live_deref _ _ Hl), E, Ascii.eqb_refl.
    eapply IH; [exact Hlit| |exact H]. now apply live_sim.
Qed.

Ltac literal_sim H :=
  match type of H with
  | context [match ?m with pair _ _ => _ end] =>
      let ok := fresh "ok" in
      let c := fresh "c" in
      let E := fresh "E" in
      let it' := fresh "it'" in
      let E' := fresh "E'" in
      let Hs' := fresh "Hs'" in
      destruct m as [ok c] eqn:E;
      destruct ok; cbn beta iota in H; [|discriminate H];
      injection H as <- <-;
      apply (match_rest_sim _ _ _ _) with (2 := live_sim _ _ ltac:(eassumption)) in E
        as (it' & E' & Hs');
      [rewrite E'; exists it'; split; [reflexivity | exact Hs']
      |repeat constructor; discriminate]
  end.

(** Continue a loop after [++cur != end] on both sides. *)
Ltac loop_sim H Hs IH :=
  let Hs' := fresh "Hs'" in
  pose proof (sim_incr _ _ Hs) as Hs';
  rewrite (settled_neq_end _ _ Hs');
  destruct (neq_end (incr _)) eqn:?; [|discriminate H];
  eapply IH; [exact Hs' | exact H].

Lemma parser_sim (fuel : nat) :
  (forall cur it v cur',
      settled cur it ->
      detail_parse fuel cur = Ret (v, cur') ->
      exists it', detail_parse fuel it = Ret (v, it') /\ sim cur' it')
  /\ (forall rv accept has_elements cur it a cur',
      settled cur it ->
      parse_array fuel rv accept has_elements cur = Ret (a, cur') ->
      exists it',
        parse_array fuel rv accept has_elements it = Ret (a, it') /\ sim cur' it')
  /\ (forall rv key got_key got_elements cur it o cur',
      settled cur it ->
      parse_object fuel rv key got_key got_elements cur = Ret (o, cur') ->
      exists it',
        parse_object fuel rv key got_key got_elements it = Ret (o, it')
        /\ sim cur' it').
Proof.
  induction fuel as [|fuel (IHp & IHa & IHo)];
    [repeat split; intros; discriminate|].
  split; [|split].
  - intros cur it v cur' Hs H.
    assert (Hl : live cur it).
    { apply settled_nonempty; [exact Hs|]. intros ->. discriminate H. }
    rewrite detail_parse_S in H. rewrite detail_parse_S. cbn zeta in *. rewrite (live_deref _ _ Hl).
    pose proof (live_sim _ _ Hl) as Hsim.
    destruct (deref cur =? dquote).
    { bind_inv H s c' E.
      apply parse_string_sim with (1 := sim_incr _ _ Hsim) in E as (it' & -> & Hs').
      injection H as <- <-. now exists it'. }
    destruct (deref cur =? "[").
    { bind_inv H s c' E.
      apply IHa with (1 := sim_incr _ _ Hsim) in E as (it' & -> & Hs').
      injection H as <- <-. now exists it'. }
    destruct (deref cur =? "{").
    { bind_inv H s c' E.
      apply IHo with (1 := sim_incr _ _ Hsim) in E as (it' & -> & Hs').
      injection H as <- <-. now exists it'. }
    destruct (isdigit (deref cur) || (deref cur =? "-")).
    { unfold parse_number in *. bind_inv H s c' E.
      apply parse_number_loop_sim with (1 := Hl) in E as (it' & -> & Hs').
      injection H as <- <-. now exists it'. }
    destruct (deref cur =? "n"); [literal_sim H|].
    destruct (deref cur =? "t"); [literal_sim H|].
    destruct (deref cur =? "f"); [literal_sim H|].
    destruct (is_whitespace (deref cur)); [|discriminate].
    loop_sim H Hsim IHp.
  - intros rv accept has_elements cur it a cur' Hs H.
    assert (Hl : live cur it).
    { apply settled_nonempty; [exact Hs|]. intros ->.
      apply (proj1 (proj2 (parser_within _))) in H as [Hne Hlen].
      destruct cur'; [contradiction | cbn in Hlen; lia]. }
    rewrite parse_array_S in H. rewrite parse_array_S. cbn zeta in *. rewrite (live_deref _ _ Hl).
    pose proof (live_sim _ _ Hl) as Hsim.
    destruct (is_whitespace (deref cur)); [loop_sim H Hsim IHa|].
    destruct ((deref cur =? "]") && xorb has_elements accept).
    { injection H as <- <-. now exists it. }
    destruct accept.
    { bind_inv H v c' E.
      apply IHp with (1 := Hs) in E as (it' & -> & Hs'). cbn [bind].
      loop_sim H Hs' IHa. }
    destruct (deref cur =? ","); [|discriminate].
    loop_sim H Hsim IHa.
  - intros rv key got_key got_elements cur it o cur' Hs H.
    assert (Hl : live cur it).
    { apply settled_nonempty; [exact Hs|]. intros ->.
      apply (proj2 (proj2 (parser_within _))) in H as [Hne Hlen].
      destruct cur'; [contradiction | cbn in Hlen; lia]. }
    rewrite parse_object_S in H. rewrite parse_object_S. cbn zeta in *. rewrite (live_deref _ _ Hl).
    pose proof (live_sim _ _ Hl) as Hsim.
    destruct ((deref cur =? "}") && negb got_key).
    { injection H as <- <-. now exists it. }
    destruct (is_whitespace (deref cur)); [loop_sim H Hsim IHo|].
    destruct (deref cur =? dquote).
    { bind_inv H k c' E.
      apply parse_string_sim with (1 := sim_incr _ _ Hsim) in E as (it' & -> & Hs').
      cbn [bind]. loop_sim H Hs' IHo. }
    destruct (got_key && (deref cur =? ":")).
    { bind_inv H v c' E.
      apply IHp with (1 := sim_incr _ _ Hsim) in E as (it' & -> & Hs').
      cbn [bind]. loop_sim H Hs' IHo. }
    destruct (got_elements && negb got_key && (deref cur =? ","));
      [|discriminate].
    loop_sim H Hsim IHo.
Qed.

Lemma skip_trailing_sim (fuel : nat) (i : str) (it : iterator) :
  sim i it ->
  skip_trailing fuel i = Ret tt -> skip_trailing fuel it = Ret tt.
Proof.
  revert i it. induction fuel as [|fuel IH]; intros i it Hs H; [discriminate|].
  cbn [skip_trailing] in *.
  pose proof (sim_incr _ _ Hs) as Hs'. rewrite (settled_neq_end _ _ Hs').
  destruct (neq_end (incr i)) eqn:En; [|reflexivity].
  pose proof (settled_live _ _ Hs' En) as Hl. rewrite (live_deref _ _ Hl).
  destruct (is_whitespace (deref (incr i))); [|discriminate].
  eapply IH; [|exact H]. now apply live_sim.
Qed.

(** The converse fails on a malformed text: at the end of the stream
    the iterator keeps its last character, so the truncated literal
    "nul" matches its own last letter again. *)
Remark stream_accepts_truncated_null :
  parse_stream (text "nul") = Ret null_wrapper
  /\ parse (text "nul") = Throw (text "bad json: null").
Proof. split; reflexivity. Qed.

Lemma iterator_of_settled (s : str) : settled s (iterator_of (istream_of s)).
Proof.
  destruct s as [|c s].
  - right. now exists EOF_char.
  - left. now exists c, s.
Qed.

Lemma parse_stream_of_parse (t : str) (v : value) :
  parse t = Ret v -> parse_stream t = Ret v.
Proof.
  unfold parse, parse_stream, parse_from. intros H.
  bind_inv H v' c' E.
  apply (proj1 (parser_sim _)) with (1 := iterator_of_settled t) in E
    as (it' & -> & Hs).
  cbn [bind].
  destruct (skip_trailing (fuel_for t) c') as [[]| |] eqn:E'; [|discriminate..].
  now rewrite (skip_trailing_sim _ _ _ Hs E').
Qed.

End Streams.

(** ** Copies of a value share its storage *)

Module SharedFacts.
Section Store.
Context {num : NumberOps}.
Import Shared.





(** A value built from the container another value holds has storage
    of its own: changing it leaves the first value as it was. *)
Lemma value_of_array_fresh (v : value) (a : list value)
    (f : list value -> list value) (st : gmap loc value_t) :
  get_array v st = Ret a ->
  let '(u, st1) := value_of_array a st in
  exists st2, modify_array u f st1 = Ret st2
              /\ get_array u st2 = Ret (f a)
              /\ get_array v st2 = Ret a.
Proof.
  unfold get_array, modify_array, value_of_array, new_value. cbn.
  intros H. rewrite lookup_insert_eq. eexists. split; [reflexivity|].
  rewrite lookup_insert_eq. split; [reflexivity|].
  destruct (st !! _value v) as [w|] eqn:E; [|discriminate H].
  assert (Hne : fresh (dom st) <> _value v).
  { intros Heq. pose proof (is_fresh (dom st)) as Hf. rewrite Heq in Hf.
    apply Hf. apply elem_of_dom. now exists w. }
  rewrite !lookup_insert_ne by exact Hne. now rewrite E.
Qed.

End Store.
End SharedFacts.

(** ** Every well-formed JSON text is accepted *)

Section WellFormed.
Context {num : NumberOps}.

Lemma whitespace_char (c : ascii) :
  is_whitespace c = true ->
  (c =? dquote) = false /\ (c =? "[") = false /\ (c =? "{") = false
  /\ isdigit c || (c =? "-") = false
  /\ (c =? "n") = false /\ (c =? "t") = false /\ (c =? "f") = false
  /\ (c =? "]") = false /\ (c =? "}") = false /\ (c =? ":") = false
  /\ (c =? ",") = false /\ number_char c = false.
Proof.
  destruct c as [[] [] [] [] [] [] [] []]; cbn; intros H;
    try discriminate H; repeat split.
Qed.

Lemma whitespace_head (w rest : str) (c : ascii) :
  whitespace w -> number_char c = false ->
  number_char (hd NUL (w ++ c :: rest)) = false.
Proof.
  intros Hw Hc. destruct w as [|x w]; [exact Hc|].
  apply Forall_cons_1 in Hw as [Hx _]. now apply whitespace_char in Hx.
Qed.

Lemma whitespace_head_end (w : str) :
  whitespace w -> number_char (hd NUL w) = false.
Proof.
  intros Hw. destruct w as [|x w]; [reflexivity|].
  apply Forall_cons_1 in Hw as [Hx _]. now apply whitespace_char in Hx.
Qed.

(** *** Skipping whitespace *)

Lemma detail_parse_ws_step (fuel : nat) (c : ascii) (cur : str) :
  is_whitespace c = true -> cur <> [] ->
  detail_parse (S fuel) (c :: cur) = detail_parse fuel cur.
Proof.
  intros Hc Hne. rewrite detail_parse_S. cbn zeta.
  cbn [deref incr neq_end string_iterator hd tl].
  destruct (whitespace_char c Hc) as (-> & -> & -> & -> & -> & -> & -> & _).
  rewrite Hc. now destruct cur.
Qed.

Lemma parse_array_ws_step (fuel : nat) (rv : array) (accept has_elements : bool)
    (c : ascii) (cur : str) :
  is_whitespace c = true -> cur <> [] ->
  parse_array (S fuel) rv accept has_elements (c :: cur)
  = parse_array fuel rv accept has_elements cur.
Proof.
  intros Hc Hne. rewrite parse_array_S.
  cbn [deref incr neq_end string_iterator hd tl].
  rewrite Hc. now destruct cur.
Qed.

Lemma parse_object_ws_step (fuel : nat) (rv : object) (key : str)
    (got_key got_elements : bool) (c : ascii) (cur : str) :
  is_whitespace c = true -> cur <> [] ->
  parse_object (S fuel) rv key got_key got_elements (c :: cur)
  = parse_object fuel rv key got_key got_elements cur.
Proof.
  intros Hc Hne. rewrite parse_object_S.
  cbn [deref incr neq_end string_iterator hd tl].
  destruct (whitespace_char c Hc) as (_ & _ & _ & _ & _ & _ & _ & _ & -> & _).
  rewrite Hc. now destruct cur.
Qed.

Lemma detail_parse_skip (w cur : str) (r : value * str) :
  whitespace w -> cur <> [] ->
  (forall fuel, may_return (detail_parse fuel cur) r) ->
  forall fuel, may_return (detail_parse fuel (w ++ cur)) r.
Proof.
  intros Hw Hne H. induction Hw as [|c w Hc Hw IH]; [exact H|].
  intros [|fuel]; [now right|]. cbn [app].
  rewrite detail_parse_ws_step; [apply IH | exact Hc | now destruct w, cur].
Qed.

Lemma parse_array_skip (w cur : str) (rv : array) (accept has_elements : bool)
    (r : array * str) :
  whitespace w -> cur <> [] ->
  (forall fuel, may_return (parse_array fuel rv accept has_elements cur) r) ->
  forall fuel,
    may_return (parse_array fuel rv accept has_elements (w ++ cur)) r.
Proof.
  intros Hw Hne H. induction Hw as [|c w Hc Hw IH]; [exact H|].
  intros [|fuel]; [now right|]. cbn [app].
  rewrite parse_array_ws_step; [apply IH | exact Hc | now destruct w, cur].
Qed.

Lemma parse_object_skip (w cur : str) (rv : object) (key : str)
    (got_key got_elements : bool) (r : object * str) :
  whitespace w -> cur <> [] ->
  (forall fuel,
      may_return (parse_object fuel rv key got_key got_elements cur) r) ->
  forall fuel,
    may_return (parse_object fuel rv key got_key got_elements (w ++ cur)) r.
Proof.
  intros Hw Hne H. induction Hw as [|c w Hc Hw IH]; [exact H|].
  intros [|fuel]; [now right|]. cbn [app].
  rewrite parse_object_ws_step; [apply IH | exact Hc | now destruct w, cur].
Qed.

(** *** Numbers *)

Lemma skip_digits_prefix (s : str) :
  exists p, s = p ++ skip_digits s /\ forallb number_char p = true.
Proof.
  induction s as [|c s (p & E & Hp)]; [now exists []|]. cbn.
  destruct (isdigit c) eqn:Ec.
  - exists (c :: p). cbn. unfold number_char at 1. rewrite Ec. cbn.
    split; [now rewrite <- E | exact Hp].
  - now exists [].
Qed.

Lemma digits1_takes : takes_number_chars digits1.
Proof.
  intros [|c s] s' H; [discriminate|]. cbn in H.
  destruct (isdigit c) eqn:Ec; [|discriminate]. injection H as <-.
  destruct (skip_digits_prefix s) as (p & E & Hp).
  exists (c :: p). cbn. unfold number_char at 1. rewrite Ec. cbn.
  split; [now rewrite <- E | exact Hp].
Qed.

Lemma json_int_takes : takes_number_chars json_int.
Proof.
  intros [|c s] s' H; [discriminate|]. cbn in H.
  destruct (Ascii.eqb_spec c "0") as [->|_].
  - injection H as <-. now exists ["0"].
  - now apply digits1_takes.
Qed.

Lemma json_frac_takes : takes_number_chars json_frac.
Proof.
  intros [|c s] s' H; cbn in H.
  - injection H as <-. now exists [].
  - destruct (Ascii.eqb_spec c ".") as [->|_].
    + apply digits1_takes in H as (p & -> & Hp). now exists ("." :: p).
    + injection H as <-. now exists [].
Qed.

Lemma json_exp_takes : takes_number_chars json_exp.
Proof.
  intros [|c s] s' H; cbn in H.
  - injection H as <-. now exists [].
  - destruct ((c =? "e") || (c =? "E")) eqn:Ec.
    + assert (Hc : number_char c = true).
      { unfold number_char. apply orb_prop in Ec as [-> | ->];
          now rewrite ?orb_true_r. }
      destruct s as [|d s]; [discriminate|].
      destruct ((d =? "+") || (d =? "-")) eqn:Ed.
      * assert (Hd : number_char d = true).
        { unfold number_char. apply orb_prop in Ed as [-> | ->];
            now rewrite ?orb_true_r. }
        apply digits1_takes in H as (p & -> & Hp).
        exists (c :: d :: p). cbn. now rewrite Hc, Hd.
      * apply digits1_takes in H as (p & E & Hp).
        exists (c :: p). cbn. rewrite Hc. split; [now rewrite <- E | exact Hp].
    + injection H as <-. now exists [].
Qed.

Lemma json_int_head (s s' : str) :
  json_int s = Some s' -> isdigit (hd NUL s) = true.
Proof.
  destruct s as [|c s]; [discriminate|]. cbn.
  destruct (Ascii.eqb_spec c "0") as [->|_]; [reflexivity|].
  now destruct (isdigit c).
Qed.

Lemma json_unsigned_text (s : str) :
  match json_int s with
  | Some s2 =>
      match json_frac s2 with
      | Some s3 => match json_exp s3 with Some [] => true | _ => false end
      | None => false
      end
  | None => false
  end = true ->
  isdigit (hd NUL s) = true /\ forallb number_char s = true.
Proof.
  intros H.
  destruct (json_int s) as [s2|] eqn:E1; [|discriminate].
  destruct (json_frac s2) as [s3|] eqn:E2; [|discriminate].
  destruct (json_exp s3) as [[|]|] eqn:E3; try discriminate.
  split; [exact (json_int_head _ _ E1)|].
  apply json_int_takes in E1 as (p1 & -> & H1).
  apply json_frac_takes in E2 as (p2 & -> & H2).
  apply json_exp_takes in E3 as (p3 & -> & H3).
  rewrite !forallb_app. now rewrite H1, H2, H3.
Qed.

Lemma json_number_text (t : str) : is_json_number t = true -> number_text t = true.
Proof.
  unfold is_json_number. destruct t as [|c t]; [discriminate|].
  destruct (Ascii.eqb_spec c "-") as [->|Hc]; intros H;
    apply json_unsigned_text in H as [Hd Hall].
  - cbn. exact Hall.
  - cbn in *. apply andb_prop in Hall as [_ Hall]. now rewrite Hd, Hall.
Qed.

(** *** Strings *)

Lemma parse_string_char (fuel : nat) (rv : str) (c : ascii) (cur : str) :
  (c =? dquote) = false -> (c =? backslash) = false ->
  parse_string (S fuel) rv false (c :: cur)
  = parse_string fuel (rv ++ [c]) false cur.
Proof. intros H1 H2. cbn. now rewrite H1, H2. Qed.

Lemma parse_string_escaped (fuel : nat) (rv : str) (c : ascii) (cur : str) :
  parse_string (S (S fuel)) rv false (backslash :: c :: cur)
  = parse_string fuel (rv ++ [c]) false cur.
Proof. cbn. now rewrite !andb_false_r. Qed.

Lemma hex_not_special (h : ascii) :
  is_hex h = true -> (h =? dquote) = false /\ (h =? backslash) = false.
Proof.
  destruct h as [[] [] [] [] [] [] [] []]; cbn; intros H;
    try discriminate H; split; reflexivity.
Qed.

Lemma snoc_app (rv : str) (c : ascii) (s : str) : rv ++ c :: s = (rv ++ [c]) ++ s.
Proof. now rewrite <- app_assoc. Qed.

Lemma snoc_app_list {A : Type} (l : list A) (x : A) (k : list A) :
  l ++ x :: k = (l ++ [x]) ++ k.
Proof. now rewrite <- app_assoc. Qed.

Lemma string_body_parse (t s : str) :
  string_body t s ->
  forall (rv rest : str) (fuel : nat),
    may_return (parse_string fuel rv false (t ++ dquote :: rest))
      (rv ++ s, dquote :: rest).
Proof.
  induction 1 as [|c t s H1 H2 _ _ IH|c t s _ _ IH
                 |h1 h2 h3 h4 t s Hh1 Hh2 Hh3 Hh4 _ IH];
    intros rv rest fuel.
  - destruct fuel as [|fuel]; [now right|]. left. cbn. now rewrite app_nil_r.
  - destruct fuel as [|fuel]; [now right|]. cbn [app].
    rewrite parse_string_char, (snoc_app rv c s) by assumption. apply IH.
  - destruct fuel as [|[|fuel]]; [now right..|]. cbn [app].
    rewrite parse_string_escaped, (snoc_app rv c s). apply IH.
  - destruct fuel as [|[|fuel]]; [now right..|]. cbn [app].
    rewrite parse_string_escaped.
    replace (rv ++ "u" :: h1 :: h2 :: h3 :: h4 :: s)
      with ((((((rv ++ ["u"]) ++ [h1]) ++ [h2]) ++ [h3]) ++ [h4]) ++ s)
      by now rewrite <- !app_assoc.
    apply hex_not_special in Hh1 as [? ?]. apply hex_not_special in Hh2 as [? ?].
    apply hex_not_special in Hh3 as [? ?]. apply hex_not_special in Hh4 as [? ?].
    do 4 (destruct fuel as [|fuel]; [now right|];
          rewrite parse_string_char by assumption).
    apply IH.
Qed.

(** *** Values *)

Lemma json_value_head (t : str) (v : value) :
  json_value t v ->
  t <> []
  /\ is_whitespace (hd NUL t) = false
  /\ (hd NUL t =? "]") = false.
Proof.
  destruct 1 as [| | |t Ht| | | | |]; try (cbn; now repeat split).
  apply json_number_text in Ht. destruct t as [|c t]; [discriminate|].
  apply andb_prop in Ht as [Ht _].
  split; [discriminate|]. now apply number_start_not_space.
Qed.

Lemma neq_end_nonempty (cur : str) : cur <> [] -> neq_end cur = true.
Proof. now destruct cur. Qed.

Lemma detail_parse_string (fuel : nat) (cur : str) :
  detail_parse (S fuel) (dquote :: cur)
  = let* (s, cur) := parse_string fuel [] false cur in
    Ret (value_of_string s, cur).
Proof. reflexivity. Qed.

Lemma detail_parse_array (fuel : nat) (cur : str) :
  detail_parse (S fuel) ("[" :: cur)
  = let* (a, cur) := parse_array fuel [] true false cur in
    Ret (value_of_array a, cur).
Proof. reflexivity. Qed.

Lemma detail_parse_object (fuel : nat) (cur : str) :
  detail_parse (S fuel) ("{" :: cur)
  = let* (o, cur) := parse_object fuel [] [] false false cur in
    Ret (value_of_object o, cur).
Proof. reflexivity. Qed.

(** *** The array loop *)

Lemma array_after_last (w2 : str) (rv : array) (rest : str) :
  whitespace w2 ->
  forall fuel,
    may_return (parse_array fuel rv false true (w2 ++ "]" :: rest))
      (rv, "]" :: rest).
Proof.
  intros Hw. apply parse_array_skip; [exact Hw|discriminate|].
  intros [|fuel]; [now right | now left].
Qed.

Lemma parse_array_comma (fuel : nat) (rv : array) (cur : str) :
  cur <> [] ->
  parse_array (S fuel) rv false true ("," :: cur)
  = parse_array fuel rv true true cur.
Proof. destruct cur; [contradiction | reflexivity]. Qed.

Lemma array_after_more (w2 cur : str) (rv : array) (r : array * str) :
  whitespace w2 -> cur <> [] ->
  (forall fuel, may_return (parse_array fuel rv true true cur) r) ->
  forall fuel, may_return (parse_array fuel rv false true (w2 ++ "," :: cur)) r.
Proof.
  intros Hw Hne H. apply parse_array_skip; [exact Hw|discriminate|].
  intros [|fuel]; [now right|]. rewrite parse_array_comma by exact Hne. apply H.
Qed.

Lemma array_element (t : str) (v : value) (tail : str) (rv : array)
    (has_elements : bool) (r : array * str) :
  json_value t v ->
  (forall fuel rest,
      number_char (hd NUL rest) = false ->
      may_return (detail_parse fuel (t ++ rest)) (v, cursor_at_last t rest)) ->
  number_char (hd NUL tail) = false -> tail <> [] ->
  (forall fuel, may_return (parse_array fuel (rv ++ [v]) false true tail) r) ->
  forall fuel,
    may_return (parse_array fuel rv true has_elements (t ++ tail)) r.
Proof.
  intros Hv Hp Htail Hne H [|fuel]; [now right|].
  destruct (json_value_head t v Hv) as (Ht & Hws & Hbr).
  rewrite parse_array_element by now rewrite hd_app_nonempty.
  eapply may_return_bind; [now apply Hp|].
  cbn beta iota. rewrite tl_cursor_at_last by exact Ht.
  rewrite neq_end_nonempty by exact Hne. apply H.
Qed.

(** *** The object loop *)

Lemma object_after_last (w4 : str) (rv : object) (key : str) (rest : str) :
  whitespace w4 ->
  forall fuel,
    may_return (parse_object fuel rv key false true (w4 ++ "}" :: rest))
      (rv, "}" :: rest).
Proof.
  intros Hw. apply parse_object_skip; [exact Hw|discriminate|].
  intros [|fuel]; [now right | now left].
Qed.

Lemma parse_object_comma (fuel : nat) (rv : object) (key : str) (cur : str) :
  cur <> [] ->
  parse_object (S fuel) rv key false true ("," :: cur)
  = parse_object fuel rv key false true cur.
Proof. destruct cur; [contradiction | reflexivity]. Qed.

Lemma object_after_more (w4 cur : str) (rv : object) (key : str)
    (r : object * str) :
  whitespace w4 -> cur <> [] ->
  (forall fuel, may_return (parse_object fuel rv key false true cur) r) ->
  forall fuel,
    may_return (parse_object fuel rv key false true (w4 ++ "," :: cur)) r.
Proof.
  intros Hw Hne H. apply parse_object_skip; [exact Hw|discriminate|].
  intros [|fuel]; [now right|]. rewrite parse_object_comma by exact Hne. apply H.
Qed.

Lemma parse_object_value (fuel : nat) (rv : object) (key : str)
    (got_elements : bool) (cur : str) :
  parse_object (S fuel) rv key true got_elements (":" :: cur)
  = let* (v, cur) := detail_parse fuel cur in
    if neq_end (tl cur)
    then parse_object fuel (map_assign key v rv) key false true (tl cur)
    else Throw (text "bad object").
Proof. reflexivity. Qed.

Lemma object_member (w2 w3 k key t : str) (v : value) (tail : str)
    (rv : object) (key0 : str) (got_elements : bool) (r : object * str) :
  string_body k key -> whitespace w2 -> whitespace w3 ->
  json_value t v ->
  (forall fuel rest,
      number_char (hd NUL rest) = false ->
      may_return (detail_parse fuel (t ++ rest)) (v, cursor_at_last t rest)) ->
  number_char (hd NUL tail) = false -> tail <> [] ->
  (forall fuel,
      may_return (parse_object fuel (map_assign key v rv) key false true tail) r) ->
  forall fuel,
    may_return
      (parse_object fuel rv key0 false got_elements
         (dquote :: k ++ dquote :: w2 ++ ":" :: w3 ++ t ++ tail)) r.
Proof.
  intros Hk Hw2 Hw3 Hv Hp Htail Hne H [|fuel]; [now right|].
  destruct (json_value_head t v Hv) as (Ht & _).
  rewrite parse_object_key.
  eapply may_return_bind; [apply (string_body_parse k key Hk)|].
  cbn beta iota. cbn [tl].
  rewrite neq_end_nonempty by now destruct w2.
  revert fuel. apply parse_object_skip; [exact Hw2|discriminate|].
  intros [|fuel]; [now right|]. rewrite parse_object_value.
  apply may_return_bind with (a := (v, cursor_at_last t tail)).
  - revert fuel. apply detail_parse_skip; [exact Hw3|now destruct t|].
    intros fuel. now apply Hp.
  - cbn beta iota. rewrite tl_cursor_at_last by exact Ht.
    rewrite neq_end_nonempty by exact Hne. apply H.
Qed.

(** *** The grammar is accepted *)

Lemma grammar_parses :
  (forall t v,
      json_value t v ->
      forall fuel rest,
        number_char (hd NUL rest) = false ->
        may_return (detail_parse fuel (t ++ rest)) (v, cursor_at_last t rest))
  /\ (forall body a,
      json_elements body a ->
      forall rv has_elements rest fuel,
        may_return (parse_array fuel rv true has_elements (body ++ "]" :: rest))
          (rv ++ a, "]" :: rest))
  /\ (forall body members,
      json_members body members ->
      forall rv key got_elements rest fuel,
        may_return
          (parse_object fuel rv key false got_elements (body ++ "}" :: rest))
          (fold_left (fun m kv => map_assign (fst kv) (snd kv) m) members rv,
           "}" :: rest)).
Proof.
  apply json_grammar_ind.
  - intros [|fuel] rest _; [now right | now left].
  - intros [|fuel] rest _; [now right | now left].
  - intros [|fuel] rest _; [now right | now left].
  - intros t Ht fuel rest Hrest.
    apply detail_parse_number_text; [now apply json_number_text | exact Hrest].
  - intros t s Hb [|fuel] rest _; [now right|].
    change (dquote :: t ++ [dquote]) with ((dquote :: t) ++ [dquote]).
    rewrite cursor_at_last_snoc, <- app_assoc. cbn [app].
    rewrite detail_parse_string.
    eapply may_return_bind; [apply (string_body_parse t s Hb)|]. now left.
  - intros w Hw [|fuel] rest _; [now right|].
    change ("[" :: w ++ ["]"]) with (("[" :: w) ++ ["]"]).
    rewrite cursor_at_last_snoc, <- app_assoc. cbn [app].
    rewrite detail_parse_array.
    apply may_return_bind with (a := ([], "]" :: rest)); [|now left].
    revert fuel. apply parse_array_skip; [exact Hw|discriminate|].
    intros [|fuel]; [now right | now left].
  - intros body a _ IH [|fuel] rest _; [now right|].
    change ("[" :: body ++ ["]"]) with (("[" :: body) ++ ["]"]).
    rewrite cursor_at_last_snoc, <- app_assoc. cbn [app].
    rewrite detail_parse_array.
    apply may_return_bind with (a := ([] ++ a, "]" :: rest)); [apply IH | now left].
  - intros w Hw [|fuel] rest _; [now right|].
    change ("{" :: w ++ ["}"]) with (("{" :: w) ++ ["}"]).
    rewrite cursor_at_last_snoc, <- app_assoc. cbn [app].
    rewrite detail_parse_object.
    apply may_return_bind with (a := ([], "}" :: rest)); [|now left].
    revert fuel. apply parse_object_skip; [exact Hw|discriminate|].
    intros [|fuel]; [now right | now left].
  - intros body members _ IH [|fuel] rest _; [now right|].
    change ("{" :: body ++ ["}"]) with (("{" :: body) ++ ["}"]).
    rewrite cursor_at_last_snoc, <- app_assoc. cbn [app].
    rewrite detail_parse_object.
    apply may_return_bind with (a := (map_of members, "}" :: rest));
      [apply IH | now left].
  - intros w1 t v w2 Hw1 Hv IH Hw2 rv has_elements rest.
    repeat (progress (rewrite <- ?app_assoc; cbn [app])).
    apply parse_array_skip; [exact Hw1| |].
    { destruct (json_value_head t v Hv) as (Ht & _). now destruct t. }
    apply array_element with (v := v); [exact Hv|exact IH| | |].
    + now apply whitespace_head.
    + now destruct w2.
    + now apply array_after_last.
  - intros w1 t v w2 body a Hw1 Hv IH Hw2 Hbody IHbody rv has_elements rest.
    repeat (progress (rewrite <- ?app_assoc; cbn [app])).
    apply parse_array_skip; [exact Hw1| |].
    { destruct (json_value_head t v Hv) as (Ht & _). now destruct t. }
    apply array_element with (v := v); [exact Hv|exact IH| | |].
    + now apply whitespace_head.
    + now destruct w2.
    + apply array_after_more; [exact Hw2| |].
      * now destruct body.
      * rewrite (snoc_app_list rv v a). apply IHbody.
  - intros w1 k key w2 w3 t v w4 Hw1 Hk Hw2 Hw3 Hv IH Hw4 rv key0 ge rest.
    repeat (progress (rewrite <- ?app_assoc; cbn [app])).
    apply parse_object_skip; [exact Hw1|discriminate|].
    apply object_member with (key := key) (v := v); try assumption.
    + now apply whitespace_head.
    + now destruct w4.
    + now apply object_after_last.
  - intros w1 k key w2 w3 t v w4 body members Hw1 Hk Hw2 Hw3 Hv IH Hw4
      Hbody IHbody rv key0 ge rest.
    repeat (progress (rewrite <- ?app_assoc; cbn [app])).
    apply parse_object_skip; [exact Hw1|discriminate|].
    apply object_member with (key := key) (v := v); try assumption.
    + now apply whitespace_head.
    + now destruct w4.
    + apply object_after_more; [exact Hw4| |].
      * now destruct body.
      * apply IHbody.
Qed.

Lemma skip_trailing_whitespace (w : str) (c : ascii) :
  whitespace w -> forall fuel, may_return (skip_trailing fuel (c :: w)) tt.
Proof.
  intros Hw. revert c. induction Hw as [|d w Hd Hw IH]; intros c [|fuel];
    try (now right); [now left|].
  cbn [skip_trailing incr neq_end deref string_iterator tl hd].
  rewrite Hd. apply IH.
Qed.

(** Every well-formed text is accepted, with the value the grammar
    gives it. *)
Lemma parse_json_text (t : str) (v : value) : json_text t v -> parse t = Ret v.
Proof.
  intros (w1 & body & w2 & -> & Hw1 & Hv & Hw2).
  pose proof (parse_total (w1 ++ body ++ w2)) as Htot.
  destruct (json_value_head body v Hv) as (Hne & _).
  destruct (snoc_of_nonempty body Hne) as (pre & z & E).
  assert (H : may_return (parse (w1 ++ body ++ w2)) v).
  { unfold parse, parse_from.
    apply may_return_bind with (a := (v, cursor_at_last body w2)).
    - apply detail_parse_skip; [exact Hw1|now destruct body|].
      intros fuel. apply (proj1 grammar_parses); [exact Hv|].
      now apply whitespace_head_end.
    - cbn beta iota. rewrite E, cursor_at_last_snoc.
      apply may_return_bind with (a := tt); [|now left].
      now apply skip_trailing_whitespace. }
  destruct H as [H | H]; [exact H | contradiction].
Qed.

(** C1, amended: when every number of the value survives printing and
    reading back, parsing the rendering of the value parsed from a text
    returns that value again: for every text the string entry point
    accepts, and so for every well-formed JSON text. *)
Theorem round_trip (t : str) (v : value) :
  numbers_stable v ->
  (parse t = Ret v -> parse (json v) = Ret v)
  /\ (json_text t v -> parse t = Ret v /\ parse (json v) = Ret v).
Proof.
  intros Hs. split.
  - intros H. exact (parse_json_of_parsed t v H Hs).
  - intros H. apply parse_json_text in H.
    split; [exact H | exact (parse_json_of_parsed t v H Hs)].
Qed.

(** C8: the stream entry point, reading one character at a time from a
    stream that holds the characters of the text, returns the value the
    string entry point returns: for every text the string entry point
    accepts, and so for every well-formed JSON text. *)
Theorem parse_stream_agrees (t : str) (v : value) :
  (parse t = Ret v -> parse_stream t = Ret v)
  /\ (json_text t v -> parse t = Ret v /\ parse_stream t = Ret v).
Proof.
  split.
  - apply parse_stream_of_parse.
  - intros H. apply parse_json_text in H.
    split; [exact H | now apply parse_stream_of_parse].
Qed.

(** C10: every object text is accepted, whether or not a key is
    repeated in it, and the object returned has one entry per key,
    holding the value of the last member with that key.  This holds
    for every object text of the grammar of RFC 8259 (any well-formed
    member values, whitespace wherever the grammar allows it, with
    whitespace around the text), and for every text that lists members
    the way the serializer prints them, with values that parse back.
    Whatever the text, an object the parser returns has no key
    twice.  The text with "a" twice gives the single entry for "a"
    with the second value. *)
Theorem repeated_keys :
  (forall (w1 body w2 : str) (members : list (str * value)),
      whitespace w1 -> json_members body members -> whitespace w2 ->
      parse (w1 ++ "{" :: body ++ "}" :: w2)
      = Ret (object_wrapper (map_of members))
      /\ NoDup (keys (map_of members))
      /\ forall key, map_find key (map_of members) = last_assigned key members)
  /\ (forall members : list (str * value),
      Forall (fun kv => numbers_stable (snd kv) /\ sorted_value (snd kv)) members ->
      parse (object_text members) = Ret (object_wrapper (map_of members))
      /\ NoDup (keys (map_of members))
      /\ forall key, map_find key (map_of members) = last_assigned key members)
  /\ (forall (t : str) (o : object),
      parse t = Ret (object_wrapper o) -> NoDup (keys o))
  /\ parse (quoted "{'a':1,'a':2}")
     = Ret (object_wrapper [(text "a", number_wrapper (extract_number (text "2")))]).
Proof.
  split; [|split; [|split; [|vm_compute; reflexivity]]].
  - intros w1 body w2 members Hw1 Hb Hw2. split; [|split].
    + apply parse_json_text.
      exists w1, ("{" :: body ++ ["}"]), w2. split.
      { cbn [app]. now rewrite <- app_assoc. }
      split; [exact Hw1|]. split; [now apply jv_object | exact Hw2].
    + apply sorted_map_NoDup, map_of_sorted.
    + intros key. apply map_find_map_of.
  - intros members H. split; [now apply parse_object_text|]. split.
    + apply sorted_map_NoDup, map_of_sorted.
    + intros key. apply map_find_map_of.
  - intros t o H. apply parse_sorted in H.
    inversion H as [| | | | |? Hm Ho]; subst. now apply sorted_map_NoDup.
Qed.

End WellFormed.

(** ** The binary64 instance: the scenario, and a number that does not
    survive the round trip *)

Section OnBinary64.
Existing Instance Binary64.ops.

Lemma doubles_denote :
  Binary64.of_int 1 = double_1
  /\ Binary64.extract (text "2.5") = double_2_5
  /\ Binary64.of_int 1234567 = double_1234567
  /\ Binary64.of_int 1234570 = double_1234570.
Proof. repeat split; reflexivity. Qed.

(** C7: the scenario text is accepted; the value is an object with the
    single key "a" holding the array of 1.0, 2.5, true, null and "x";
    its rendering is the compact text. *)
Theorem scenario :
  parse (quoted " { 'a' : [1, 2.5, true, null, 'x'] } ")
  = Ret (object_wrapper
           [(text "a",
             array_wrapper
               [number_wrapper double_1; number_wrapper double_2_5;
                bool_wrapper true; null_wrapper; string_wrapper (text "x")])])
  /\ json (object_wrapper
             [(text "a",
               array_wrapper
                 [number_wrapper double_1; number_wrapper double_2_5;
                  bool_wrapper true; null_wrapper; string_wrapper (text "x")])])
     = quoted "{'a': [1, 2.5, true, null, 'x']}".
Proof. split; reflexivity. Qed.

(** C1 as stated fails: the text 1234567 parses to the double 1234567.0,
    which is printed with six significant digits as 1.23457e+06, and
    that text parses to 1234570.0. *)
Lemma round_trip_counterexample :
  parse (text "1234567") = Ret (number_wrapper double_1234567)
  /\ json (number_wrapper double_1234567) = text "1.23457e+06"
  /\ parse (json (number_wrapper double_1234567))
     = Ret (number_wrapper double_1234570)
  /\ parse (json (number_wrapper double_1234567))
     <> Ret (number_wrapper double_1234567).
Proof.
  split; [reflexivity|].
  split; [reflexivity|].
  assert (H : parse (json (number_wrapper double_1234567))
              = Ret (number_wrapper double_1234570))
    by (reflexivity).
  split; [exact H|]. rewrite H. discriminate.
Qed.

End OnBinary64.

(** ** The general results at concrete inputs *)

Section Instances.
Existing Instance Binary64.ops.

Lemma whitespace_space : whitespace (text " ").
Proof. now repeat constructor. Qed.

Lemma whitespace_none : whitespace [].
Proof. constructor. Qed.

(** A well-formed text with whitespace in the places the grammar
    allows, and its value. *)
Lemma example_well_formed :
  json_text (quoted " { 'k' : [1 , true] } ")
    (object_wrapper
       [(text "k", array_wrapper [number_wrapper double_1; bool_wrapper true])]).
Proof.
  exists (text " "), (quoted "{ 'k' : [1 , true] }"), (text " ").
  split; [reflexivity|]. split; [exact whitespace_space|].
  split; [|exact whitespace_space].
  assert (H1 : json_value (text "1") (number_wrapper double_1))
    by exact (jv_number (text "1") eq_refl).
  assert (Ha : json_value (quoted "[1 , true]")
                 (array_wrapper [number_wrapper double_1; bool_wrapper true])).
  { apply (jv_array (quoted "1 , true")).
    exact (je_more [] (text "1") _ (text " ") (text " true") _
             whitespace_none H1 whitespace_space
             (je_last (text " ") (text "true") _ []
                whitespace_space jv_true whitespace_none)). }
  exact (jv_object (quoted " 'k' : [1 , true] ") _
           (jm_last (text " ") (text "k") (text "k") (text " ") (text " ")
              (quoted "[1 , true]") _ (text " ")
              whitespace_space
              (body_char "k" [] [] eq_refl eq_refl ltac:(vm_compute; lia) body_end)
              whitespace_space whitespace_space Ha whitespace_space)).
Qed.

Lemma example_stable :
  numbers_stable
    (object_wrapper
       [(text "k", array_wrapper [number_wrapper double_1; bool_wrapper true])]).
Proof. repeat (constructor; cbn [snd]); reflexivity. Qed.

Lemma round_trip_witness :
  numbers_stable
    (object_wrapper
       [(text "k", array_wrapper [number_wrapper double_1; bool_wrapper true])])
  /\ json_text (quoted " { 'k' : [1 , true] } ")
       (object_wrapper
          [(text "k", array_wrapper [number_wrapper double_1; bool_wrapper true])])
  /\ parse (quoted " { 'k' : [1 , true] } ")
     = Ret (object_wrapper
              [(text "k",
                array_wrapper [number_wrapper double_1; bool_wrapper true])])
  /\ parse
       (json
          (object_wrapper
             [(text "k",
               array_wrapper [number_wrapper double_1; bool_wrapper true])]))
     = Ret (object_wrapper
              [(text "k",
                array_wrapper [number_wrapper double_1; bool_wrapper true])]).
Proof.
  split; [exact example_stable|]. split; [exact example_well_formed|].
  exact (proj2 (round_trip _ _ example_stable) example_well_formed).
Defined.

Lemma number_production_witness :
  detail_parse 4 ((text "--" ++ ["1"]) ++ text "]")
  = Ret (number_wrapper (extract_number (text "--" ++ ["1"])), "1" :: text "]")
  /\ parse (text "1.2." ++ ["3"])
     = Ret (number_wrapper (extract_number (text "1.2." ++ ["3"]))).
Proof.
  split.
  - apply (proj1 number_production (text "--") "1" (text "]") 4).
    + reflexivity.
    + repeat constructor.
    + reflexivity.
    + cbn. lia.
  - apply (proj1 (proj2 number_production) (text "1.2.") "3").
    + reflexivity.
    + repeat constructor.
Defined.

Lemma parse_stream_agrees_witness :
  json_text (quoted " { 'k' : [1 , true] } ")
    (object_wrapper
       [(text "k", array_wrapper [number_wrapper double_1; bool_wrapper true])])
  /\ parse (quoted " { 'k' : [1 , true] } ")
     = Ret (object_wrapper
              [(text "k",
                array_wrapper [number_wrapper double_1; bool_wrapper true])])
  /\ parse_stream (quoted " { 'k' : [1 , true] } ")
     = Ret (object_wrapper
              [(text "k",
                array_wrapper [number_wrapper double_1; bool_wrapper true])]).
Proof.
  split; [exact example_well_formed|].
  exact (proj2 (parse_stream_agrees _ _) example_well_formed).
Defined.

Lemma example_repeated_key :
  json_members (quoted "'a':1,'a':2")
    [(text "a", number_wrapper double_1);
     (text "a", number_wrapper (extract_number (text "2")))].
Proof.
  assert (Ha : string_body (text "a") (text "a"))
    by exact (body_char "a" [] [] eq_refl eq_refl ltac:(vm_compute; lia)
                body_end).
  assert (H1 : json_value (text "1") (number_wrapper double_1))
    by exact (jv_number (text "1") eq_refl).
  assert (H2 : json_value (text "2")
                 (number_wrapper (extract_number (text "2"))))
    by exact (jv_number (text "2") eq_refl).
  exact (jm_more [] (text "a") (text "a") [] [] (text "1") _ []
           (quoted "'a':2") _
           whitespace_none Ha whitespace_none whitespace_none H1
           whitespace_none
           (jm_last [] (text "a") (text "a") [] [] (text "2") _ []
              whitespace_none Ha whitespace_none whitespace_none H2
              whitespace_none)).
Qed.

Lemma repeated_keys_witness :
  (json_members (quoted "'a':1,'a':2")
     [(text "a", number_wrapper double_1);
      (text "a", number_wrapper (extract_number (text "2")))]
   /\ parse (text " " ++ "{" :: quoted "'a':1,'a':2" ++ "}" :: text " ")
      = Ret (object_wrapper
               (map_of
                  [(text "a", number_wrapper double_1);
                   (text "a", number_wrapper (extract_number (text "2")))]))
   /\ map_find (text "a")
        (map_of
           [(text "a", number_wrapper double_1);
            (text "a", number_wrapper (extract_number (text "2")))])
      = Some (number_wrapper (extract_number (text "2"))))
  /\ Forall (fun kv => numbers_stable (snd kv) /\ sorted_value (snd kv))
       [(text "a", number_wrapper double_1); (text "b", null_wrapper);
        (text "a", number_wrapper double_2_5)]
  /\ parse (object_text
              [(text "a", number_wrapper double_1); (text "b", null_wrapper);
               (text "a", number_wrapper double_2_5)])
     = Ret (object_wrapper
              (map_of
                 [(text "a", number_wrapper double_1); (text "b", null_wrapper);
                  (text "a", number_wrapper double_2_5)]))
  /\ map_find (text "a")
       (map_of
          [(text "a", number_wrapper double_1); (text "b", null_wrapper);
           (text "a", number_wrapper double_2_5)])
     = Some (number_wrapper double_2_5).
Proof.
  assert (H : Forall (fun kv => numbers_stable (snd kv) /\ sorted_value (snd kv))
                [(text "a", number_wrapper double_1); (text "b", null_wrapper);
                 (text "a", number_wrapper double_2_5)]).
  { repeat (constructor; cbn [snd]); reflexivity. }
  split.
  - split; [exact example_repeated_key|].
    destruct (proj1 repeated_keys (text " ") _ (text " ") _
                whitespace_space example_repeated_key whitespace_space)
      as (Hp & _ & Hf).
    split; [exact Hp|]. rewrite Hf. reflexivity.
  - split; [exact H|].
    destruct (proj1 (proj2 repeated_keys) _ H) as (Hp & _ & Hf).
    split; [exact Hp|]. rewrite Hf. reflexivity.
Defined.

End Instances.

Module SharedInstances.
Section Store.
Existing Instance Binary64.ops.
Import Shared.


End Store.
End SharedInstances.

(** * Further properties of the code *)

(** ** Escaping *)

(** X1: [unescape] stops at the first NUL of its argument: what follows
    an embedded NUL is lost, so escaping and unescaping a string that
    holds a NUL returns only the part before it. *)
Theorem unescape_stops_at_NUL (s t : str) :
  Forall (fun c => c <> NUL) s ->
  unescape (escape (s ++ NUL :: t)) = Some s.
Proof.
  induction 1 as [|c s Hc Hs IH]; [reflexivity|].
  cbn [app escape].
  destruct ((c =? dquote) || (c =? backslash)) eqn:E.
  - cbn [app unescape].
    replace (backslash =? NUL) with false by reflexivity.
    replace (backslash =? backslash) with true by reflexivity.
    now rewrite IH.
  - cbn [app unescape].
    apply orb_false_elim in E as [_ E]. rewrite E.
    destruct (Ascii.eqb_spec c NUL) as [->|_]; [contradiction|].
    now rewrite IH.
Qed.

Lemma unescape_stops_at_NUL_witness :
  Forall (fun c => c <> NUL) (quoted "a'b")
  /\ unescape (escape (quoted "a'b" ++ NUL :: text "tail")) = Some (quoted "a'b").
Proof.
  assert (H : Forall (fun c => c <> NUL) (quoted "a'b"))
    by (repeat constructor; discriminate).
  split; [exact H | exact (unescape_stops_at_NUL _ (text "tail") H)].
Defined.

(** X2: an escaped text followed by one more backslash makes [unescape]
    step over the terminator of the buffer: it copies the terminator and
    its loop then reads past the end. *)
Theorem unescape_lone_backslash (s : str) :
  Forall (fun c => c <> NUL) s ->
  unescape (escape s ++ [backslash]) = None.
Proof.
  induction 1 as [|c s Hc Hs IH]; [reflexivity|].
  cbn [escape].
  destruct ((c =? dquote) || (c =? backslash)) eqn:E.
  - cbn [app unescape].
    replace (backslash =? NUL) with false by reflexivity.
    replace (backslash =? backslash) with true by reflexivity.
    now rewrite IH.
  - cbn [app unescape].
    apply orb_false_elim in E as [_ E]. rewrite E.
    destruct (Ascii.eqb_spec c NUL) as [->|_]; [contradiction|].
    now rewrite IH.
Qed.

Lemma unescape_lone_backslash_witness :
  Forall (fun c => c <> NUL) (quoted "a'b")
  /\ unescape (escape (quoted "a'b") ++ [backslash]) = None.
Proof.
  assert (H : Forall (fun c => c <> NUL) (quoted "a'b"))
    by (repeat constructor; discriminate).
  split; [exact H | exact (unescape_lone_backslash _ H)].
Defined.

(** ** The parser on texts outside the grammar *)

Section MoreParsing.
Context {num : NumberOps}.

Lemma may_end_bind {A B : Type} (m : outcome A) (a : A)
    (k : A -> outcome B) (o : outcome B) :
  may_return m a -> may_end (k a) o -> may_end (bind m k) o.
Proof. intros [-> | ->] H; [exact H | now right]. Qed.

Lemma may_end_throw {A B : Type} (m : outcome A) (what : str)
    (k : A -> outcome B) :
  may_end m (Throw what) -> may_end (bind m k) (Throw what).
Proof. intros [-> | ->]; [now left | now right]. Qed.

Lemma may_end_parse (s : str) (o : outcome value) :
  may_end (parse s) o -> parse s = o.
Proof. intros [H | H]; [exact H | now apply parse_total in H]. Qed.

(** X3: [parse(string const&)] comes to an end on every text: it
    returns a value or throws.  The recursion of [detail::parse],
    [parse_array] and [parse_object] is never deeper than twice the
    length of the text plus two. *)
Theorem parse_terminates (s : str) :
  (exists v, parse s = Ret v) \/ (exists what, parse s = Throw what).
Proof.
  pose proof (parse_total s) as H.
  destruct (parse s) as [v|what|]; [left; eauto | right; eauto | contradiction].
Qed.

(** X4: rendering a value and parsing the rendering gives the value
    back, through the string entry point and through the stream entry
    point, for every value whose numbers survive printing and reading
    (the maps of the value are ordered by key, as every [std::map]
    is). *)
Theorem render_then_parse (v : value) :
  numbers_stable v -> sorted_value v ->
  parse (json v) = Ret v /\ parse_stream (json v) = Ret v.
Proof.
  intros Hs Hw. pose proof (parse_json v Hs Hw) as H.
  split; [exact H | now apply parse_stream_of_parse].
Qed.

(** X5: an array is rendered as an opening bracket, the renderings of
    its elements joined by a comma and a space, and a closing
    bracket. *)
Theorem array_rendering (a : array) :
  json (array_wrapper a)
  = text "[" ++ joined (text ", ") (map json a) ++ text "]".
Proof. apply json_array. Qed.

(** *** Strings *)

Lemma parse_string_consumed (fuel : nat) (rv : str) (esc : bool)
    (cur s cur' : str) :
  parse_string fuel rv esc cur = Ret (s, cur') ->
  exists t s',
    cur = t ++ cur' /\ s = rv ++ s' /\ hd NUL cur' = dquote
    /\ (Forall (fun c => c <> NUL) t ->
        unescape ((if esc then [backslash] else []) ++ t) = Some s').
Proof.
  revert rv esc cur. induction fuel as [|fuel IH]; intros rv esc cur H;
    [discriminate|].
  cbn [parse_string] in H. destruct cur as [|c cur]; [discriminate|].
  cbn [neq_end deref incr string_iterator hd tl] in H.
  destruct esc; cbn [negb] in H.
  - rewrite !andb_false_r in H.
    apply IH in H as (t & s' & -> & -> & Hd & Hu).
    exists (c :: t), (c :: s'). rewrite <- app_assoc.
    repeat split; [exact Hd|]. intros Ht. apply Forall_cons_1 in Ht as [_ Ht].
    specialize (Hu Ht). cbn [app] in Hu. cbn. now rewrite Hu.
  - rewrite !andb_true_r in H.
    destruct (Ascii.eqb_spec c dquote) as [->|Hq].
    { injection H as <- <-. exists [], []. rewrite app_nil_r. now repeat split. }
    destruct (Ascii.eqb_spec c backslash) as [->|Hb].
    + apply IH in H as (t & s' & -> & -> & Hd & Hu).
      exists (backslash :: t), s'.
      repeat split; [exact Hd|]. intros Ht. apply Forall_cons_1 in Ht as [_ Ht].
      exact (Hu Ht).
    + apply IH in H as (t & s' & -> & -> & Hd & Hu).
      exists (c :: t), (c :: s'). rewrite <- app_assoc.
      repeat split; [exact Hd|]. intros Ht. apply Forall_cons_1 in Ht as [Hc Ht].
      cbn [app unescape].
      destruct (Ascii.eqb_spec c NUL) as [->|_]; [contradiction|].
      destruct (Ascii.eqb_spec c backslash) as [->|_]; [contradiction|].
      cbn [app] in Hu. now rewrite (Hu Ht).
Qed.

(** X6: the string production and [unescape] agree: when
    [parse_string] returns, it stands on a double quote, and the string
    it returns is what [unescape] makes of the characters it went
    over, provided none of them is NUL. *)
Theorem parse_string_unescape (fuel : nat) (cur s cur' : str) :
  parse_string fuel [] false cur = Ret (s, cur') ->
  exists t,
    cur = t ++ cur' /\ hd NUL cur' = dquote
    /\ (Forall (fun c => c <> NUL) t -> unescape t = Some s).
Proof.
  intros H. apply parse_string_consumed in H as (t & s' & -> & -> & Hd & Hu).
  exists t. repeat split; assumption.
Qed.

Lemma parse_string_all_escaped (s rv rest : str) (fuel : nat) :
  may_return
    (parse_string fuel rv false
       (flat_map (fun c => [backslash; c]) s ++ dquote :: rest))
    (rv ++ s, dquote :: rest).
Proof.
  revert rv fuel. induction s as [|c s IH]; intros rv fuel.
  - destruct fuel as [|fuel]; [now right|]. left. cbn. now rewrite app_nil_r.
  - destruct fuel as [|[|fuel]]; [now right..|]. cbn [flat_map app].
    rewrite parse_string_escaped, (snoc_app rv c s). apply IH.
Qed.

(** X7: escape sequences are not decoded: in a string, a backslash
    only makes the character after it part of the content, whatever
    that character is; a backslash followed by [n] reads as the
    letter [n], not as a line feed. *)
Theorem escapes_not_decoded (w1 s w2 : str) :
  whitespace w1 -> whitespace w2 ->
  parse (w1 ++ dquote :: flat_map (fun c => [backslash; c]) s
            ++ dquote :: w2)
  = Ret (string_wrapper s).
Proof.
  intros Hw1 Hw2. apply may_end_parse. unfold parse, parse_from.
  apply may_end_bind with (a := (string_wrapper s, dquote :: w2)).
  - apply detail_parse_skip; [exact Hw1|discriminate|].
    intros [|fuel]; [now right|]. rewrite detail_parse_string.
    eapply may_return_bind; [apply (parse_string_all_escaped s [])|].
    now left.
  - cbn beta iota. apply may_end_bind with (a := tt); [|now left].
    now apply skip_trailing_whitespace.
Qed.

(** An unfinished string: the message carries what was read. *)
Lemma parse_string_unfinished (s rv : str) (fuel : nat) :
  may_end (parse_string fuel rv false (escape s))
    (Throw (text "bad string: " ++ rv ++ s)).
Proof.
  revert rv fuel. induction s as [|c s IH]; intros rv fuel;
    (destruct fuel as [|fuel]; [now right|]).
  - left. cbn. now rewrite app_nil_r.
  - replace (rv ++ c :: s) with ((rv ++ [c]) ++ s) by now rewrite <- app_assoc.
    cbn [escape]. destruct ((c =? dquote) || (c =? backslash)) eqn:E.
    + destruct fuel as [|fuel]; [now right|].
      specialize (IH (rv ++ [c]) fuel).
      cbn. now rewrite !andb_false_r.
    + apply orb_false_elim in E as [E1 E2].
      specialize (IH (rv ++ [c]) fuel).
      cbn. now rewrite E1, E2.
Qed.

Lemma detail_parse_skip_end (w cur : str) (o : outcome (value * str)) :
  whitespace w -> cur <> [] ->
  (forall fuel, may_end (detail_parse fuel cur) o) ->
  forall fuel, may_end (detail_parse fuel (w ++ cur)) o.
Proof.
  intros Hw Hne H. induction Hw as [|c w Hc Hw IH]; [exact H|].
  intros [|fuel]; [now right|]. cbn [app].
  rewrite detail_parse_ws_step; [apply IH | exact Hc | now destruct w, cur].
Qed.

(** X8: a text that opens a string and ends before the string is
    closed is rejected, and the message is "bad string: " followed by
    the content read so far. *)
Theorem unfinished_string_rejected (w s : str) :
  whitespace w ->
  parse (w ++ dquote :: escape s) = Throw (text "bad string: " ++ s).
Proof.
  intros Hw. apply may_end_parse. unfold parse, parse_from.
  apply may_end_throw. apply detail_parse_skip_end; [exact Hw|discriminate|].
  intros [|fuel]; [now right|]. rewrite detail_parse_string.
  apply may_end_throw. apply (parse_string_unfinished s []).
Qed.

(** *** Blank input *)

Lemma detail_parse_blank (w : str) (fuel : nat) :
  whitespace w -> length w < fuel ->
  detail_parse fuel w = Throw (text "bad json").
Proof.
  intros Hw. revert fuel.
  induction Hw as [|c w Hc Hw IH]; intros [|fuel] Hlen;
    try (cbn in Hlen; lia); [reflexivity|].
  destruct w as [|d w].
  - rewrite detail_parse_S. cbn zeta.
    cbn [deref incr neq_end string_iterator hd tl].
    destruct (whitespace_char c Hc) as (-> & -> & -> & -> & -> & -> & -> & _).
    now rewrite Hc.
  - rewrite detail_parse_ws_step; [|exact Hc|discriminate].
    apply IH. cbn in *. lia.
Qed.

Lemma detail_parse_blank_stream (w : str) (c : ascii) (fuel : nat) :
  is_whitespace c = true -> whitespace w -> length w < fuel ->
  detail_parse fuel (iterator_on c w) = Throw (text "bad json").
Proof.
  intros Hc Hw. revert c Hc fuel.
  induction Hw as [|d w Hd Hw IH]; intros c Hc [|fuel] Hlen;
    try (cbn in Hlen; lia);
    rewrite detail_parse_S; cbn zeta;
    cbn [deref stream_iterator iterator_on cur_val];
    destruct (whitespace_char c Hc) as (-> & -> & -> & -> & -> & -> & -> & _);
    rewrite Hc.
  - reflexivity.
  - change (incr (iterator_on c (d :: w))) with (iterator_on d w).
    change (neq_end (iterator_on d w)) with true. cbn iota.
    apply IH; [exact Hd | cbn in Hlen; lia].
Qed.

Lemma parse_blank (w : str) :
  whitespace w -> parse w = Throw (text "bad json").
Proof.
  intros Hw. unfold parse, parse_from, fuel_for.
  rewrite detail_parse_blank; [reflexivity | exact Hw | lia].
Qed.

Lemma parse_stream_blank (w : str) :
  whitespace w -> parse_stream w = Throw (text "bad json").
Proof.
  intros Hw. unfold parse_stream, parse_from, fuel_for.
  destruct Hw as [|c w Hc Hw]; [reflexivity|].
  change (iterator_of (istream_of (c :: w))) with (iterator_on c w).
  rewrite detail_parse_blank_stream; [reflexivity | exact Hc | exact Hw |].
  cbn [length]. lia.
Qed.

(** X9: an empty text and a text of whitespace only are rejected with
    "bad json" by both entry points. *)
Theorem blank_input_rejected (w : str) :
  whitespace w ->
  parse w = Throw (text "bad json")
  /\ parse_stream w = Throw (text "bad json").
Proof.
  intros Hw. split.
  - now apply parse_blank.
  - now apply parse_stream_blank.
Qed.

(** *** What may follow an element or a member *)

Lemma parse_array_skip_end (w cur : str) (rv : array)
    (accept has_elements : bool) (o : outcome (array * str)) :
  whitespace w -> cur <> [] ->
  (forall fuel, may_end (parse_array fuel rv accept has_elements cur) o) ->
  forall fuel,
    may_end (parse_array fuel rv accept has_elements (w ++ cur)) o.
Proof.
  intros Hw Hne H. induction Hw as [|c w Hc Hw IH]; [exact H|].
  intros [|fuel]; [now right|]. cbn [app].
  rewrite parse_array_ws_step; [apply IH | exact Hc | now destruct w, cur].
Qed.

Lemma parse_object_skip_end (w cur : str) (rv : object) (key : str)
    (got_key got_elements : bool) (o : outcome (object * str)) :
  whitespace w -> cur <> [] ->
  (forall fuel,
      may_end (parse_object fuel rv key got_key got_elements cur) o) ->
  forall fuel,
    may_end (parse_object fuel rv key got_key got_elements (w ++ cur)) o.
Proof.
  intros Hw Hne H. induction Hw as [|c w Hc Hw IH]; [exact H|].
  intros [|fuel]; [now right|]. cbn [app].
  rewrite parse_object_ws_step; [apply IH | exact Hc | now destruct w, cur].
Qed.

Lemma whitespace_then (w tail : str) :
  whitespace w -> number_char (hd NUL tail) = false ->
  number_char (hd NUL (w ++ tail)) = false.
Proof.
  intros Hw Ht. destruct w as [|x w]; [exact Ht|].
  apply Forall_cons_1 in Hw as [Hx _]. now apply whitespace_char in Hx.
Qed.

Lemma array_element_end (t : str) (v : value) (tail : str) (rv : array)
    (has_elements : bool) (o : outcome (array * str)) :
  json_value t v ->
  number_char (hd NUL tail) = false -> tail <> [] ->
  (forall fuel, may_end (parse_array fuel (rv ++ [v]) false true tail) o) ->
  forall fuel, may_end (parse_array fuel rv true has_elements (t ++ tail)) o.
Proof.
  intros Hv Htail Hne H [|fuel]; [now right|].
  destruct (json_value_head t v Hv) as (Ht & Hws & Hbr).
  rewrite parse_array_element by now rewrite hd_app_nonempty.
  apply may_end_bind with (a := (v, cursor_at_last t tail));
    [apply (proj1 grammar_parses); [exact Hv | exact Htail]|].
  cbn beta iota. rewrite tl_cursor_at_last by exact Ht.
  rewrite neq_end_nonempty by exact Hne. apply H.
Qed.

(** The elements of an array text, then whatever the loop does on the
    text that follows them. *)
Lemma elements_then (body : str) (a : list value) :
  json_elements body a ->
  forall rv has_elements tail o,
    tail <> [] -> number_char (hd NUL tail) = false ->
    (forall fuel, may_end (parse_array fuel (rv ++ a) false true tail) o) ->
    forall fuel,
      may_end (parse_array fuel rv true has_elements (body ++ tail)) o.
Proof.
  revert body a.
  apply (json_elements_mut (fun _ _ => True)
           (fun body a =>
              forall rv has_elements tail o,
                tail <> [] -> number_char (hd NUL tail) = false ->
                (forall fuel,
                    may_end (parse_array fuel (rv ++ a) false true tail) o) ->
                forall fuel,
                  may_end
                    (parse_array fuel rv true has_elements (body ++ tail)) o)
           (fun _ _ => True)); try (intros; exact I).
  - intros w1 t v w2 Hw1 Hv _ Hw2 rv has_elements tail o Hne Htail H.
    repeat (progress (rewrite <- ?app_assoc; cbn [app])).
    apply parse_array_skip_end; [exact Hw1| |].
    { destruct (json_value_head t v Hv) as (Ht & _). now destruct t. }
    apply array_element_end with (v := v); [exact Hv| | |].
    + now apply whitespace_then.
    + now destruct w2, tail.
    + apply parse_array_skip_end; [exact Hw2|exact Hne|exact H].
  - intros w1 t v w2 body a Hw1 Hv _ Hw2 Hbody IH rv has_elements tail o
      Hne Htail H.
    repeat (progress (rewrite <- ?app_assoc; cbn [app])).
    apply parse_array_skip_end; [exact Hw1| |].
    { destruct (json_value_head t v Hv) as (Ht & _). now destruct t. }
    apply array_element_end with (v := v); [exact Hv| | |].
    + now apply whitespace_head.
    + now destruct w2.
    + apply parse_array_skip_end; [exact Hw2|discriminate|].
      intros [|fuel]; [now right|].
      rewrite parse_array_comma by now destruct body, tail.
      apply IH; [exact Hne|exact Htail|].
      now rewrite <- (snoc_app_list rv v a).
Qed.

Lemma object_member_end (w2 w3 k key t : str) (v : value) (tail : str)
    (rv : object) (key0 : str) (got_elements : bool)
    (o : outcome (object * str)) :
  string_body k key -> whitespace w2 -> whitespace w3 ->
  json_value t v ->
  number_char (hd NUL tail) = false -> tail <> [] ->
  (forall fuel,
      may_end (parse_object fuel (map_assign key v rv) key false true tail) o) ->
  forall fuel,
    may_end
      (parse_object fuel rv key0 false got_elements
         (dquote :: k ++ dquote :: w2 ++ ":" :: w3 ++ t ++ tail)) o.
Proof.
  intros Hk Hw2 Hw3 Hv Htail Hne H [|fuel]; [now right|].
  destruct (json_value_head t v Hv) as (Ht & _).
  rewrite parse_object_key.
  eapply may_end_bind; [apply (string_body_parse k key Hk)|].
  cbn beta iota. cbn [tl].
  rewrite neq_end_nonempty by now destruct w2.
  revert fuel. apply parse_object_skip_end; [exact Hw2|discriminate|].
  intros [|fuel]; [now right|]. rewrite parse_object_value.
  apply may_end_bind with (a := (v, cursor_at_last t tail)).
  - revert fuel. apply detail_parse_skip; [exact Hw3|now destruct t|].
    intros fuel. apply (proj1 grammar_parses); [exact Hv | exact Htail].
  - cbn beta iota. rewrite tl_cursor_at_last by exact Ht.
    rewrite neq_end_nonempty by exact Hne. apply H.
Qed.

(** The members of an object text, then whatever the loop does on the
    text that follows them. *)
Lemma members_then (body : str) (members : list (str * value)) :
  json_members body members ->
  forall rv key got_elements tail o,
    tail <> [] -> number_char (hd NUL tail) = false ->
    (forall key' fuel,
        may_end
          (parse_object fuel
             (fold_left (fun m kv => map_assign (fst kv) (snd kv) m) members rv)
             key' false true tail) o) ->
    forall fuel,
      may_end (parse_object fuel rv key false got_elements (body ++ tail)) o.
Proof.
  revert body members.
  apply (json_members_mut (fun _ _ => True) (fun _ _ => True)
           (fun body members =>
              forall rv key got_elements tail o,
                tail <> [] -> number_char (hd NUL tail) = false ->
                (forall key' fuel,
                    may_end
                      (parse_object fuel
                         (fold_left
                            (fun m kv => map_assign (fst kv) (snd kv) m)
                            members rv)
                         key' false true tail) o) ->
                forall fuel,
                  may_end
                    (parse_object fuel rv key false got_elements
                       (body ++ tail)) o));
    try (intros; exact I).
  - intros w1 k key w2 w3 t v w4 Hw1 Hk Hw2 Hw3 Hv _ Hw4 rv key0 ge tail o
      Hne Htail H.
    repeat (progress (rewrite <- ?app_assoc; cbn [app])).
    apply parse_object_skip_end; [exact Hw1|discriminate|].
    apply object_member_end with (key := key) (v := v); try assumption.
    + now apply whitespace_then.
    + now destruct w4, tail.
    + apply parse_object_skip_end; [exact Hw4|exact Hne|apply H].
  - intros w1 k key w2 w3 t v w4 body members Hw1 Hk Hw2 Hw3 Hv _ Hw4
      Hbody IH rv key0 ge tail o Hne Htail H.
    repeat (progress (rewrite <- ?app_assoc; cbn [app])).
    apply parse_object_skip_end; [exact Hw1|discriminate|].
    apply object_member_end with (key := key) (v := v); try assumption.
    + now apply whitespace_head.
    + now destruct w4.
    + apply parse_object_skip_end; [exact Hw4|discriminate|].
      intros [|fuel]; [now right|].
      rewrite parse_object_comma by now destruct body, tail.
      apply IH; [exact Hne|exact Htail|exact H].
Qed.

(** *** Arrays are strict *)

Lemma parse_array_at_close (rv : array) (rest : str) (fuel : nat) :
  may_end (parse_array fuel rv true true ("]" :: rest))
    (Throw (text "bad json")).
Proof. destruct fuel as [|[|fuel]]; [now right..|now left]. Qed.

(** X10: a comma after the last element of an array is not accepted:
    the text is rejected with "bad json", whatever follows the closing
    bracket. *)
Theorem array_trailing_comma_rejected (w1 body w rest : str)
    (a : list value) :
  whitespace w1 -> json_elements body a -> whitespace w ->
  parse (w1 ++ "[" :: body ++ "," :: w ++ "]" :: rest)
  = Throw (text "bad json").
Proof.
  intros Hw1 Hb Hw. apply may_end_parse. unfold parse, parse_from.
  apply may_end_throw. apply detail_parse_skip_end; [exact Hw1|discriminate|].
  intros [|fuel]; [now right|]. rewrite detail_parse_array.
  apply may_end_throw. revert fuel.
  apply (elements_then body a Hb); [discriminate|reflexivity|].
  intros [|fuel]; [now right|].
  rewrite parse_array_comma by now destruct w.
  revert fuel. apply parse_array_skip_end; [exact Hw|discriminate|].
  apply parse_array_at_close.
Qed.

(** X11: two elements of an array with no comma between them are not
    accepted: when the elements are followed by a character that is
    neither whitespace, nor a comma, nor the closing bracket (and
    that, directly after an element, could not continue a number), the
    text is rejected with "bad array". *)
Theorem array_missing_comma_rejected (w1 body w rest : str) (c : ascii)
    (a : list value) :
  whitespace w1 -> json_elements body a -> whitespace w ->
  is_whitespace c = false -> (c =? "]") = false -> (c =? ",") = false ->
  w <> [] \/ number_char c = false ->
  parse (w1 ++ "[" :: body ++ w ++ c :: rest) = Throw (text "bad array").
Proof.
  intros Hw1 Hb Hw Hc1 Hc2 Hc3 Hc4. apply may_end_parse.
  unfold parse, parse_from.
  apply may_end_throw. apply detail_parse_skip_end; [exact Hw1|discriminate|].
  intros [|fuel]; [now right|]. rewrite detail_parse_array.
  apply may_end_throw. revert fuel.
  apply (elements_then body a Hb); [now destruct w| |].
  - destruct Hc4 as [Hne | Hn]; [|now apply whitespace_head].
    destruct w as [|x w]; [contradiction|].
    apply Forall_cons_1 in Hw as [Hx _]. now apply whitespace_char in Hx.
  - apply parse_array_skip_end; [exact Hw|discriminate|].
    intros [|fuel]; [now right|]. left.
    rewrite parse_array_S. cbn [deref incr neq_end string_iterator hd tl].
    now rewrite Hc1, Hc2, Hc3.
Qed.

(** *** Objects are not *)

Lemma separators_head (sep rest : str) (c : ascii) :
  separators sep -> number_char c = false ->
  number_char (hd NUL (sep ++ c :: rest)) = false.
Proof.
  intros Hs Hc. destruct sep as [|x sep]; [exact Hc|].
  apply Forall_cons_1 in Hs as [[Hx | ->] _]; [|reflexivity].
  now apply whitespace_char in Hx.
Qed.

Lemma parse_object_separators (sep cur : str) (rv : object) (key : str)
    (o : outcome (object * str)) :
  separators sep -> cur <> [] ->
  (forall fuel, may_end (parse_object fuel rv key false true cur) o) ->
  forall fuel, may_end (parse_object fuel rv key false true (sep ++ cur)) o.
Proof.
  intros Hs Hne H. induction Hs as [|c sep Hc Hs IH]; [exact H|].
  intros [|fuel]; [now right|]. cbn [app].
  destruct Hc as [Hc | ->].
  - rewrite parse_object_ws_step; [apply IH | exact Hc | now destruct sep, cur].
  - rewrite parse_object_comma by now destruct sep, cur. apply IH.
Qed.

Lemma parse_object_at_close (rv : object) (key : str) (rest : str)
    (fuel : nat) :
  may_return (parse_object fuel rv key false true ("}" :: rest))
    (rv, "}" :: rest).
Proof. destruct fuel as [|fuel]; [now right | now left]. Qed.

Lemma json_members_head (body : str) (members : list (str * value)) :
  json_members body members ->
  body <> [] /\ number_char (hd NUL body) = false.
Proof.
  intros H.
  assert (Hd : forall w rest, whitespace w ->
                 w ++ dquote :: rest <> []
                 /\ number_char (hd NUL (w ++ dquote :: rest)) = false).
  { intros w rest Hw. split; [now destruct w | now apply whitespace_head]. }
  destruct H; now apply Hd.
Qed.

Lemma parse_object_text_end (w1 text_in w2 : str) (o : object) :
  whitespace w1 -> whitespace w2 ->
  (forall fuel,
      may_return (parse_object fuel [] [] false false (text_in ++ "}" :: w2))
        (o, "}" :: w2)) ->
  parse (w1 ++ "{" :: text_in ++ "}" :: w2) = Ret (object_wrapper o).
Proof.
  intros Hw1 Hw2 H. apply may_end_parse. unfold parse, parse_from.
  apply may_end_bind with (a := (object_wrapper o, "}" :: w2)).
  - apply detail_parse_skip; [exact Hw1|discriminate|].
    intros [|fuel]; [now right|]. rewrite detail_parse_object.
    eapply may_return_bind; [apply H | now left].
  - cbn beta iota. apply may_end_bind with (a := tt); [|now left].
    now apply skip_trailing_whitespace.
Qed.

(** X12: commas after the last member of an object are accepted: a
    well-formed member list followed by any run of commas and
    whitespace before the closing brace parses to the object of the
    members. *)
Theorem object_trailing_commas_accepted (w1 body sep w2 : str)
    (members : list (str * value)) :
  whitespace w1 -> json_members body members -> separators sep ->
  whitespace w2 ->
  parse (w1 ++ "{" :: body ++ sep ++ "}" :: w2)
  = Ret (object_wrapper (map_of members)).
Proof.
  intros Hw1 Hb Hs Hw2.
  replace (w1 ++ "{" :: body ++ sep ++ "}" :: w2)
    with (w1 ++ "{" :: (body ++ sep) ++ "}" :: w2)
    by now rewrite <- app_assoc.
  apply parse_object_text_end; [exact Hw1|exact Hw2|].
  rewrite <- app_assoc.
  apply (members_then body members Hb); [now destruct sep| |].
  - now apply separators_head.
  - intros key'. apply parse_object_separators; [exact Hs|discriminate|].
    apply parse_object_at_close.
Qed.

(** X13: the commas between the members of an object are optional:
    two well-formed member lists, with any run of commas and
    whitespace (or nothing) between them, parse to the object of all
    the members. *)
Theorem object_commas_optional (w1 body1 sep body2 w2 : str)
    (members1 members2 : list (str * value)) :
  whitespace w1 -> json_members body1 members1 -> separators sep ->
  json_members body2 members2 -> whitespace w2 ->
  parse (w1 ++ "{" :: body1 ++ sep ++ body2 ++ "}" :: w2)
  = Ret (object_wrapper (map_of (members1 ++ members2))).
Proof.
  intros Hw1 Hb1 Hs Hb2 Hw2.
  destruct (json_members_head body2 members2 Hb2) as (Hne2 & Hn2).
  replace (w1 ++ "{" :: body1 ++ sep ++ body2 ++ "}" :: w2)
    with (w1 ++ "{" :: (body1 ++ sep ++ body2) ++ "}" :: w2)
    by now rewrite <- !app_assoc.
  apply parse_object_text_end; [exact Hw1|exact Hw2|].
  rewrite <- !app_assoc.
  apply (members_then body1 members1 Hb1).
  - now destruct sep, body2.
  - destruct sep as [|x sep]; cbn [app hd].
    + now rewrite hd_app_nonempty.
    + apply Forall_cons_1 in Hs as [[Hx | ->] _]; [|reflexivity].
      now apply whitespace_char in Hx.
  - intros key'. apply parse_object_separators; [exact Hs|now destruct body2|].
    apply (members_then body2 members2 Hb2); [discriminate|reflexivity|].
    intros key'' fuel. unfold map_of. rewrite fold_left_app.
    apply parse_object_at_close.
Qed.

(** *** After the value *)

Lemma skip_trailing_garbage (w rest : str) (c z : ascii) :
  whitespace w -> is_whitespace c = false ->
  forall fuel,
    may_end (skip_trailing fuel (z :: w ++ c :: rest))
      (Throw (text "garbage at end of input: " ++ [c])).
Proof.
  intros Hw Hc. revert z. induction Hw as [|d w Hd Hw IH]; intros z [|fuel];
    try (now right);
    cbn [skip_trailing incr neq_end deref string_iterator tl hd app].
  - rewrite Hc. now left.
  - rewrite Hd. apply IH.
Qed.

(** X14: a well-formed value followed, after optional whitespace, by
    a character that is not whitespace (and that, directly after the
    value, could not continue a number) is rejected, and the message is
    "garbage at end of input: " followed by that character. *)
Theorem trailing_garbage_rejected (w1 body w2 rest : str) (c : ascii)
    (v : value) :
  whitespace w1 -> json_value body v -> whitespace w2 ->
  is_whitespace c = false -> w2 <> [] \/ number_char c = false ->
  parse (w1 ++ body ++ w2 ++ c :: rest)
  = Throw (text "garbage at end of input: " ++ [c]).
Proof.
  intros Hw1 Hv Hw2 Hc Hn. apply may_end_parse. unfold parse, parse_from.
  destruct (json_value_head body v Hv) as (Hne & _).
  destruct (snoc_of_nonempty body Hne) as (pre & z & E).
  apply may_end_bind with (a := (v, cursor_at_last body (w2 ++ c :: rest))).
  - apply detail_parse_skip; [exact Hw1|now destruct body|].
    intros fuel. apply (proj1 grammar_parses); [exact Hv|].
    destruct Hn as [Hn | Hn]; [|now apply whitespace_head].
    destruct w2 as [|x w2]; [contradiction|].
    apply Forall_cons_1 in Hw2 as [Hx _]. now apply whitespace_char in Hx.
  - cbn beta iota. rewrite E, cursor_at_last_snoc.
    apply may_end_throw. now apply skip_trailing_garbage.
Qed.

End MoreParsing.

(** ** The stream entry point at the end of the stream *)

Section MoreStreams.
Context {num : NumberOps}.

(** Once the stream has failed, [++cur] reads nothing and keeps the
    character the iterator holds. *)
Lemma incr_failed (it : iterator) :
  good (stream it) = false ->
  good (stream (incr it)) = false /\ cur_val (incr it) = cur_val it.
Proof.
  intros H. cbn [incr stream_iterator]. unfold istream_get. rewrite H.
  cbn [stream cur_val]. split; [|reflexivity].
  unfold good. cbn [eofbit failbit]. apply andb_false_r.
Qed.

Lemma open_bracket_failed (fuel : nat) :
  (forall it : iterator,
      good (stream it) = false -> cur_val it = "[" ->
      detail_parse fuel it = OutOfFuel)
  /\ (forall (it : iterator) rv,
      good (stream it) = false -> cur_val it = "[" ->
      parse_array fuel rv true false it = OutOfFuel).
Proof.
  induction fuel as [|fuel [IHp IHa]]; [now split|]. split.
  - intros it Hg Hc. rewrite detail_parse_S. cbn zeta.
    cbn [deref stream_iterator]. rewrite Hc. cbn [Ascii.eqb Bool.eqb].
    destruct (incr_failed it Hg) as [Hg' Hc'].
    rewrite IHa; [reflexivity | exact Hg' | congruence].
  - intros it rv Hg Hc. rewrite parse_array_S.
    cbn [deref stream_iterator]. rewrite Hc.
    change (is_whitespace "[") with false.
    change ("[" =? "]") with false. cbn [andb].
    now rewrite IHp.
Qed.

Lemma open_brackets_stream (fuel : nat) :
  forall pre c rest,
    openings pre -> c :: rest = pre ++ text "[" ->
    detail_parse fuel (iterator_on c rest) = OutOfFuel
    /\ forall rv, parse_array fuel rv true false (iterator_on c rest) = OutOfFuel.
Proof.
  induction fuel as [|fuel IH]; [now split|].
  intros pre c rest Hpre E.
  destruct pre as [|p pre].
  - injection E as -> ->. split.
    + rewrite detail_parse_S. cbn zeta.
      cbn [deref stream_iterator iterator_on cur_val Ascii.eqb Bool.eqb].
      rewrite (proj2 (open_bracket_failed fuel)); reflexivity.
    + intros rv. rewrite parse_array_S.
      cbn [deref stream_iterator iterator_on cur_val].
      change (is_whitespace "[") with false.
      change ("[" =? "]") with false. cbn [andb].
      now rewrite (proj1 (IH [] "[" [] Hpre eq_refl)).
  - change (text "[") with ["["] in *.
    cbn [app] in E. injection E as -> ->.
    apply Forall_cons_1 in Hpre as [Hp Hpre].
    destruct (pre ++ ["["]) as [|d rest] eqn:E;
      [now destruct pre|].
    destruct (IH pre d rest Hpre (eq_sym E)) as [IHp IHa].
    split.
    + rewrite detail_parse_S. cbn zeta.
      cbn [deref stream_iterator iterator_on cur_val].
      change (incr (iterator_on p (d :: rest))) with (iterator_on d rest).
      destruct Hp as [Hp | ->].
      * destruct (whitespace_char p Hp) as (-> & -> & -> & -> & -> & -> & -> & _).
        rewrite Hp. change (neq_end (iterator_on d rest)) with true.
        cbn iota. exact IHp.
      * cbn [Ascii.eqb Bool.eqb]. now rewrite IHa.
    + intros rv. rewrite parse_array_S.
      cbn [deref stream_iterator iterator_on cur_val].
      destruct Hp as [Hp | ->].
      * rewrite Hp.
        change (incr (iterator_on p (d :: rest))) with (iterator_on d rest).
        change (neq_end (iterator_on d rest)) with true.
        cbn iota. apply IHa.
      * change (is_whitespace "[") with false.
        change ("[" =? "]") with false. cbn [andb].
        assert (Hpre' : openings ("[" :: pre))
          by (constructor; [now right | exact Hpre]).
        assert (E' : "[" :: d :: rest = ("[" :: pre) ++ ["["])
          by (cbn [app]; now rewrite E).
        now rewrite (proj1 (IH ("[" :: pre) "[" (d :: rest) Hpre' E')).
Qed.

Lemma parse_array_at_end (rv : array) (fuel : nat) :
  may_end (parse_array fuel rv true false ([] : str))
    (Throw (text "bad json")).
Proof. destruct fuel as [|[|fuel]]; [now right..|now left]. Qed.

Lemma open_brackets_string (fuel : nat) :
  forall pre,
    openings pre ->
    may_end (detail_parse fuel (pre ++ text "[")) (Throw (text "bad json"))
    /\ forall rv,
        may_end (parse_array fuel rv true false (pre ++ text "["))
          (Throw (text "bad json")).
Proof.
  induction fuel as [|fuel IH]; [split; [|intros rv]; now right|].
  intros pre Hpre. change (text "[") with ["["] in *.
  destruct pre as [|p pre].
  - split.
    + cbn [app]. rewrite detail_parse_array. apply may_end_throw.
      apply parse_array_at_end.
    + intros rv. rewrite parse_array_S.
      cbn [app deref incr neq_end string_iterator hd tl].
      change (is_whitespace "[") with false.
      change ("[" =? "]") with false. cbn [andb].
      apply may_end_throw. apply (proj1 (IH [] Hpre)).
  - pose proof Hpre as Hall.
    apply Forall_cons_1 in Hpre as [Hp Hpre].
    destruct (IH pre Hpre) as [IHp IHa]. cbn [app].
    assert (Hne : pre ++ ["["] <> []) by now destruct pre.
    split.
    + destruct Hp as [Hp | ->].
      * rewrite detail_parse_ws_step; [exact IHp | exact Hp | exact Hne].
      * rewrite detail_parse_array. apply may_end_throw. apply IHa.
    + intros rv. destruct Hp as [Hp | ->].
      * rewrite parse_array_ws_step; [apply IHa | exact Hp | exact Hne].
      * rewrite parse_array_S.
        cbn [deref incr neq_end string_iterator hd tl].
        change (is_whitespace "[") with false.
        change ("[" =? "]") with false. cbn [andb].
        apply may_end_throw. apply (proj1 (IH ("[" :: pre) Hall)).
Qed.

(** X15: on a stream that ends right after an opening bracket
    (preceded only by whitespace and other opening brackets), the
    stream entry point never returns: [++cur] fails and leaves the
    bracket in the iterator, so [detail::parse] and [parse_array] call
    each other without end; every bound on the depth of the recursion
    is exceeded.  The string entry point rejects the same text with
    "bad json". *)
Theorem stream_open_bracket_diverges (pre : str) :
  openings pre ->
  (forall fuel,
      parse_from fuel (iterator_of (istream_of (pre ++ text "[")))
      = OutOfFuel)
  /\ parse_stream (pre ++ text "[") = OutOfFuel
  /\ parse (pre ++ text "[") = Throw (text "bad json").
Proof.
  intros Hpre.
  assert (H : forall fuel,
             parse_from fuel (iterator_of (istream_of (pre ++ text "[")))
             = OutOfFuel).
  { intros fuel. unfold parse_from.
    destruct (pre ++ text "[") as [|c rest] eqn:E; [now destruct pre|].
    change (iterator_of (istream_of (c :: rest))) with (iterator_on c rest).
    now rewrite (proj1 (open_brackets_stream fuel pre c rest Hpre (eq_sym E))). }
  split; [exact H|]. split; [apply H|].
  apply may_end_parse. unfold parse, parse_from. apply may_end_throw.
  apply (proj1 (open_brackets_string _ pre Hpre)).
Qed.

(** *** A literal cut short *)

Lemma detail_parse_skip_stream (w : str) (c : ascii) (rest : str)
    (fuel : nat) :
  whitespace w ->
  detail_parse (length w + fuel) (iterator_of (istream_of (w ++ c :: rest)))
  = detail_parse fuel (iterator_on c rest).
Proof.
  intros Hw. destruct Hw as [|d w Hd Hw]; [reflexivity|].
  cbn [app].
  change (iterator_of (istream_of (d :: w ++ c :: rest)))
    with (iterator_on d (w ++ c :: rest)).
  revert d Hd. induction Hw as [|e w He Hw IH]; intros d Hd;
    cbn [length Nat.add]; rewrite detail_parse_S; cbn zeta;
    cbn [deref stream_iterator iterator_on cur_val];
    destruct (whitespace_char d Hd) as (-> & -> & -> & -> & -> & -> & -> & _);
    rewrite Hd.
  - reflexivity.
  - cbn [app].
    change (incr (iterator_on d (e :: w ++ c :: rest)))
      with (iterator_on e (w ++ c :: rest)).
    change (neq_end (iterator_on e (w ++ c :: rest))) with true. cbn iota.
    now apply IH.
Qed.

(** X16: the stream entry point accepts the literal [null] cut short
    after its first [l]: the failed read leaves that [l] in the
    iterator, where the comparison with the second [l] finds it.  The
    string entry point rejects the same text. *)
Theorem stream_accepts_cut_null (w : str) :
  whitespace w ->
  parse_stream (w ++ text "nul") = Ret null_wrapper
  /\ parse (w ++ text "nul") = Throw (text "bad json: null").
Proof.
  intros Hw. change (text "nul") with ["n"; "u"; "l"]. split.
  - unfold parse_stream, parse_from, fuel_for.
    assert (Hd : forall fuel,
               detail_parse (length w + S fuel)
                 (iterator_of (istream_of (w ++ ["n"; "u"; "l"])))
               = Ret (null_wrapper,
                      {| stream := {| unread := []; eofbit := true;
                                      failbit := true |};
                         cur_val := "l" |})).
    { intros fuel. rewrite detail_parse_skip_stream by exact Hw. reflexivity. }
    replace (2 * length (w ++ ["n"; "u"; "l"]) + 2)
      with (length w + S (length w + 7))
      by (rewrite length_app; cbn [length]; lia).
    rewrite Hd. cbn [bind]. rewrite Nat.add_succ_r. reflexivity.
  - apply may_end_parse. unfold parse, parse_from. apply may_end_throw.
    apply detail_parse_skip_end; [exact Hw|discriminate|].
    intros [|fuel]; [now right | now left].
Qed.

End MoreStreams.

(** ** The serializer prints JSON texts *)

Section Rendering.
Context {num : NumberOps}.

Lemma string_body_escape (s : str) : plain s -> string_body (escape s) s.
Proof.
  induction 1 as [|c s Hc Hs IH]; [constructor|].
  cbn [escape].
  destruct (Ascii.eqb_spec c dquote) as [->|H1].
  { now apply body_escape. }
  destruct (Ascii.eqb_spec c backslash) as [->|H2].
  { now apply body_escape. }
  cbn [orb app]. apply body_char; try assumption.
  - now apply Ascii.eqb_neq.
  - now apply Ascii.eqb_neq.
Qed.

Lemma elements_rendered (a : array) :
  Forall (fun v => json_value (json v) v) a -> a <> [] ->
  forall w1, whitespace w1 ->
    json_elements (w1 ++ joined (text ", ") (map json a)) a.
Proof.
  induction a as [|v a IH]; [contradiction|].
  intros Hall _ w1 Hw1. apply Forall_cons_1 in Hall as [Hv Hall].
  destruct a as [|v' a].
  - cbn [map joined].
    replace (w1 ++ json v) with (w1 ++ json v ++ []) by now rewrite app_nil_r.
    apply je_last; [exact Hw1 | exact Hv | constructor].
  - change (w1 ++ joined (text ", ") (map json (v :: v' :: a)))
      with (w1 ++ json v ++ [] ++ ","
              :: (text " " ++ joined (text ", ") (map json (v' :: a)))).
    apply je_more; [exact Hw1 | exact Hv | constructor |].
    apply IH; [exact Hall | discriminate | now repeat constructor].
Qed.

Lemma members_rendered (o : object) :
  Forall (fun kv => plain (fst kv) /\ json_value (json (snd kv)) (snd kv)) o ->
  o <> [] ->
  forall w1, whitespace w1 ->
    json_members (w1 ++ joined (text ", ") (map member_text o)) o.
Proof.
  induction o as [|[k v] o IH]; [contradiction|].
  intros Hall _ w1 Hw1. apply Forall_cons_1 in Hall as [[Hk Hv] Hall].
  cbn [fst snd] in Hk, Hv. apply string_body_escape in Hk.
  assert (Hsp : whitespace (text " ")) by now repeat constructor.
  destruct o as [|kv' o].
  - cbn [map joined]. unfold member_text. cbn [fst snd].
    replace (w1 ++ [dquote] ++ escape k ++ dquote :: text ": " ++ json v)
      with (w1 ++ dquote :: escape k ++ dquote :: [] ++ ":"
              :: text " " ++ json v ++ [])
      by now rewrite app_nil_r.
    apply jm_last; try assumption; constructor.
  - change (w1 ++ joined (text ", ") (map member_text ((k, v) :: kv' :: o)))
      with (w1 ++ ([dquote] ++ escape k ++ dquote :: text ": " ++ json v)
              ++ text ", " ++ joined (text ", ") (map member_text (kv' :: o))).
    replace (w1 ++ ([dquote] ++ escape k ++ dquote :: text ": " ++ json v)
               ++ text ", " ++ joined (text ", ") (map member_text (kv' :: o)))
      with (w1 ++ dquote :: escape k ++ dquote :: [] ++ ":"
              :: text " " ++ json v ++ [] ++ ","
              :: (text " " ++ joined (text ", ") (map member_text (kv' :: o))))
      by (cbn [app]; now rewrite <- !app_assoc).
    apply jm_more; try assumption; try constructor.
    apply IH; [exact Hall | discriminate | exact Hsp].
Qed.

(** X17: the serializer prints well-formed JSON: the rendering of a
    value is a text of the grammar of RFC 8259 denoting that value,
    when the numbers of the value print as JSON numbers that read back
    as themselves and its strings and keys hold no control character
    (which [escape] would print as it is). *)
Theorem rendering_well_formed (v : value) :
  renderable v -> json_value (json v) v.
Proof.
  induction v as [|b|d|s|a IH|o IH] using value_ind; intros Hr.
  - constructor.
  - destruct b; constructor.
  - inversion Hr as [| |? Ht Hd| | |]; subst. cbn [json].
    rewrite <- Hd at 2. now apply jv_number.
  - inversion Hr as [| | |? Hs| |]; subst. cbn [json].
    apply (jv_string (escape s) s). now apply string_body_escape.
  - inversion Hr as [| | | |? Ha|]; subst.
    assert (Hall : Forall (fun v => json_value (json v) v) a).
    { rewrite Forall_forall in *. auto. }
    rewrite json_array. destruct a as [|e a].
    + apply (jv_array_empty []). constructor.
    + apply (jv_array (joined (text ", ") (map json (e :: a)))).
      apply (elements_rendered (e :: a) Hall ltac:(discriminate) []).
      constructor.
  - inversion Hr as [| | | | |? Hm Ho]; subst.
    assert (Hall : Forall (fun kv => plain (fst kv)
                                     /\ json_value (json (snd kv)) (snd kv)) o).
    { rewrite Forall_forall in *. intros kv Hin.
      destruct (Ho kv Hin) as [Hk Hv]. split; [exact Hk|]. now apply IH. }
    rewrite json_object. destruct o as [|kv o].
    + apply (jv_object_empty []). constructor.
    + rewrite <- (map_of_sorted_id (kv :: o) Hm) at 2.
      apply (jv_object (joined (text ", ") (map member_text (kv :: o)))).
      apply (members_rendered (kv :: o) Hall ltac:(discriminate) []).
      constructor.
Qed.

End Rendering.

(** ** Values built from containers *)

Module SharedMore.
Section Store.
Context {num : NumberOps}.
Import Shared.

Lemma value_of_object_fresh (v : value) (o : list (str * value))
    (f : list (str * value) -> list (str * value)) (st : gmap loc value_t) :
  get_object v st = Ret o ->
  let '(u, st1) := value_of_object o st in
  exists st2, modify_object u f st1 = Ret st2
              /\ get_object u st2 = Ret (f o)
              /\ get_object v st2 = Ret o.
Proof.
  unfold get_object, modify_object, value_of_object, new_value. cbn.
  intros H. rewrite lookup_insert_eq. eexists. split; [reflexivity|].
  rewrite lookup_insert_eq. split; [reflexivity|].
  destruct (st !! _value v) as [w|] eqn:E; [|discriminate H].
  assert (Hne : fresh (dom st) <> _value v).
  { intros Heq. pose proof (is_fresh (dom st)) as Hf. rewrite Heq in Hf.
    apply Hf. apply elem_of_dom. now exists w. }
  rewrite !lookup_insert_ne by exact Hne. now rewrite E.
Qed.

(** X18: a value constructed from the array (or object) that another
    value holds gets a copy of the container: what is changed through
    the new value's [get_array()] (or [get_object()]) is read back
    through the new value, and the first value still reads what it
    held. *)
Theorem constructed_value_independent (v : value) (st : gmap loc value_t) :
  (forall a f,
      get_array v st = Ret a ->
      exists u st1 st2,
        value_of_array a st = (u, st1)
        /\ modify_array u f st1 = Ret st2
        /\ get_array u st2 = Ret (f a)
        /\ get_array v st2 = Ret a)
  /\ (forall o f,
      get_object v st = Ret o ->
      exists u st1 st2,
        value_of_object o st = (u, st1)
        /\ modify_object u f st1 = Ret st2
        /\ get_object u st2 = Ret (f o)
        /\ get_object v st2 = Ret o).
Proof.
  split.
  - intros a f H. pose proof (SharedFacts.value_of_array_fresh v a f st H) as Hf.
    destruct (value_of_array a st) as [u st1].
    destruct Hf as (st2 & H1 & H2 & H3). exists u, st1, st2. auto.
  - intros o f H. pose proof (value_of_object_fresh v o f st H) as Hf.
    destruct (value_of_object o st) as [u st1].
    destruct Hf as (st2 & H1 & H2 & H3). exists u, st1, st2. auto.
Qed.

End Store.
End SharedMore.

(** ** More fuel changes nothing *)

Section FuelMonotone.
Context {num : NumberOps} {I : Type} {iter : Iterator I}.

Lemma parse_string_S (fuel : nat) (rv : str) (esc : bool) (cur : I) :
  parse_string (S fuel) rv esc cur =
    if neq_end cur then
      if (deref cur =? dquote) && negb esc then Ret (rv, cur)
      else
        parse_string fuel
          (if (deref cur =? backslash) && negb esc then rv
           else rv ++ [deref cur])
          ((deref cur =? backslash) && negb esc) (incr cur)
    else Throw (text "bad string: " ++ rv).
Proof. reflexivity. Qed.

Lemma parse_number_loop_S (fuel : nat) (io : str) (cur : I) :
  parse_number_loop (S fuel) io cur =
    let '(next, cur') := peek cur in
    if negb (number_char next) then Ret (io ++ [deref cur], cur')
    else if neq_end (incr cur')
         then parse_number_loop fuel (io ++ [deref cur]) (incr cur')
         else Ret (io ++ [deref cur], incr cur').
Proof. reflexivity. Qed.

Lemma parse_string_mono (fuel : nat) (rv : str) (esc : bool) (cur : I)
    (r : outcome (str * I)) :
  parse_string fuel rv esc cur = r -> r <> OutOfFuel ->
  parse_string (S fuel) rv esc cur = r.
Proof.
  revert rv esc cur. induction fuel as [|fuel IH]; intros rv esc cur H Hr;
    [cbn in H; congruence|].
  rewrite parse_string_S in H |- *.
  destruct (neq_end cur); [|exact H].
  destruct ((deref cur =? dquote) && negb esc); [exact H|].
  now apply IH.
Qed.

Lemma parse_number_loop_mono (fuel : nat) (io : str) (cur : I)
    (r : outcome (str * I)) :
  parse_number_loop fuel io cur = r -> r <> OutOfFuel ->
  parse_number_loop (S fuel) io cur = r.
Proof.
  revert io cur. induction fuel as [|fuel IH]; intros io cur H Hr;
    [cbn in H; congruence|].
  rewrite parse_number_loop_S in H |- *.
  destruct (peek cur) as [next cur'].
  destruct (negb (number_char next)); [exact H|].
  destruct (neq_end (incr cur')); [|exact H].
  now apply IH.
Qed.

Lemma skip_trailing_mono (fuel : nat) (i : I) (r : outcome unit) :
  skip_trailing fuel i = r -> r <> OutOfFuel -> skip_trailing (S fuel) i = r.
Proof.
  revert i. induction fuel as [|fuel IH]; intros i H Hr;
    [cbn in H; congruence|].
  change (skip_trailing (S (S fuel)) i)
    with (if neq_end (incr i) then
            if is_whitespace (deref (incr i)) then skip_trailing (S fuel) (incr i)
            else Throw (text "garbage at end of input: " ++ [deref (incr i)])
          else Ret tt).
  change (skip_trailing (S fuel) i)
    with (if neq_end (incr i) then
            if is_whitespace (deref (incr i)) then skip_trailing fuel (incr i)
            else Throw (text "garbage at end of input: " ++ [deref (incr i)])
          else Ret tt) in H.
  destruct (neq_end (incr i)); [|exact H].
  destruct (is_whitespace (deref (incr i))); [|exact H].
  now apply IH.
Qed.

Lemma parser_mono (fuel : nat) :
  (forall (cur : I) r,
      detail_parse fuel cur = r -> r <> OutOfFuel ->
      detail_parse (S fuel) cur = r)
  /\ (forall rv accept has_elements (cur : I) r,
      parse_array fuel rv accept has_elements cur = r -> r <> OutOfFuel ->
      parse_array (S fuel) rv accept has_elements cur = r)
  /\ (forall rv key got_key got_elements (cur : I) r,
      parse_object fuel rv key got_key got_elements cur = r ->
      r <> OutOfFuel ->
      parse_object (S fuel) rv key got_key got_elements cur = r).
Proof.
  induction fuel as [|fuel (IHp & IHa & IHo)];
    [repeat split; intros; cbn in *; congruence|].
  split; [|split].
  - intros cur r H Hr. rewrite detail_parse_S in H |- *. cbn zeta in *.
    destruct (deref cur =? dquote).
    { destruct (parse_string fuel [] false (incr cur)) as [[s c]| |] eqn:E;
        [| |cbn in H; congruence];
        rewrite (parse_string_mono _ _ _ _ _ E) by discriminate; exact H. }
    destruct (deref cur =? "[").
    { destruct (parse_array fuel [] true false (incr cur)) as [[s c]| |] eqn:E;
        [| |cbn in H; congruence];
        rewrite (IHa _ _ _ _ _ E) by discriminate; exact H. }
    destruct (deref cur =? "{").
    { destruct (parse_object fuel [] [] false false (incr cur))
        as [[s c]| |] eqn:E;
        [| |cbn in H; congruence];
        rewrite (IHo _ _ _ _ _ _ E) by discriminate; exact H. }
    destruct (isdigit (deref cur) || (deref cur =? "-")).
    { unfold parse_number in *.
      destruct (parse_number_loop fuel [] cur) as [[s c]| |] eqn:E;
        [| |cbn in H; congruence];
        rewrite (parse_number_loop_mono _ _ _ _ E) by discriminate; exact H. }
    destruct (deref cur =? "n"); [exact H|].
    destruct (deref cur =? "t"); [exact H|].
    destruct (deref cur =? "f"); [exact H|].
    destruct (is_whitespace (deref cur)); [|exact H].
    destruct (neq_end (incr cur)); [|exact H].
    now apply IHp.
  - intros rv accept has_elements cur r H Hr.
    rewrite parse_array_S in H |- *. cbn zeta in H |- *.
    destruct (is_whitespace (deref cur)).
    { destruct (neq_end (incr cur)); [|exact H]. now apply IHa. }
    destruct ((deref cur =? "]") && xorb has_elements accept); [exact H|].
    destruct accept.
    { destruct (detail_parse fuel cur) as [[v c]| |] eqn:E;
        [| |cbn in H; congruence];
        rewrite (IHp _ _ E) by discriminate; [|exact H].
      cbn [bind] in H |- *. cbn beta iota zeta in H |- *.
      destruct (neq_end (incr c)); [|exact H]. now apply IHa. }
    destruct (deref cur =? ","); [|exact H].
    destruct (neq_end (incr cur)); [|exact H]. now apply IHa.
  - intros rv key got_key got_elements cur r H Hr.
    rewrite parse_object_S in H |- *. cbn zeta in H |- *.
    destruct ((deref cur =? "}") && negb got_key); [exact H|].
    destruct (is_whitespace (deref cur)).
    { destruct (neq_end (incr cur)); [|exact H]. now apply IHo. }
    destruct (deref cur =? dquote).
    { destruct (parse_string fuel [] false (incr cur)) as [[s c]| |] eqn:E;
        [| |cbn in H; congruence];
        rewrite (parse_string_mono _ _ _ _ _ E) by discriminate; [|exact H].
      cbn [bind] in H |- *. cbn beta iota zeta in H |- *.
      destruct (neq_end (incr c)); [|exact H]. now apply IHo. }
    destruct (got_key && (deref cur =? ":")).
    { destruct (detail_parse fuel (incr cur)) as [[v c]| |] eqn:E;
        [| |cbn in H; congruence];
        rewrite (IHp _ _ E) by discriminate; [|exact H].
      cbn [bind] in H |- *. cbn beta iota zeta in H |- *.
      destruct (neq_end (incr c)); [|exact H]. now apply IHo. }
    destruct (got_elements && negb got_key && (deref cur =? ",")); [|exact H].
    destruct (neq_end (incr cur)); [|exact H]. now apply IHo.
Qed.

Lemma detail_parse_more_fuel (fuel extra : nat) (cur : I)
    (r : outcome (value * I)) :
  detail_parse fuel cur = r -> r <> OutOfFuel ->
  detail_parse (extra + fuel) cur = r.
Proof.
  intros H Hr. induction extra as [|extra IH]; [exact H|].
  now apply (proj1 (parser_mono _)).
Qed.

Lemma skip_trailing_more_fuel (fuel extra : nat) (i : I) (r : outcome unit) :
  skip_trailing fuel i = r -> r <> OutOfFuel ->
  skip_trailing (extra + fuel) i = r.
Proof.
  intros H Hr. induction extra as [|extra IH]; [exact H|].
  now apply skip_trailing_mono.
Qed.

(** The entry points' result, once there is one, is the result for
    every larger bound on the depth. *)
Lemma parse_from_more_fuel (fuel extra : nat) (i : I) (r : outcome value) :
  parse_from fuel i = r -> r <> OutOfFuel -> parse_from (extra + fuel) i = r.
Proof.
  unfold parse_from. intros H Hr.
  destruct (detail_parse fuel i) as [[v c]| |] eqn:E;
    [| |cbn in H; congruence];
    rewrite (detail_parse_more_fuel _ extra _ _ E) by discriminate;
    [|exact H].
  cbn [bind] in H |- *. cbn beta iota in H |- *.
  destruct (skip_trailing fuel c) as [[]| |] eqn:E';
    [| |cbn in H; congruence];
    rewrite (skip_trailing_more_fuel _ extra _ _ E') by discriminate;
    exact H.
Qed.

End FuelMonotone.

(** ** Whitespace before the value *)

Section LeadingWhitespace.
Context {num : NumberOps}.

Lemma detail_parse_skip_exact (w t : str) (fuel : nat) :
  whitespace w -> t <> [] ->
  detail_parse (length w + fuel) (w ++ t) = detail_parse fuel t.
Proof.
  intros Hw Hne. induction Hw as [|c w Hc Hw IH]; [reflexivity|].
  cbn [length Nat.add app].
  rewrite detail_parse_ws_step; [exact IH | exact Hc | now destruct w, t].
Qed.

Lemma parse_from_skip (w t : str) (r : outcome value) :
  whitespace w -> t <> [] ->
  parse_from (fuel_for t) t = r -> r <> OutOfFuel ->
  parse_from (fuel_for (w ++ t)) (w ++ t) = r.
Proof.
  intros Hw Hne H Hr. unfold parse_from, fuel_for in *.
  replace (2 * length (w ++ t) + 2)
    with (length w + (length w + (2 * length t + 2)))
    by (rewrite length_app; lia).
  rewrite detail_parse_skip_exact by assumption.
  destruct (detail_parse (2 * length t + 2) t) as [[v c]| |] eqn:E;
    [| |cbn in H; congruence];
    rewrite (detail_parse_more_fuel _ (length w) _ _ E) by discriminate;
    [|exact H].
  cbn [bind] in H |- *. cbn beta iota in H |- *.
  destruct (skip_trailing (2 * length t + 2) c) as [[]| |] eqn:E';
    [| |cbn in H; congruence];
    rewrite Nat.add_assoc, <- H; f_equal;
    apply (skip_trailing_more_fuel _ (length w + length w) _ _ E');
    discriminate.
Qed.

Lemma parse_from_skip_stream (w : str) (c : ascii) (rest : str)
    (r : outcome value) :
  whitespace w ->
  parse_from (fuel_for (c :: rest)) (iterator_on c rest) = r ->
  r <> OutOfFuel ->
  parse_from (fuel_for (w ++ c :: rest))
    (iterator_of (istream_of (w ++ c :: rest))) = r.
Proof.
  intros Hw H Hr. unfold parse_from, fuel_for in *.
  replace (2 * length (w ++ c :: rest) + 2)
    with (length w + (length w + (2 * length (c :: rest) + 2)))
    by (rewrite length_app; lia).
  rewrite detail_parse_skip_stream by assumption.
  destruct (detail_parse (2 * length (c :: rest) + 2) (iterator_on c rest))
    as [[v i]| |] eqn:E;
    [| |cbn in H; congruence];
    rewrite (detail_parse_more_fuel _ (length w) _ _ E) by discriminate;
    [|exact H].
  cbn [bind] in H |- *. cbn beta iota in H |- *.
  destruct (skip_trailing (2 * length (c :: rest) + 2) i) as [[]| |] eqn:E';
    [| |cbn in H; congruence];
    rewrite Nat.add_assoc, <- H; f_equal;
    apply (skip_trailing_more_fuel _ (length w + length w) _ _ E');
    discriminate.
Qed.

(** X19: whitespace before the text changes nothing: the string entry
    point returns the same value, or throws the same exception, with
    and without it; so does the stream entry point wherever it comes to
    an end. *)
Theorem leading_whitespace_ignored (w t : str) :
  whitespace w ->
  parse (w ++ t) = parse t
  /\ (parse_stream t <> OutOfFuel -> parse_stream (w ++ t) = parse_stream t).
Proof.
  intros Hw. split.
  - destruct t as [|c t].
    + rewrite app_nil_r. now rewrite (parse_blank w Hw).
    + apply (parse_from_skip w (c :: t)); [exact Hw|discriminate|reflexivity|].
      apply parse_total.
  - intros Hr. destruct t as [|c t].
    + rewrite app_nil_r. now rewrite (parse_stream_blank w Hw).
    + exact (parse_from_skip_stream w c t _ Hw eq_refl Hr).
Qed.

End LeadingWhitespace.

(** ** Instances *)

Section MoreInstances.
Existing Instance Binary64.ops.

Lemma example_sorted :
  sorted_value
    (object_wrapper
       [(text "k", array_wrapper [number_wrapper double_1; bool_wrapper true])]).
Proof. repeat (constructor; cbn [snd keys map fst]). Qed.

Lemma example_number : json_value (text "1") (number_wrapper double_1).
Proof. exact (jv_number (text "1") eq_refl). Qed.

Lemma example_elements : json_elements (text "1") [number_wrapper double_1].
Proof.
  exact (je_last [] (text "1") _ [] whitespace_none example_number
           whitespace_none).
Qed.

Lemma example_key : string_body (text "k") (text "k").
Proof.
  exact (body_char "k" [] [] eq_refl eq_refl ltac:(vm_compute; lia) body_end).
Qed.

Lemma example_members :
  json_members (quoted "'k':1") [(text "k", number_wrapper double_1)].
Proof.
  exact (jm_last [] (text "k") (text "k") [] [] (text "1") _ []
           whitespace_none example_key whitespace_none whitespace_none
           example_number whitespace_none).
Qed.

Lemma example_members_more :
  json_members (quoted "'m':true") [(text "m", bool_wrapper true)].
Proof.
  exact (jm_last [] (text "m") (text "m") [] [] (text "true") _ []
           whitespace_none
           (body_char "m" [] [] eq_refl eq_refl ltac:(vm_compute; lia) body_end)
           whitespace_none whitespace_none jv_true whitespace_none).
Qed.

Lemma example_separators : separators (text ", ,").
Proof.
  unfold separators.
  repeat (constructor; [first [left; reflexivity | right; reflexivity]|]).
  constructor.
Qed.

Lemma example_no_separators : separators [].
Proof. constructor. Qed.

Lemma example_openings : openings (text "[ ").
Proof.
  unfold openings.
  repeat (constructor; [first [left; reflexivity | right; reflexivity]|]).
  constructor.
Qed.

Lemma example_renderable :
  renderable
    (object_wrapper
       [(text "k", array_wrapper [number_wrapper double_1; bool_wrapper true])]).
Proof.
  apply renderable_object; [repeat constructor|].
  repeat constructor; cbn [fst snd]; reflexivity.
Qed.

Lemma render_then_parse_witness :
  numbers_stable
    (object_wrapper
       [(text "k", array_wrapper [number_wrapper double_1; bool_wrapper true])])
  /\ sorted_value
       (object_wrapper
          [(text "k",
            array_wrapper [number_wrapper double_1; bool_wrapper true])])
  /\ parse
       (json
          (object_wrapper
             [(text "k",
               array_wrapper [number_wrapper double_1; bool_wrapper true])]))
     = Ret (object_wrapper
              [(text "k",
                array_wrapper [number_wrapper double_1; bool_wrapper true])])
  /\ parse_stream
       (json
          (object_wrapper
             [(text "k",
               array_wrapper [number_wrapper double_1; bool_wrapper true])]))
     = Ret (object_wrapper
              [(text "k",
                array_wrapper [number_wrapper double_1; bool_wrapper true])]).
Proof.
  split; [exact example_stable|]. split; [exact example_sorted|].
  exact (render_then_parse _ example_stable example_sorted).
Defined.

Lemma parse_string_unescape_witness :
  parse_string 5 [] false (quoted "a\'b'c")
  = Ret (quoted "a'b", quoted "'c")
  /\ exists t,
      quoted "a\'b'c" = t ++ quoted "'c"
      /\ hd NUL (quoted "'c") = dquote
      /\ (Forall (fun c => c <> NUL) t -> unescape t = Some (quoted "a'b")).
Proof.
  assert (H : parse_string 5 [] false (quoted "a\'b'c")
              = Ret (quoted "a'b", quoted "'c")) by reflexivity.
  split; [exact H | exact (parse_string_unescape _ _ _ _ H)].
Defined.

Lemma unfinished_string_rejected_witness :
  whitespace (text " ")
  /\ parse (text " " ++ dquote :: escape (quoted "a'b"))
     = Throw (text "bad string: " ++ quoted "a'b").
Proof.
  split; [exact whitespace_space|].
  exact (unfinished_string_rejected _ (quoted "a'b") whitespace_space).
Defined.

Lemma escapes_not_decoded_witness :
  whitespace (text " ")
  /\ parse (quoted " '\n\t' ") = Ret (string_wrapper (text "nt")).
Proof.
  split; [exact whitespace_space|].
  exact (escapes_not_decoded (text " ") (text "nt") (text " ")
           whitespace_space whitespace_space).
Defined.

Lemma blank_input_rejected_witness :
  whitespace (text " ")
  /\ parse (text " ") = Throw (text "bad json")
  /\ parse_stream (text " ") = Throw (text "bad json").
Proof.
  split; [exact whitespace_space|].
  exact (blank_input_rejected _ whitespace_space).
Defined.

Lemma array_trailing_comma_rejected_witness :
  whitespace (text " ")
  /\ json_elements (text "1") [number_wrapper double_1]
  /\ parse (text " [1, ]x") = Throw (text "bad json").
Proof.
  split; [exact whitespace_space|]. split; [exact example_elements|].
  exact (array_trailing_comma_rejected (text " ") (text "1") (text " ")
           (text "x") _ whitespace_space example_elements whitespace_space).
Defined.

Lemma array_missing_comma_rejected_witness :
  json_elements (text "1") [number_wrapper double_1]
  /\ whitespace (text " ")
  /\ parse (text "[1 2]") = Throw (text "bad array").
Proof.
  split; [exact example_elements|]. split; [exact whitespace_space|].
  assert (H1 : is_whitespace "2" = false) by reflexivity.
  assert (H2 : ("2" =? "]") = false) by reflexivity.
  assert (H3 : ("2" =? ",") = false) by reflexivity.
  assert (H4 : text " " <> [] \/ number_char "2" = false)
    by (left; discriminate).
  exact (array_missing_comma_rejected [] (text "1") (text " ") (text "]") "2"
           _ whitespace_none example_elements whitespace_space H1 H2 H3 H4).
Defined.

Lemma object_trailing_commas_accepted_witness :
  json_members (quoted "'k':1") [(text "k", number_wrapper double_1)]
  /\ separators (text ", ,")
  /\ parse (quoted "{'k':1, ,}")
     = Ret (object_wrapper (map_of [(text "k", number_wrapper double_1)])).
Proof.
  split; [exact example_members|]. split; [exact example_separators|].
  exact (object_trailing_commas_accepted [] (quoted "'k':1") (text ", ,") []
           _ whitespace_none example_members example_separators
           whitespace_none).
Defined.

Lemma object_commas_optional_witness :
  json_members (quoted "'k':1") [(text "k", number_wrapper double_1)]
  /\ json_members (quoted "'m':true") [(text "m", bool_wrapper true)]
  /\ parse (quoted "{'k':1'm':true}")
     = Ret (object_wrapper
              (map_of ([(text "k", number_wrapper double_1)]
                       ++ [(text "m", bool_wrapper true)]))).
Proof.
  split; [exact example_members|]. split; [exact example_members_more|].
  exact (object_commas_optional [] (quoted "'k':1") [] (quoted "'m':true") []
           _ _ whitespace_none example_members example_no_separators
           example_members_more whitespace_none).
Defined.

Lemma trailing_garbage_rejected_witness :
  json_value (text "1") (number_wrapper double_1)
  /\ whitespace (text " ")
  /\ parse (text "1 2") = Throw (text "garbage at end of input: 2").
Proof.
  split; [exact example_number|]. split; [exact whitespace_space|].
  assert (H1 : is_whitespace "2" = false) by reflexivity.
  assert (H2 : text " " <> [] \/ number_char "2" = false)
    by (left; discriminate).
  exact (trailing_garbage_rejected [] (text "1") (text " ") [] "2" _
           whitespace_none example_number whitespace_space H1 H2).
Defined.

Lemma stream_open_bracket_diverges_witness :
  openings (text "[ ")
  /\ parse_stream (text "[ [") = OutOfFuel
  /\ parse (text "[ [") = Throw (text "bad json").
Proof.
  split; [exact example_openings|].
  exact (proj2 (stream_open_bracket_diverges (text "[ ") example_openings)).
Defined.

Lemma stream_accepts_cut_null_witness :
  whitespace (text " ")
  /\ parse_stream (text " nul") = Ret null_wrapper
  /\ parse (text " nul") = Throw (text "bad json: null").
Proof.
  split; [exact whitespace_space|].
  exact (stream_accepts_cut_null _ whitespace_space).
Defined.

Lemma rendering_well_formed_witness :
  renderable
    (object_wrapper
       [(text "k", array_wrapper [number_wrapper double_1; bool_wrapper true])])
  /\ json_value
       (json
          (object_wrapper
             [(text "k",
               array_wrapper [number_wrapper double_1; bool_wrapper true])]))
       (object_wrapper
          [(text "k",
            array_wrapper [number_wrapper double_1; bool_wrapper true])]).
Proof.
  split; [exact example_renderable|].
  exact (rendering_well_formed _ example_renderable).
Defined.

Lemma leading_whitespace_ignored_witness :
  whitespace (text " ")
  /\ parse (text " " ++ text "[1") = parse (text "[1").
Proof.
  split; [exact whitespace_space|].
  exact (proj1 (leading_whitespace_ignored (text " ") (text "[1")
                  whitespace_space)).
Defined.

End MoreInstances.

Module SharedMoreInstances.
Section Store.
Existing Instance Binary64.ops.
Import Shared.

Lemma constructed_value_independent_witness :
  get_array {| _value := 1%positive; _type := JSON_ARRAY |}
    {[ 1%positive := array_wrapper [] ]}
  = Ret []
  /\ exists u st1 st2,
      value_of_array [] {[ 1%positive := array_wrapper [] ]} = (u, st1)
      /\ modify_array u
           (fun a => a ++ [{| _value := 2%positive; _type := JSON_NULL |}])
           st1
         = Ret st2
      /\ get_array u st2
         = Ret [{| _value := 2%positive; _type := JSON_NULL |}]
      /\ get_array {| _value := 1%positive; _type := JSON_ARRAY |} st2
         = Ret [].
Proof.
  assert (H : get_array {| _value := 1%positive; _type := JSON_ARRAY |}
                {[ 1%positive := array_wrapper [] ]} = Ret [])
    by reflexivity.
  split; [exact H|].
  exact (proj1 (SharedMore.constructed_value_independent _ _) _
           (fun a => a ++ [{| _value := 2%positive; _type := JSON_NULL |}])
           H).
Defined.

End Store.
End SharedMoreInstances.
